(** * parse_logs.js: the WordPress Trac log parser, embedded in Rocq

    The script downloads the verbose revision log of a Trac instance, turns
    every pair of table rows into a changeset record ([buildChangesets]),
    asks the ticket pages for the component of every referenced ticket
    ([gatherComponents]) and prints a report grouped by component together
    with a credit line ([buildOutput]).

    Conventions of the embedding.
    - A JavaScript string is a sequence of UTF-16 code units; the embedding
      covers the code units below 256 and writes them as [string] /
      [list ascii].  The character classes below are the restrictions of
      the ECMAScript ones to that range.
    - Regular expressions are written as lists of atoms and run by a
      backtracking matcher with the priorities of ECMAScript (greedy
      quantifiers, leftmost match).  Where a comment quotes a pattern of
      the script, a blank separates a star from a closing parenthesis.
    - cheerio's HTML parser, the HTTP client and [localeCompare] are
      collaborators of the script: they enter as parameters. *)

From Stdlib Require Import String Ascii Bool Arith PeanoNat NArith Lia List.
From Stdlib Require Import Permutation Sorted.
Import ListNotations.

Set Warnings "-register-all".

(** ** Code units and character classes *)

Module Chars.

Definition code (c : ascii) : nat := nat_of_ascii c.

Definition LF : ascii := ascii_of_nat 10.
Definition CR : ascii := ascii_of_nat 13.

(** LineTerminator: U+000A, U+000D (U+2028 and U+2029 lie above 255). *)
Definition isLineTerminator (c : ascii) : bool :=
  Ascii.eqb c LF || Ascii.eqb c CR.

(** The pattern character [.] *)
Definition dot (c : ascii) : bool := negb (isLineTerminator c).

(** The class [\s], which is also what [String.prototype.trim] strips:
    TAB, LF, VT, FF, CR, SPACE and NBSP. *)
Definition isSpace (c : ascii) : bool :=
  let n := code c in
  ((9 <=? n) && (n <=? 13)) || (n =? 32) || (n =? 160).

Definition just (c : ascii) : ascii -> bool := Ascii.eqb c.

Definition oneOf (cs : list ascii) (x : ascii) : bool :=
  existsb (Ascii.eqb x) cs.

(** [toUpperCase] on one code unit, as the [Canonicalize] step of a
    pattern with the [i] flag uses it: a code unit whose upper case is not
    a single code unit of the same range keeps its value. *)
Definition canonicalize (c : ascii) : ascii :=
  let n := code c in
  if ((97 <=? n) && (n <=? 122))
     || ((224 <=? n) && (n <=? 254) && negb (n =? 247))
  then ascii_of_nat (n - 32) else c.

(** A pattern character under the [i] flag. *)
Definition ci (c : ascii) (x : ascii) : bool :=
  Ascii.eqb (canonicalize x) (canonicalize c).

(** [String.prototype.toLowerCase] on one code unit. *)
Definition lower (c : ascii) : ascii :=
  let n := code c in
  if ((65 <=? n) && (n <=? 90))
     || ((192 <=? n) && (n <=? 222) && negb (n =? 215))
  then ascii_of_nat (n + 32) else c.

End Chars.

(** ** Regular expressions *)

Module RegExp.

Import Chars.

(** The fragment of the pattern language that the script uses: a sequence
    of single-character atoms, each optionally quantified by [?] or by a
    greedy [*], with the parentheses of capture group 1 as markers. *)
Inductive atom : Type :=
| One (c : ascii -> bool)
| Opt (c : ascii -> bool)
| Many (c : ascii -> bool)
| Open
| Close.

Definition pattern := list atom.

(** A literal word, with or without the [i] flag. *)
Definition word (s : string) : pattern :=
  map (fun c => One (just c)) (list_ascii_of_string s).
Definition wordi (s : string) : pattern :=
  map (fun c => One (ci c)) (list_ascii_of_string s).

(** The outcome of matching at a position: the text consumed by each atom,
    in order, and the text after the match. *)
Definition pieces := list (list ascii).
Definition outcome := option (pieces * list ascii).

Definition piece (p : list ascii) (o : outcome) : outcome :=
  match o with
  | Some (ps, rest) => Some (p :: ps, rest)
  | None => None
  end.

Definition grow (x : ascii) (o : outcome) : outcome :=
  match o with
  | Some (p :: ps, rest) => Some ((x :: p) :: ps, rest)
  | _ => None
  end.

Definition orElse (o o' : outcome) : outcome :=
  match o with
  | Some _ => o
  | None => o'
  end.

(** The backtracking matcher, anchored at the head of the input. *)
Fixpoint matchHere (r : pattern) : list ascii -> outcome :=
  match r with
  | [] => fun s => Some ([], s)
  | One c :: r' => fun s =>
      match s with
      | x :: s' => if c x then piece [x] (matchHere r' s') else None
      | [] => None
      end
  | Opt c :: r' => fun s =>
      match s with
      | x :: s' =>
          if c x
          then orElse (piece [x] (matchHere r' s')) (piece [] (matchHere r' s))
          else piece [] (matchHere r' s)
      | [] => piece [] (matchHere r' s)
      end
  | Many c :: r' =>
      fix many (s : list ascii) : outcome :=
        match s with
        | x :: s' =>
            if c x
            then orElse (grow x (many s')) (piece [] (matchHere r' s))
            else piece [] (matchHere r' s)
        | [] => piece [] (matchHere r' s)
        end
  | Open :: r' => fun s => piece [] (matchHere r' s)
  | Close :: r' => fun s => piece [] (matchHere r' s)
  end.

(** The text of capture group 1, read off the pieces. *)
Fixpoint group1 (inside : bool) (r : pattern) (ps : pieces) : list ascii :=
  match r, ps with
  | Open :: r', _ :: ps' => group1 true r' ps'
  | Close :: _, _ => []
  | _ :: r', p :: ps' => (if inside then p else []) ++ group1 inside r' ps'
  | _, _ => []
  end.

(** A successful match: the text before it, the matched text, the text of
    group 1 and the text after it. *)
Record found : Type := Found {
  before : list ascii;
  matched : list ascii;
  captured : list ascii;
  after : list ascii
}.

Definition shift (x : ascii) (f : found) : found :=
  Found (x :: before f) (matched f) (captured f) (after f).

(** The leftmost match: [RegExp.prototype.exec] from index 0. *)
Fixpoint exec (r : pattern) (s : list ascii) : option found :=
  match matchHere r s with
  | Some (ps, rest) => Some (Found [] (concat ps) (group1 false r ps) rest)
  | None =>
      match s with
      | [] => None
      | x :: s' => option_map (shift x) (exec r s')
      end
  end.

(** Replacement templates: literal text and [$1]. *)
Inductive part : Type :=
| Lit (s : string)
| Group1.

Definition template := list part.

Definition expand (t : template) (f : found) : list ascii :=
  flat_map (fun p => match p with
                     | Lit s => list_ascii_of_string s
                     | Group1 => captured f
                     end) t.

(** [s.replace(r, t)] for a pattern without the [g] flag. *)
Definition replaceFirst (r : pattern) (t : template) (s : list ascii)
  : list ascii :=
  match exec r s with
  | Some f => before f ++ expand t f ++ after f
  | None => s
  end.

(** [s.replace(r, t)] for a pattern with the [g] flag.  After a match the
    search resumes behind it; after an empty match it resumes one code
    unit further.  Every round consumes input, so [length s] rounds and one
    more are enough. *)
Fixpoint replaceRounds (n : nat) (r : pattern) (t : template)
  (s : list ascii) : list ascii :=
  match n with
  | 0 => s
  | S n' =>
      match exec r s with
      | None => s
      | Some f =>
          before f ++ expand t f ++
          match matched f, after f with
          | [], [] => []
          | [], x :: s' => x :: replaceRounds n' r t s'
          | _ :: _, s' => replaceRounds n' r t s'
          end
      end
  end.

Definition replaceAll (r : pattern) (t : template) (s : list ascii)
  : list ascii :=
  replaceRounds (S (length s)) r t s.

(** [s.split(r)] for a separator pattern: the substrings between the
    matches of [r]; a match that is empty at the start of the current
    substring is not a separator. *)
Fixpoint splitRounds (n : nat) (r : pattern) (cur s : list ascii)
  : list (list ascii) :=
  match n with
  | 0 => [cur ++ s]
  | S n' =>
      match s with
      | [] => [cur]
      | x :: s' =>
          match matchHere r s with
          | Some (ps, rest) =>
              match concat ps, cur with
              | [], [] => splitRounds n' r [x] s'
              | [], _ :: _ => cur :: splitRounds n' r [x] s'
              | _ :: _, _ => cur :: splitRounds n' r [] rest
              end
          | None => splitRounds n' r (cur ++ [x]) s'
          end
      end
  end.

Definition split (r : pattern) (s : list ascii) : list (list ascii) :=
  match s with
  | [] => match matchHere r [] with Some _ => [] | None => [[]] end
  | _ => splitRounds (S (length s)) r [] s
  end.

End RegExp.

(** ** Strings and arrays of the host language *)

Module JS.

Import Chars.

Definition str := list ascii.

Definition txt : string -> str := list_ascii_of_string.

Definition str_eqb (a b : str) : bool :=
  if list_eq_dec ascii_dec a b then true else false.

Fixpoint dropSpace (s : str) : str :=
  match s with
  | x :: s' => if isSpace x then dropSpace s' else s
  | [] => []
  end.

(** [String.prototype.trim] *)
Definition trim (s : str) : str := rev (dropSpace (rev (dropSpace s))).

(** [String.prototype.toLowerCase] *)
Definition toLowerCase (s : str) : str := map lower s.

(** [Array.prototype.join] on an array of strings *)
Fixpoint join (sep : str) (l : list str) : str :=
  match l with
  | [] => []
  | [a] => a
  | a :: l' => a ++ sep ++ join sep l'
  end.

(** The string a value becomes under [%s] or in a concatenation:
    [undefined] prints as its name. *)
Definition printed (v : option str) : str :=
  match v with
  | Some s => s
  | None => txt "undefined"
  end.

End JS.

(** ** The document tree that cheerio hands to the script *)

Module Dom.

Import JS.

Inductive node : Type :=
| Text (data : str)
| Element (name : str) (classes : list str) (children : list node).

(** [$(n).text()] *)
Fixpoint text (n : node) : str :=
  match n with
  | Text d => d
  | Element _ _ ks =>
      (fix all (l : list node) : str :=
         match l with
         | [] => []
         | k :: l' => text k ++ all l'
         end) ks
  end.

(** [.text()] of a selection: the texts of its members, concatenated. *)
Definition texts (l : list node) : str := concat (map text l).

(** A selector of the form [name.class]. *)
Definition selects (name cls : string) (n : node) : bool :=
  match n with
  | Text _ => false
  | Element nm cs _ =>
      str_eqb nm (txt name) && existsb (str_eqb (txt cls)) cs
  end.

(** A selector that is a bare element name. *)
Definition named (name : string) (n : node) : bool :=
  match n with
  | Text _ => false
  | Element nm _ _ => str_eqb nm (txt name)
  end.

(** [$(n).find(selector)]: the descendants of [n] that the selector
    accepts, in document order. *)
Fixpoint find (sel : node -> bool) (n : node) : list node :=
  match n with
  | Text _ => []
  | Element _ _ ks =>
      (fix below (l : list node) : list node :=
         match l with
         | [] => []
         | k :: l' => (if sel k then [k] else []) ++ find sel k ++ below l'
         end) ks
  end.

End Dom.

(** ** The changeset record *)

Module Changeset.

Import JS.

Record changeset : Type := mkChangeset {
  revision : str;
  author : str;
  related : list str;
  component : list str;
  description : str;
  props : list str
}.

End Changeset.

(** ** buildChangesets (src/parse_logs.js) *)

Module ParseLogs.

Import Chars RegExp JS Dom Changeset.

(** The patterns [/@(.* )/] and [/#(.* )/] *)
Definition revisionRegex : pattern :=
  [One (just "@"%char); Open; Many dot; Close].
Definition ticketRegex : pattern :=
  [One (just "#"%char); Open; Many dot; Close].

(** The pattern [/[\n|, ]Fixes(.* )/i] *)
Definition fixesRegex : pattern :=
  One (oneOf [LF; "|"%char; ","%char; " "%char])
  :: wordi "Fixes" ++ [Open; Many dot; Close].

(** The pattern [/\nSee(.* )/i] *)
Definition seeRegex : pattern :=
  One (just LF) :: wordi "See" ++ [Open; Many dot; Close].

(** The pattern [/\nProps(.* )./i] *)
Definition propsRegex : pattern :=
  One (just LF) :: wordi "Props" ++ [Open; Many dot; Close; One dot].

(** The pattern [/\s*,\s*/] *)
Definition commaRegex : pattern :=
  [Many isSpace; One (just ","%char); Many isSpace].

(** The pattern [/\n\n\n+/g] *)
Definition blankLinesRegex : pattern :=
  [One (just LF); One (just LF); One (just LF); Many (just LF)].

Definition stripFixes (d : str) : str := replaceFirst fixesRegex [] d.
Definition stripSee (d : str) : str := replaceFirst seeRegex [] d.

(** [props = description.match(propsRegex)] and the branch on it *)
Definition extractProps (d : str) : list str :=
  match exec propsRegex d with
  | Some f => split commaRegex (trim (captured f))
  | None => []
  end.

Definition removeProps (d : str) : str := replaceFirst propsRegex [] d.

Definition collapseBlankLines (d : str) : str :=
  replaceAll blankLinesRegex [Lit (String LF (String LF ""))] d.

Section Rows.

(** cheerio parses the string given to [replaceWith] as a fragment. *)
Variable parseFragment : str -> list node.

(** [$(description).find('tt').each(...)]: every [tt] element below [n]
    gives way to its text between backticks. *)
Fixpoint reAddCode (n : node) : node :=
  match n with
  | Text d => Text d
  | Element nm cs ks =>
      Element nm cs
        ((fix each (l : list node) : list node :=
            match l with
            | [] => []
            | k :: l' =>
                (if named "tt" k
                 then parseFragment (txt "`" ++ text k ++ txt "`")
                 else [reAddCode k]) ++ each l'
            end) ks)
  end.

(** The body of the loop: one changeset from a pair of rows.  The members
    of the selection [description] are taken one by one, as the cells of
    a table, which do not contain one another. *)
Definition changesetOf (meta log : node) : changeset :=
  let description := map reAddCode (find (selects "td" "log") log) in
  let t := stripSee (stripFixes (texts description)) in
  {| revision :=
       replaceFirst revisionRegex [Lit "["; Group1; Lit "]"]
         (trim (texts (find (selects "td" "rev") meta)));
     author := trim (texts (find (selects "td" "author") meta));
     related :=
       map (fun a => replaceFirst ticketRegex [Group1] (trim (text a)))
           (flat_map (find (selects "a" "ticket")) description);
     component := [];
     description := trim (collapseBlankLines (removeProps t));
     props := extractProps t |}.

(** The loop over [logEntries], two rows at a time; a last row without a
    partner ends it. *)
Fixpoint buildChangesets (logEntries : list node) : list changeset :=
  match logEntries with
  | meta :: log :: rest => changesetOf meta log :: buildChangesets rest
  | _ => []
  end.

End Rows.

End ParseLogs.

(** ** The revision of the script that cleans the list of names
    (src/unnamed/part_001) *)

Module CleanProps.

Import Chars RegExp JS Changeset.

(** The pattern [/(?:Props:?\s+)(.* )\.?/mi] *)
Definition propsRegex : pattern :=
  wordi "Props"
  ++ [Opt (just ":"%char); One isSpace; Many isSpace;
      Open; Many dot; Close; Opt (just "."%char)].

(** The patterns [/(for.*(,))/ig], [/(for.*(\.))/], [/\./gmi] and [/\s/g] *)
Definition forCommaRegex : pattern :=
  Open :: wordi "for" ++ [Many dot; One (just ","%char); Close].
Definition forPeriodRegex : pattern :=
  Open :: word "for" ++ [Many dot; One (just "."%char); Close].
Definition periodRegex : pattern := [One (just "."%char)].
Definition spaceRegex : pattern := [One isSpace].

(** [_.without(array, '')] *)
Definition withoutEmpty (l : list str) : list str :=
  filter (fun s => negb (str_eqb s [])) l.

Definition cleanProps (props : str) : list str :=
  withoutEmpty
    (split ParseLogs.commaRegex
       (replaceAll spaceRegex [Lit ","]
          (trim
             (replaceAll periodRegex []
                (replaceFirst forPeriodRegex []
                   (replaceAll forCommaRegex [] props)))))).

Definition extractProps (d : str) : list str :=
  match exec propsRegex d with
  | Some f => cleanProps (captured f)
  | None => []
  end.

Definition removeProps (d : str) : str := replaceFirst propsRegex [] d.

End CleanProps.

(** ** gatherComponents (src/parse_logs.js) *)

Module Gather.

Import Chars JS Changeset.

(** What the callback of [request] receives: an error, or a response with
    its status code and body. *)
Inductive response : Type :=
| Failed
| Answer (statusCode : nat) (body : str).

Definition ticketPath : str := txt "https://core.trac.wordpress.org/ticket/".

(** The event loop between the moment [async.each] has issued every
    request and the moment the last callback has run: the changesets, the
    requests in flight (index of the changeset, ticket), the count of
    finished requests of every changeset, the count of finished changesets
    and whether [gatherCallback] was called. *)
Record state : Type := mkState {
  changesets : list changeset;
  pending : list (nat * str);
  completed : list nat;
  finished : nat;
  gathered : bool
}.

Fixpoint update {A : Type} (i : nat) (f : A -> A) (l : list A) : list A :=
  match l, i with
  | [], _ => []
  | x :: l', 0 => f x :: l'
  | x :: l', S i' => x :: update i' f l'
  end.

Fixpoint remove_nth {A : Type} (k : nat) (l : list A) : list A :=
  match l, k with
  | [], _ => []
  | _ :: l', 0 => l'
  | x :: l', S k' => x :: remove_nth k' l'
  end.

(** [changeset.component.push(component)] *)
Definition pushComponent (c : str) (cs : changeset) : changeset :=
  mkChangeset (revision cs) (author cs) (related cs)
    (component cs ++ [c]) (description cs) (props cs).

Definition relatedCount (st : list changeset) (i : nat) : nat :=
  match nth_error st i with
  | Some cs => length (related cs)
  | None => 0
  end.

(** [!err && response.statusCode === 200] *)
Definition accepted (r : response) : option str :=
  match r with
  | Answer statusCode body => if statusCode =? 200 then Some body else None
  | Failed => None
  end.

Section Network.

(** The answer of the ticket server for a URL. *)
Variable request : str -> response.

(** The text of the cell that follows [#h_component] in a ticket page. *)
Variable componentCell : str -> str.

(** The requests of one changeset, as the inner [async.each] issues them. *)
Definition requestsOf (i : nat) (cs : changeset) : list (nat * str) :=
  map (fun ticket => (i, ticket)) (related cs).

Fixpoint requestsFrom (i : nat) (l : list changeset) : list (nat * str) :=
  match l with
  | [] => []
  | cs :: l' => requestsOf i cs ++ requestsFrom (S i) l'
  end.

(** An inner [async.each] over an empty [related] calls back at once. *)
Definition idle (cs : changeset) : bool :=
  match related cs with
  | [] => true
  | _ => false
  end.

Definition start (l : list changeset) : state :=
  let done := length (filter idle l) in
  {| changesets := l;
     pending := requestsFrom 0 l;
     completed := map (fun _ => 0) l;
     finished := done;
     gathered := length l <=? done |}.

(** The callback of [request] for one ticket of changeset [i], followed
    by [relatedCallback()]. *)
Definition receive (i : nat) (ticket : str) (st : state) : state :=
  let l :=
    match accepted (request (ticketPath ++ ticket)) with
    | Some body =>
        update i (pushComponent (trim (componentCell body))) (changesets st)
    | None => changesets st
    end in
  let counts := update i S (completed st) in
  let last := relatedCount l i <=? nth i counts 0 in
  let done := if last then S (finished st) else finished st in
  {| changesets := l;
     pending := pending st;
     completed := counts;
     finished := done;
     gathered := gathered st || (last && (length l <=? done)) |}.

(** The answer to the [k]-th request in flight arrives. *)
Definition deliver (k : nat) (st : state) : option state :=
  match nth_error (pending st) k with
  | Some (i, ticket) =>
      let st' := receive i ticket st in
      Some {| changesets := changesets st';
              pending := remove_nth k (pending st);
              completed := completed st';
              finished := finished st';
              gathered := gathered st' |}
  | None => None
  end.

(** Answers arrive in any order. *)
Inductive step : state -> state -> Prop :=
| Arrive k st st' : deliver k st = Some st' -> step st st'.

Inductive steps : state -> state -> Prop :=
| Stay st : steps st st
| Move st st' st'' : step st st' -> steps st' st'' -> steps st st''.

(** One particular order, for running the model: the schedule names, at
    each turn, which request in flight is answered. *)
Fixpoint run (schedule : list nat) (st : state) : option state :=
  match schedule with
  | [] => Some st
  | k :: schedule' =>
      match deliver k st with
      | Some st' => run schedule' st'
      | None => None
      end
  end.

(** The stage from its start to the state that the schedule leads to. *)
Definition gatherComponents (schedule : list nat) (l : list changeset)
  : option state :=
  run schedule (start l).

End Network.

End Gather.

(** ** buildOutput (src/parse_logs.js) *)

Module Output.

Import Chars JS Changeset.

(** *** The object [categories] *)

(** The two kinds of value that the variable [category] holds. *)
Inductive value : Type :=
| Array (l : list str)
| Str (s : str).

(** [!v] is [negb (truthy v)]: an object, an empty array included, is
    truthy; a string is truthy unless it is empty. *)
Definition truthy (v : value) : bool :=
  match v with
  | Array _ => true
  | Str [] => false
  | Str _ => true
  end.

(** The property key that a value names: an array is converted by
    [Array.prototype.toString], which joins with a comma. *)
Definition propertyKey (v : value) : str :=
  match v with
  | Array l => join (txt ",") l
  | Str s => s
  end.

(** The property names that [{}] inherits from [Object.prototype]. *)
Definition inheritedNames : list str :=
  map txt
    ["constructor"; "__defineGetter__"; "__defineSetter__"; "hasOwnProperty";
     "__lookupGetter__"; "__lookupSetter__"; "isPrototypeOf";
     "propertyIsEnumerable"; "toString"; "valueOf"; "__proto__";
     "toLocaleString"]%string.

Definition inherited (k : str) : bool := existsb (str_eqb k) inheritedNames.

(** The own properties of [categories], in the order of their creation. *)
Definition object := list (str * list changeset).

Fixpoint own (o : object) (k : str) : option (list changeset) :=
  match o with
  | [] => None
  | (k', v) :: o' => if str_eqb k k' then Some v else own o' k
  end.

(** [!categories[k]] *)
Definition missing (o : object) (k : str) : bool :=
  match own o k with
  | Some _ => false
  | None => negb (inherited k)
  end.

Fixpoint pushTo (k : str) (item : changeset) (o : object) : object :=
  match o with
  | [] => []
  | (k', v) :: o' =>
      if str_eqb k k' then (k', v ++ [item]) :: o'
      else (k', v) :: pushTo k item o'
  end.

(** The function that [async.map] applies to every changeset.  [None] is
    the [TypeError] of calling [push] on something that is not an array. *)
Definition categorize (o : object) (item : changeset) : option object :=
  let category := Array (component item) in
  let category := if negb (truthy category) then Str (txt "Misc")
                  else category in
  let o := if missing o (propertyKey category)
           then o ++ [(propertyKey category, [])] else o in
  let k := propertyKey (Array (component item)) in
  match own o k with
  | Some _ => Some (pushTo k item o)
  | None => None
  end.

Fixpoint categorizeAll (o : object) (l : list changeset) : option object :=
  match l with
  | [] => Some o
  | item :: l' =>
      match categorize o item with
      | Some o' => categorizeAll o' l'
      | None => None
      end
  end.

(** *** The order in which [_.each] visits the properties *)

Definition digit (c : ascii) : bool := (48 <=? code c) && (code c <=? 57).

Definition numeral (k : str) : N :=
  fold_left (fun n c => (10 * n + N.of_nat (code c - 48))%N) k 0%N.

(** An array index: the canonical decimal form of an integer below
    2^32 - 1. *)
Definition arrayIndex (k : str) : bool :=
  match k with
  | [] => false
  | c :: k' =>
      forallb digit k
      && (negb (Ascii.eqb c "0"%char) || match k' with [] => true | _ => false end)
      && (numeral k <=? 4294967294)%N
  end.

Fixpoint insertIndex (p : str * list changeset) (o : object) : object :=
  match o with
  | [] => [p]
  | q :: o' =>
      if (numeral (fst p) <=? numeral (fst q))%N then p :: o
      else q :: insertIndex p o'
  end.

(** Own properties are enumerated with the array indices first, in
    ascending order, and the other names after them, in the order of
    their creation. *)
Definition enumerate (o : object) : object :=
  fold_right insertIndex [] (filter (fun p => arrayIndex (fst p)) o)
  ++ filter (fun p => negb (arrayIndex (fst p))) o.

(** *** The loops over the categories *)

(** One list entry. *)
Definition entry (c : changeset) : str :=
  txt "* " ++ trim (description c) ++ txt " " ++ revision c ++ txt " "
  ++ txt "#" ++ join (txt ", #") (related c) ++ [LF].

(** The body of the inner loop, on the variables [changesetOutput] and
    [props]: the entry of the changeset is appended to the first, its
    committer and, when there are any, its props to the second. *)
Definition eachChangeset (acc : str * list str) (changeset : changeset)
  : str * list str :=
  let (changesetOutput, props) := acc in
  let changesetOutput := changesetOutput ++ entry changeset in
  let props := props ++ [author changeset] in
  match Changeset.props changeset with
  | [] => (changesetOutput, props)
  | _ :: _ => (changesetOutput, props ++ Changeset.props changeset)
  end.

(** The body of the outer loop: the heading, named after the component
    of the first changeset of the category, then the inner loop.  [None]
    is the [TypeError] of reading a property of a first changeset that is
    not there. *)
Definition eachCategory (acc : option (str * list str))
  (category : list changeset) : option (str * list str) :=
  match acc, category with
  | Some (changesetOutput, props), first :: _ =>
      Some (fold_left eachChangeset category
              (changesetOutput ++ txt "### "
               ++ propertyKey (Array (component first)) ++ [LF],
               props))
  | _, _ => None
  end.

(** [_.uniq(array, true)]: a value equal to the one before it is dropped. *)
Fixpoint uniqAfter (seen : option str) (l : list str) : list str :=
  match l with
  | [] => []
  | v :: l' =>
      match seen with
      | Some w => if str_eqb w v then uniqAfter (Some v) l'
                  else v :: uniqAfter (Some v) l'
      | None => v :: uniqAfter (Some v) l'
      end
  end.

Definition uniq (l : list str) : list str := uniqAfter None l.

(** [_.last(array)] and [_.without(array, value)] *)
Definition last (l : list str) : option str := List.last (map Some l) None.

Definition without (l : list str) (v : option str) : list str :=
  match v with
  | Some w => filter (fun x => negb (str_eqb x w)) l
  | None => l
  end.

(** The credit line: [util.format] with the two [%s] filled in. *)
Definition thanks (props : list str) : str :=
  txt "Thanks to @" ++ join (txt ", @") (without props (last props))
  ++ txt ", and @" ++ printed (last props)
  ++ txt " for their contributions!".

Record output : Type := mkOutput {
  changesetOutput : str;
  propsOutput : str
}.

Section Sorting.

(** [a.localeCompare(b)], by its sign. *)
Variable localeCompare : str -> str -> comparison.

Definition compareProps (a b : str) : comparison :=
  localeCompare (toLowerCase a) (toLowerCase b).

(** [Array.prototype.sort] is stable. *)
Fixpoint insertProp (a : str) (l : list str) : list str :=
  match l with
  | [] => [a]
  | b :: l' =>
      match compareProps a b with
      | Gt => b :: insertProp a l'
      | _ => a :: l
      end
  end.

Definition sort (l : list str) : list str := fold_right insertProp [] l.

(** The traversal, the loops, and [props] sorted and deduplicated: the
    values of [changesetOutput] and [props] before the credit line is
    formatted.  [None] when a [TypeError] ends the script. *)
Definition report (changesets : list changeset)
  : option (str * list str) :=
  match categorizeAll [] changesets with
  | Some categories =>
      match fold_left eachCategory (map snd (enumerate categories))
              (Some ([], [])) with
      | Some (changesetOutput, props) =>
          Some (changesetOutput, uniq (sort props))
      | None => None
      end
  | None => None
  end.

(** The deduplicated list of contributors. *)
Definition creditList (changesets : list changeset) : option (list str) :=
  option_map snd (report changesets).

Definition buildOutput (changesets : list changeset) : option output :=
  match report changesets with
  | Some (changesetOutput, props) =>
      Some (mkOutput changesetOutput (thanks props))
  | None => None
  end.

(** What the two calls of [console.log] print. *)
Definition printout (o : output) : str :=
  txt "## Code Changes" ++ [LF; LF] ++ changesetOutput o ++ [LF]
  ++ txt "## Props" ++ [LF; LF] ++ propsOutput o ++ [LF].

End Sorting.

(** Code-unit order stands in for [localeCompare] where a concrete run is
    evaluated: on handles made of unaccented lower-case letters the two
    agree. *)
Definition codeUnitCompare (a b : str) : comparison :=
  String.compare (string_of_list_ascii a) (string_of_list_ascii b).

End Output.

(** ** Notions used to state the properties *)

Module Notions.

Import Chars RegExp JS Changeset.

(** What an atom may consume. *)
Definition fits (a : atom) (p : list ascii) : Prop :=
  match a with
  | One c => exists x, p = [x] /\ c x = true
  | Opt c => p = [] \/ exists x, p = [x] /\ c x = true
  | Many c => forallb c p = true
  | Open => p = []
  | Close => p = []
  end.

(** The longest prefix made of one class, and what follows it. *)
Fixpoint span (c : ascii -> bool) (s : str) : str :=
  match s with
  | x :: s' => if c x then x :: span c s' else []
  | [] => []
  end.

Fixpoint afterSpan (c : ascii -> bool) (s : str) : str :=
  match s with
  | x :: s' => if c x then afterSpan c s' else s
  | [] => []
  end.

(** A text without three newlines in a row. *)
Definition tripleFree (s : str) : Prop :=
  forall pre post, s <> pre ++ [LF; LF; LF] ++ post.

(** A text that neither starts nor ends with white space. *)
Definition trimmed (s : str) : Prop :=
  (forall x t, s = x :: t -> isSpace x = false)
  /\ (forall t x, s = t ++ [x] -> isSpace x = false).

(** Blank lines capped directly: a newline that follows two newlines of
    the input is dropped; [k] counts the newlines just seen. *)
Fixpoint capNewlines (k : nat) (s : str) : str :=
  match s with
  | [] => []
  | x :: s' =>
      if Ascii.eqb x LF
      then if k <? 2 then x :: capNewlines (S k) s' else capNewlines k s'
      else x :: capNewlines 0 s'
  end.

(** [needle] is a prefix of, or occurs in, [hay]. *)
Fixpoint startsWith (needle hay : str) : bool :=
  match needle, hay with
  | [], _ => true
  | a :: needle', b :: hay' => Ascii.eqb a b && startsWith needle' hay'
  | _ :: _, [] => false
  end.

Fixpoint contains (needle hay : str) : bool :=
  startsWith needle hay
  || match hay with
     | [] => false
     | _ :: hay' => contains needle hay'
     end.

(** Every occurrence of the word Props, in any case, stands elsewhere
    than right after a newline. *)
Definition noPropsAfterNewline (d : str) : Prop :=
  forall pre w post,
    d = pre ++ w ++ post -> toLowerCase w = txt "props" ->
    forall pre', pre <> pre' ++ [LF].

(** [d'] is [d] without its first clause of pattern [r]: either no
    position of [d] matches and nothing changes, or the clause is a match
    at its position, no earlier position matches, and it is cut out. *)
Definition firstCut (r : pattern) (d d' : str) : Prop :=
  (d' = d /\ forall pre post, d = pre ++ post -> matchHere r post = None)
  \/ (exists pre clause post ps,
        d = pre ++ clause ++ post /\ d' = pre ++ post
        /\ matchHere r (clause ++ post) = Some (ps, post)
        /\ clause = concat ps
        /\ forall p q, pre = p ++ q -> q <> [] ->
                       matchHere r (q ++ clause ++ post) = None).

(** The node that stands for a row that is not there. *)
Definition nothing : Dom.node := Dom.Text [].

(** cheerio's fragment parser on a string without markup. *)
Definition plainText (s : str) : list Dom.node := [Dom.Text s].

Definition cell (cls : string) (t : str) : Dom.node :=
  Dom.Element (txt "td") [txt cls] [Dom.Text t].

Definition row (cells : list Dom.node) : Dom.node :=
  Dom.Element (txt "tr") [txt "verbose"] cells.

(** A log of one changeset whose message refers to two tickets on two
    lines. *)
Definition twoSeeRows : list Dom.node :=
  [row [cell "rev" (txt "@1234"); cell "author" (txt "alice")];
   row [cell "log" (txt "a" ++ LF :: txt "See #1" ++ LF :: txt "See #2")]].

(** The message of the example about props. *)
Definition thingMessage : str :=
  txt "Fixed the thing." ++ LF :: txt "Props jane, john for testing, bob.".

(** The text of the log cell of a row, code markers re-added. *)
Definition logText (parseFragment : str -> list Dom.node) (log : Dom.node)
  : str :=
  Dom.texts (map (ParseLogs.reAddCode parseFragment)
               (Dom.find (Dom.selects "td" "log") log)).

(** The keys of a list in the order of their first occurrence. *)
Fixpoint firsts (l : list str) : list str :=
  match l with
  | [] => []
  | k :: l' => k :: filter (fun k' => negb (str_eqb k' k)) (firsts l')
  end.

(** The bucket key of a changeset: its components, joined by commas. *)
Definition keyOf (c : changeset) : str := join (txt ",") (component c).

(** The changesets of one key, in the order of the traversal. *)
Definition bucket (k : str) (l : list changeset) : list changeset :=
  filter (fun c => str_eqb (keyOf c) k) l.

(** The report section by section: the heading of a category and the
    entries of its changesets. *)
Definition heading (category : list changeset) : option str :=
  match category with
  | c :: _ =>
      Some (txt "### " ++ Output.propertyKey (Output.Array (component c))
            ++ [LF])
  | [] => None
  end.

Definition section (category : list changeset) : option str :=
  match heading category with
  | Some h => Some (h ++ concat (map Output.entry category))
  | None => None
  end.

Fixpoint sections (o : Output.object) : option str :=
  match o with
  | [] => Some []
  | (_, category) :: o' =>
      match section category, sections o' with
      | Some s, Some rest => Some (s ++ rest)
      | _, _ => None
      end
  end.

(** The committer of a changeset, followed by its props. *)
Definition credit (c : changeset) : list str := author c :: props c.

Definition collect (o : Output.object) : list str :=
  flat_map (fun p => flat_map credit (snd p)) o.

(** The contributors of the categories, sorted and deduplicated. *)
Definition contributors (localeCompare : str -> str -> comparison)
  (o : Output.object) : list str :=
  Output.uniq (Output.sort localeCompare (collect o)).

(** The categories as the traversal leaves them: one bucket for every
    key, in the order in which the keys first occur. *)
Definition bucketsOf (l : list changeset) : Output.object :=
  map (fun k => (k, bucket k l)) (firsts (map keyOf l)).

(** Changesets for the examples. *)
Definition sample (components : list string) (who : string)
  (credited : list string) (tickets : list string) : changeset :=
  mkChangeset (txt "[1234]") (txt who) (map txt tickets)
    (map txt components) (txt "Fix it.") (map txt credited).

Definition editorAndMedia : changeset :=
  sample ["Editor"; "Media"]%string "alice" [] ["7"]%string.
Definition editorOnly : changeset :=
  sample ["Editor"]%string "alice" [] ["7"]%string.
Definition mediaOnly : changeset :=
  sample ["Media"]%string "bob" [] ["8"]%string.
Definition aliceAlone : changeset :=
  sample ["Editor"]%string "Alice" [] ["7"]%string.
Definition bobAliceBob : changeset :=
  sample ["Editor"]%string "bob" ["alice"; "Bob"]%string ["7"]%string.
Definition noTicket : changeset :=
  sample ["Editor"]%string "alice" [] [].

(** A ticket server that knows ticket 8 only, and a ticket page that
    is nothing but the component cell. *)
Definition onlyTicket8 (url : str) : Gather.response :=
  if str_eqb url (Gather.ticketPath ++ txt "8")
  then Gather.Answer 200 (txt " Media ")
  else Gather.Failed.

Definition wholeBody (body : str) : str := body.

(** Two changesets as extraction leaves them, one ticket each. *)
Definition forTicket7 : changeset :=
  mkChangeset (txt "[1234]") (txt "alice") [txt "7"] [] (txt "Fix it.") [].
Definition forTicket8 : changeset :=
  mkChangeset (txt "[1235]") (txt "bob") [txt "8"] [] (txt "Fix that.") [].

(** A changeset none of whose tickets is answered with a page. *)
Definition deaf (request : str -> Gather.response) (c : changeset) : Prop :=
  forall ticket, In ticket (related c) ->
    Gather.accepted (request (Gather.ticketPath ++ ticket)) = None.

(** The number of requests of changeset [i] that are in flight. *)
Definition pendingOf (i : nat) (p : list (nat * str)) : nat :=
  length (filter (fun r => fst r =? i) p).

(** The number of changesets all of whose requests were answered. *)
Fixpoint doneCount (l : list changeset) (counts : list nat) : nat :=
  match l, counts with
  | c :: l', n :: counts' =>
      (if length (related c) <=? n then 1 else 0) + doneCount l' counts'
  | _, _ => 0
  end.

(** The counters of the event loop agree with the requests in flight. *)
Record consistent (st : Gather.state) : Prop := {
  counted : length (Gather.completed st) = length (Gather.changesets st);
  bounded : Forall (fun r => fst r < length (Gather.changesets st))
              (Gather.pending st);
  balanced : forall i, i < length (Gather.changesets st) ->
               nth i (Gather.completed st) 0
               + pendingOf i (Gather.pending st)
               = Gather.relatedCount (Gather.changesets st) i;
  tallied : Gather.finished st
            = doneCount (Gather.changesets st) (Gather.completed st);
  flagged : Gather.gathered st
            = (length (Gather.changesets st) <=? Gather.finished st)
}.

(** A bucket that is not empty and holds changesets of one key. *)
Definition wellFilled (p : str * list changeset) : Prop :=
  snd p <> [] /\ forall c, In c (snd p) -> keyOf c = fst p.

(** One list entry, in the words of the report format. *)
Definition listEntry (c : changeset) : str :=
  txt "* " ++ trim (description c) ++ txt " " ++ revision c
  ++ txt " #" ++ join (txt ", #") (related c) ++ [LF].

(** A section: the heading with the name of the bucket, then the entries
    of its changesets. *)
Definition sectionText (name : str) (l : list changeset) : str :=
  txt "### " ++ name ++ [LF] ++ concat (map listEntry l).

(** The order of the credit list: not after, case ignored. *)
Definition notAfter (localeCompare : str -> str -> comparison) (a b : str)
  : Prop :=
  localeCompare (toLowerCase a) (toLowerCase b) <> Gt.

(** No two neighbours of a list are the same string. *)
Definition neighboursDiffer (l : list str) : Prop :=
  forall pre a b post, l = pre ++ a :: b :: post -> a <> b.

End Notions.

(** ** Notions for the further properties *)

Module Further.

Import Chars RegExp JS Dom Changeset Notions.

(** Every code unit of the embedding, and a test on all of them. *)
Definition allCodeUnits : list ascii := map ascii_of_nat (seq 0 256).

Definition everywhere (P : ascii -> bool) : bool := forallb P allCodeUnits.

(** A letter of the basic alphabet. *)
Definition letter (c : ascii) : bool :=
  let n := code c in
  ((65 <=? n) && (n <=? 90)) || ((97 <=? n) && (n <=? 122)).

(** The text starts with the word, in any case. *)
Fixpoint startsLower (W s : str) : bool :=
  match W, s with
  | [], _ => true
  | c :: W', x :: s' => Ascii.eqb (lower x) (lower c) && startsLower W' s'
  | _ :: _, [] => false
  end.

(** A clause starts at the head of the text: a separator, then the
    word. *)
Definition clauseAt (seps : ascii -> bool) (W s : str) : bool :=
  match s with
  | c :: t => seps c && startsLower W t
  | [] => false
  end.

(** A clause starts somewhere in the text. *)
Fixpoint occursAfter (seps : ascii -> bool) (W s : str) : bool :=
  clauseAt seps W s
  || match s with
     | [] => false
     | _ :: t => occursAfter seps W t
     end.

(** The word occurs somewhere in the text, in any case. *)
Fixpoint mentions (W s : str) : bool :=
  startsLower W s
  || match s with
     | [] => false
     | _ :: t => mentions W t
     end.

(** The atoms of a word under the [i] flag, and an outcome with pieces
    put before its own. *)
Definition ofWord (W : str) : pattern := map (fun c => One (ci c)) W.

Definition prepend (ps : pieces) (o : outcome) : outcome :=
  match o with
  | Some (qs, rest) => Some (ps ++ qs, rest)
  | None => None
  end.

(** The pattern of a marker followed by group 1 up to the end of the
    line, as in [/@(.* )/]. *)
Definition marker (c : ascii) : pattern :=
  [One (just c); Open; Many dot; Close].

(** The text without the first occurrence of a code unit. *)
Fixpoint removeFirst (c : ascii) (s : str) : str :=
  match s with
  | [] => []
  | x :: s' => if Ascii.eqb c x then s' else x :: removeFirst c s'
  end.

(** A text without line terminator, and a text that is empty or starts
    with one. *)
Definition oneLine (s : str) : bool := forallb dot s.

Definition lineEnds (post : str) : bool :=
  match post with
  | [] => true
  | x :: _ => isLineTerminator x
  end.

(** The separators that the Fixes pattern accepts before the word. *)
Definition fixesSeparator : ascii -> bool :=
  oneOf [LF; "|"%char; ","%char; " "%char].

Definition notComma (y : ascii) : bool := negb (Ascii.eqb y ","%char).

(** White space that stays on the line. *)
Definition blank (c : ascii) : bool := isSpace c && dot c.

(** A token between commas: without a comma, and with no white space at
    either end. *)
Definition isToken (t : str) : bool :=
  forallb notComma t
  && match t with
     | [] => true
     | x :: _ => negb (isSpace x) && negb (isSpace (List.last t x))
     end.

(** A name of a Props line: a token that is not empty and stays on one
    line. *)
Definition isName (t : str) : bool :=
  isToken t && oneLine t && negb (str_eqb t []).

(** A handle as [cleanProps] returns it: not empty, without white space,
    comma or period. *)
Definition handleUnit (y : ascii) : bool :=
  negb (isSpace y) && notComma y && negb (Ascii.eqb y "."%char).

Definition isHandle (t : str) : bool :=
  forallb handleUnit t && negb (str_eqb t []).

(** A token that is not empty, as a proposition. *)
Definition tokenish (t : str) : Prop :=
  forallb notComma t = true
  /\ exists x t', t = x :: t' /\ isSpace x = false
                  /\ isSpace (List.last t x) = false.

(** The text after the first name: every further name behind the
    separator. *)
Definition behind (sep : str) (l : list str) : str :=
  concat (map (fun u => sep ++ u) l).

Definition nonspace (y : ascii) : bool := negb (isSpace y).
Definition notPeriod (y : ascii) : bool := negb (just "."%char y).

(** White space becomes a comma. *)
Definition commaFor (x : ascii) : str :=
  if isSpace x then [","%char] else [x].

(** The text of an element between backticks. *)
Definition tick (k : node) : str := txt "`" ++ text k ++ txt "`".

(** A text cut at every comma; [cur] is the piece under way. *)
Fixpoint atCommas (cur s : str) : list str :=
  match s with
  | [] => [cur]
  | x :: s' =>
      if just ","%char x then cur :: atCommas [] s'
      else atCommas (cur ++ [x]) s'
  end.

(** The text of a node with the text of every outermost [tt] element
    between backticks. *)
Fixpoint ticked (n : node) : str :=
  match n with
  | Text d => d
  | Element _ _ ks =>
      (fix all (l : list node) : str :=
         match l with
         | [] => []
         | k :: l' =>
             (if named "tt" k then tick k else ticked k) ++ all l'
         end) ks
  end.

(** Two changesets that differ in their components at most. *)
Definition sameButComponent (c c' : changeset) : Prop :=
  revision c = revision c' /\ author c = author c'
  /\ related c = related c' /\ description c = description c'
  /\ props c = props c'.

(** The tickets of changeset [i] whose requests are in flight. *)
Definition pendingTickets (i : nat) (p : list (nat * str)) : list str :=
  map snd (filter (fun r => fst r =? i) p).

Section Gained.

Variable request : str -> Gather.response.
Variable componentCell : str -> str.

(** The components that the tickets give: one for every ticket whose
    page is fetched, none for the others. *)
Definition gained (tickets : list str) : list str :=
  flat_map (fun ticket =>
              match Gather.accepted
                      (request (Gather.ticketPath ++ ticket)) with
              | Some body => [trim (componentCell body)]
              | None => []
              end) tickets.

(** What holds of the state all along a run from the changesets [l]:
    every changeset keeps its other fields, its components only grow, and
    together with the components still to come from the requests in
    flight they are the ones it had plus one for every ticket page that
    is fetched. *)
Definition tracks (l : list changeset) (st : Gather.state) : Prop :=
  length (Gather.changesets st) = length l
  /\ forall i c c',
       nth_error l i = Some c ->
       nth_error (Gather.changesets st) i = Some c' ->
       sameButComponent c c'
       /\ (exists more, component c' = component c ++ more)
       /\ Permutation
            (component c'
             ++ gained (pendingTickets i (Gather.pending st)))
            (component c ++ gained (related c)).

End Gained.

(** A changeset that the traversal of [buildOutput] cannot file. *)
Definition unfiled (c : changeset) : bool := Output.inherited (keyOf c).

End Further.

(** * Properties *)

(** ** The matcher *)

Module RegExpFacts.

Import Chars RegExp JS Notions.

Lemma piece_inv p o ps rest :
  piece p o = Some (ps, rest) ->
  exists ps', ps = p :: ps' /\ o = Some (ps', rest).
Proof.
  destruct o as [[ps0 rest0]|]; simpl; intros H; inversion H; subst.
  eexists; split; reflexivity.
Qed.

Lemma grow_inv x o ps rest :
  grow x o = Some (ps, rest) ->
  exists p ps', ps = (x :: p) :: ps' /\ o = Some (p :: ps', rest).
Proof.
  destruct o as [[[|p0 ps0] rest0]|]; simpl; intros H; inversion H; subst.
  do 2 eexists; split; reflexivity.
Qed.

Lemma orElse_inv o o' v :
  orElse o o' = Some v -> o = Some v \/ (o = None /\ o' = Some v).
Proof. destruct o; simpl; intros H; [left | right]; auto. Qed.

(** A match consumes a prefix of the input, atom by atom. *)
Lemma matchHere_sound r : forall s ps rest,
  matchHere r s = Some (ps, rest) ->
  Forall2 fits r ps /\ s = concat ps ++ rest.
Proof.
  induction r as [|a r IH]; intros s ps rest H.
  - simpl in H. inversion H; subst. split; [constructor | reflexivity].
  - destruct a as [c|c|c| |].
    + simpl in H. destruct s as [|x s']; [discriminate|].
      destruct (c x) eqn:Hc; [|discriminate].
      apply piece_inv in H. destruct H as (ps' & -> & H).
      apply IH in H. destruct H as [HF ->].
      split; [constructor; [exists x; auto | exact HF] | reflexivity].
    + simpl in H. destruct s as [|x s'].
      * apply piece_inv in H. destruct H as (ps' & -> & H).
        apply IH in H. destruct H as [HF Hs].
        split; [constructor; [left; reflexivity | exact HF] | exact Hs].
      * destruct (c x) eqn:Hc.
        -- apply orElse_inv in H. destruct H as [H | [_ H]].
           ++ apply piece_inv in H. destruct H as (ps' & -> & H).
              apply IH in H. destruct H as [HF ->].
              split; [constructor; [right; exists x; auto | exact HF]
                     | reflexivity].
           ++ apply piece_inv in H. destruct H as (ps' & -> & H).
              apply IH in H. destruct H as [HF Hs].
              split; [constructor; [left; reflexivity | exact HF] | exact Hs].
        -- apply piece_inv in H. destruct H as (ps' & -> & H).
           apply IH in H. destruct H as [HF Hs].
           split; [constructor; [left; reflexivity | exact HF] | exact Hs].
    + revert ps rest H. induction s as [|x s' IHs]; intros ps rest H.
      * simpl in H. apply piece_inv in H. destruct H as (ps' & -> & H).
        apply IH in H. destruct H as [HF Hs].
        split; [constructor; [reflexivity | exact HF] | exact Hs].
      * simpl in H. destruct (c x) eqn:Hc.
        -- apply orElse_inv in H. destruct H as [H | [_ H]].
           ++ apply grow_inv in H. destruct H as (p & ps' & -> & H).
              apply IHs in H. destruct H as [HF Hs].
              inversion HF; subst. split.
              ** constructor; [simpl; rewrite Hc; assumption | assumption].
              ** reflexivity.
           ++ apply piece_inv in H. destruct H as (ps' & -> & H).
              apply IH in H. destruct H as [HF Hs].
              split; [constructor; [reflexivity | exact HF] | exact Hs].
        -- apply piece_inv in H. destruct H as (ps' & -> & H).
           apply IH in H. destruct H as [HF Hs].
           split; [constructor; [reflexivity | exact HF] | exact Hs].
    + simpl in H. apply piece_inv in H. destruct H as (ps' & -> & H).
      apply IH in H. destruct H as [HF Hs].
      split; [constructor; [reflexivity | exact HF] | exact Hs].
    + simpl in H. apply piece_inv in H. destruct H as (ps' & -> & H).
      apply IH in H. destruct H as [HF Hs].
      split; [constructor; [reflexivity | exact HF] | exact Hs].
Qed.

(** The leftmost match splits the input in three, and the matched part is
    a match at its own position. *)
Lemma exec_sound r : forall s f,
  exec r s = Some f ->
  s = before f ++ matched f ++ after f
  /\ exists ps, matchHere r (matched f ++ after f) = Some (ps, after f)
                /\ matched f = concat ps
                /\ captured f = group1 false r ps.
Proof.
  induction s as [|x s' IH]; intros f H; simpl in H.
  - destruct (matchHere r []) as [[ps rest]|] eqn:Hm; [|discriminate].
    inversion H; subst; simpl.
    destruct (matchHere_sound _ _ _ _ Hm) as [_ Hs].
    split; [exact Hs|]. exists ps. rewrite <- Hs. auto.
  - destruct (matchHere r (x :: s')) as [[ps rest]|] eqn:Hm.
    + inversion H; subst; simpl.
      destruct (matchHere_sound _ _ _ _ Hm) as [_ Hs].
      split; [exact Hs|]. exists ps. rewrite <- Hs. auto.
    + destruct (exec r s') as [f'|] eqn:He; [|discriminate].
      inversion H; subst; simpl.
      destruct (IH f' eq_refl) as [Hs Hps].
      split; [f_equal; exact Hs | exact Hps].
Qed.

Lemma exec_none_here r s : exec r s = None -> matchHere r s = None.
Proof.
  destruct s; simpl; destruct (matchHere r _) as [[? ?]|]; congruence.
Qed.

Lemma exec_none_app r : forall pre s,
  exec r (pre ++ s) = None -> matchHere r s = None.
Proof.
  induction pre as [|x pre IH]; intros s H.
  - apply exec_none_here. exact H.
  - apply IH. simpl in H.
    destruct (matchHere r (x :: pre ++ s)) as [[? ?]|]; [discriminate|].
    destruct (exec r (pre ++ s)); [discriminate | reflexivity].
Qed.

(** *** The equations of a global replacement *)

Lemma exec_here r s ps rest :
  matchHere r s = Some (ps, rest) ->
  exec r s = Some (Found [] (concat ps) (group1 false r ps) rest).
Proof. destruct s; simpl; intros ->; reflexivity. Qed.

Lemma exec_next r x s :
  matchHere r (x :: s) = None ->
  exec r (x :: s) = option_map (shift x) (exec r s).
Proof. simpl. intros ->. reflexivity. Qed.

(** More rounds than the input has code units change nothing. *)
Lemma replaceRounds_enough r t : forall n m s,
  length s < n -> length s < m ->
  replaceRounds n r t s = replaceRounds m r t s.
Proof.
  induction n as [|n IH]; intros m s Hn Hm; [lia|].
  destruct m as [|m]; [lia|]. simpl.
  destruct (exec r s) as [f|] eqn:He; [|reflexivity].
  destruct (exec_sound _ _ _ He) as [Hs _].
  assert (Hlen : length s = length (before f) + length (matched f)
                              + length (after f)).
  { rewrite Hs at 1. rewrite !length_app. lia. }
  do 2 f_equal.
  destruct (matched f) as [|y w]; destruct (after f) as [|x s'];
    simpl in Hlen; try reflexivity.
  - f_equal. apply IH; lia.
  - apply IH; simpl; lia.
  - apply IH; simpl; lia.
Qed.

Lemma replaceRounds_S n r t s :
  replaceRounds (S n) r t s
  = match exec r s with
    | None => s
    | Some f =>
        before f ++ expand t f ++
        match matched f, after f with
        | [], [] => []
        | [], x :: s' => x :: replaceRounds n r t s'
        | _ :: _, s' => replaceRounds n r t s'
        end
    end.
Proof. reflexivity. Qed.

(** Where nothing matches at the head, the head is kept. *)
Lemma replaceAll_skip r t x s :
  matchHere r (x :: s) = None ->
  (forall rest ps, matchHere r rest = Some (ps, rest) -> False) ->
  replaceAll r t (x :: s) = x :: replaceAll r t s.
Proof.
  intros Hm Hne. unfold replaceAll.
  rewrite (replaceRounds_S (length (x :: s))), (replaceRounds_S (length s)).
  rewrite (exec_next _ _ _ Hm).
  destruct (exec r s) as [f|] eqn:He; [|reflexivity].
  destruct (exec_sound _ _ _ He) as [Hs (ps & Hps & Hc & _)].
  assert (Hlen : length s = length (before f) + length (matched f)
                              + length (after f)).
  { rewrite Hs at 1. rewrite !length_app. lia. }
  destruct f as [bf mf cf af]. cbn [option_map shift before matched captured after] in *.
  change (expand t (Found (x :: bf) mf cf af)) with (expand t (Found bf mf cf af)).
  rewrite <- app_comm_cons. do 3 f_equal.
  destruct mf as [|y w].
  - exfalso. simpl in Hps. eapply Hne. exact Hps.
  - simpl in Hlen. apply replaceRounds_enough; simpl; lia.
Qed.

(** Where the head matches, the match is replaced and the search goes on
    behind it. *)
Lemma replaceAll_hit r t s ps rest :
  matchHere r s = Some (ps, rest) ->
  concat ps <> [] ->
  replaceAll r t s
  = expand t (Found [] (concat ps) (group1 false r ps) rest)
    ++ replaceAll r t rest.
Proof.
  intros Hm Hne. unfold replaceAll.
  rewrite (replaceRounds_S (length s)).
  rewrite (exec_here _ _ _ _ Hm). cbn [before matched captured after app].
  destruct (matchHere_sound _ _ _ _ Hm) as [_ Hs].
  destruct (concat ps) as [|y w] eqn:Hc; [congruence|].
  f_equal. apply replaceRounds_enough.
  - rewrite Hs. rewrite length_app. simpl. lia.
  - lia.
Qed.

End RegExpFacts.

(** ** The description of a changeset *)

Module DescriptionFacts.

Import Chars RegExp JS Notions RegExpFacts ParseLogs.

Lemma eqb_LF x : Ascii.eqb x LF = just LF x.
Proof. unfold just. apply Ascii.eqb_sym. Qed.

(** A greedy star at the end of a pattern takes the whole run. *)
Lemma matchHere_many c : forall s,
  matchHere [Many c] s = Some ([span c s], afterSpan c s).
Proof.
  induction s as [|x s' IH]; [reflexivity|].
  change (matchHere [Many c] (x :: s'))
    with (if c x
          then orElse (grow x (matchHere [Many c] s'))
                      (piece [] (matchHere [] (x :: s')))
          else piece [] (matchHere [] (x :: s'))).
  simpl span. simpl afterSpan. rewrite IH.
  destruct (c x); reflexivity.
Qed.

Lemma blank_hit t :
  matchHere blankLinesRegex (LF :: LF :: LF :: t)
  = Some ([[LF]; [LF]; [LF]; span (just LF) t], afterSpan (just LF) t).
Proof.
  unfold blankLinesRegex.
  change (matchHere (One (just LF) :: One (just LF) :: One (just LF)
                       :: [Many (just LF)]) (LF :: LF :: LF :: t))
    with (piece [LF] (piece [LF] (piece [LF] (matchHere [Many (just LF)] t)))).
  rewrite matchHere_many. reflexivity.
Qed.

Lemma matchHere_one c r x s :
  matchHere (One c :: r) (x :: s)
  = if c x then piece [x] (matchHere r s) else None.
Proof. reflexivity. Qed.

Lemma just_spec c x : reflect (c = x) (just c x).
Proof. unfold just. apply Ascii.eqb_spec. Qed.

Lemma blank_miss s :
  (forall t, s <> LF :: LF :: LF :: t) ->
  matchHere blankLinesRegex s = None.
Proof.
  intros H. unfold blankLinesRegex.
  destruct s as [|a s]; [reflexivity|]. rewrite matchHere_one.
  destruct (just_spec LF a) as [<-|Ha]; [|reflexivity].
  destruct s as [|b s]; [reflexivity|]. rewrite matchHere_one.
  destruct (just_spec LF b) as [<-|Hb]; [|reflexivity].
  destruct s as [|c s]; [reflexivity|]. rewrite matchHere_one.
  destruct (just_spec LF c) as [<-|Hc]; [|reflexivity].
  exfalso. apply (H s). reflexivity.
Qed.

Lemma blank_not_empty rest ps :
  matchHere blankLinesRegex rest = Some (ps, rest) -> False.
Proof.
  intros H. destruct (matchHere_sound _ _ _ _ H) as [HF Hs].
  inversion HF as [|a p r' ps' Hfit _]; subst.
  destruct Hfit as (x & -> & _).
  apply (f_equal (@length ascii)) in Hs.
  rewrite length_app in Hs. simpl in Hs. rewrite ?length_app in Hs. lia.
Qed.

Lemma collapse_hit t :
  collapseBlankLines (LF :: LF :: LF :: t)
  = LF :: LF :: collapseBlankLines (afterSpan (just LF) t).
Proof.
  unfold collapseBlankLines.
  rewrite (replaceAll_hit _ _ _ _ _ (blank_hit t)); [reflexivity|].
  simpl. discriminate.
Qed.

Lemma collapse_skip x s :
  (forall t, x :: s <> LF :: LF :: LF :: t) ->
  collapseBlankLines (x :: s) = x :: collapseBlankLines s.
Proof.
  intros H. unfold collapseBlankLines.
  apply replaceAll_skip; [apply blank_miss; exact H | apply blank_not_empty].
Qed.

Lemma afterSpan_length c s : length (afterSpan c s) <= length s.
Proof.
  induction s as [|x s' IH]; simpl; [lia|].
  destruct (c x); simpl; lia.
Qed.

Lemma cap_two_afterSpan : forall t,
  capNewlines 2 t = capNewlines 0 (afterSpan (just LF) t).
Proof.
  induction t as [|x t IH]; [reflexivity|].
  cbn [capNewlines afterSpan]. rewrite <- eqb_LF.
  destruct (Ascii.eqb x LF) eqn:Hx; [exact IH|].
  cbn [capNewlines]. rewrite Hx. reflexivity.
Qed.

Lemma cap_one_short s :
  (forall t, s <> LF :: LF :: t) -> capNewlines 1 s = capNewlines 0 s.
Proof.
  intros H. destruct s as [|a s]; [reflexivity|]. simpl.
  destruct (Ascii.eqb_spec a LF) as [->|Ha]; [|reflexivity].
  f_equal. destruct s as [|b s]; [reflexivity|]. simpl.
  destruct (Ascii.eqb_spec b LF) as [->|Hb]; [|reflexivity].
  exfalso. apply (H s). reflexivity.
Qed.

(** The global replacement caps every run of newlines at two. *)
Lemma collapse_cap : forall s, collapseBlankLines s = capNewlines 0 s.
Proof.
  intros s. remember (length s) as n eqn:Hn.
  revert s Hn. induction n as [n IH] using lt_wf_ind. intros s Hn.
  destruct s as [|x s]; [reflexivity|].
  destruct (list_eq_dec ascii_dec (firstn 3 (x :: s)) [LF; LF; LF]) as [E|E].
  - destruct s as [|b [|c t]]; try discriminate.
    simpl in E. inversion E; subst x b c.
    rewrite collapse_hit. simpl. f_equal. f_equal.
    rewrite cap_two_afterSpan.
    apply (IH (length (afterSpan (just LF) t))); [|reflexivity].
    pose proof (afterSpan_length (just LF) t). simpl in Hn. lia.
  - rewrite collapse_skip.
    2:{ intros t Ht. apply E. rewrite Ht. reflexivity. }
    rewrite (IH (length s)); [|simpl in Hn; lia|reflexivity].
    simpl. destruct (Ascii.eqb_spec x LF) as [->|Hx]; [|reflexivity].
    f_equal. symmetry. apply cap_one_short.
    intros t Ht. apply E. rewrite Ht. reflexivity.
Qed.

Lemma cap_idem : forall s k, capNewlines k (capNewlines k s) = capNewlines k s.
Proof.
  induction s as [|x s IH]; intros k; [reflexivity|].
  simpl. destruct (Ascii.eqb x LF) eqn:Hx.
  - destruct (k <? 2) eqn:Hk.
    + simpl. rewrite Hx, Hk. f_equal. apply IH.
    + apply IH.
  - simpl. rewrite Hx. f_equal. apply IH.
Qed.

Lemma cap_length : forall s k, length (capNewlines k s) <= length s.
Proof.
  induction s as [|x s IH]; intros k; simpl; [lia|].
  destruct (Ascii.eqb x LF); [destruct (k <? 2)|]; simpl;
    try (specialize (IH (S k)); lia); try (specialize (IH k); lia);
    specialize (IH 0); lia.
Qed.

Lemma cap_shrinks : forall pre post k,
  length (capNewlines k (pre ++ [LF; LF; LF] ++ post))
  < length (pre ++ [LF; LF; LF] ++ post).
Proof.
  induction pre as [|x pre IH]; intros post k.
  - simpl. change (Ascii.eqb LF LF) with true. cbv iota.
    pose proof (cap_length post k) as H0.
    pose proof (cap_length post (S k)) as H1.
    pose proof (cap_length post (S (S k))) as H2.
    pose proof (cap_length post (S (S (S k)))) as H3.
    destruct k as [|[|k]]; simpl; lia.
  - simpl. destruct (Ascii.eqb x LF); [destruct (k <? 2)|]; simpl.
    + specialize (IH post (S k)). simpl in IH. lia.
    + specialize (IH post k). simpl in IH. lia.
    + specialize (IH post 0). simpl in IH. lia.
Qed.

Lemma collapse_tripleFree s : tripleFree (collapseBlankLines s).
Proof.
  intros pre post H.
  pose proof (cap_shrinks pre post 0) as Hlt.
  rewrite <- H in Hlt. rewrite collapse_cap, cap_idem in Hlt. lia.
Qed.

(** *** trim *)

Lemma dropSpace_suffix : forall s, exists l, s = l ++ dropSpace s.
Proof.
  induction s as [|x s [l IH]]; [exists []; reflexivity|].
  simpl. destruct (isSpace x).
  - exists (x :: l). simpl. f_equal. exact IH.
  - exists []. reflexivity.
Qed.

Lemma dropSpace_head s x t : dropSpace s = x :: t -> isSpace x = false.
Proof.
  induction s as [|y s IH]; simpl; [discriminate|].
  destruct (isSpace y) eqn:Hy; [exact IH|].
  intros H. inversion H; subst. exact Hy.
Qed.

(** The trimmed text is a segment of the text. *)
Lemma trim_segment s : exists l r, s = l ++ trim s ++ r.
Proof.
  unfold trim.
  destruct (dropSpace_suffix s) as [l Hl].
  destruct (dropSpace_suffix (rev (dropSpace s))) as [r Hr].
  exists l, (rev r).
  rewrite <- rev_app_distr, <- Hr, rev_involutive. exact Hl.
Qed.

Lemma trim_trimmed s : trimmed (trim s).
Proof.
  unfold trim. split.
  - intros x t H.
    destruct (dropSpace_suffix (rev (dropSpace s))) as [r Hr].
    apply (f_equal (@rev ascii)) in Hr.
    rewrite rev_involutive, rev_app_distr, H in Hr.
    simpl in Hr. apply dropSpace_head in Hr. exact Hr.
  - intros t x H.
    apply (f_equal (@rev ascii)) in H.
    rewrite rev_involutive, rev_app_distr in H. simpl in H.
    apply dropSpace_head in H. exact H.
Qed.

Lemma tripleFree_segment l s r : tripleFree (l ++ s ++ r) -> tripleFree s.
Proof.
  intros H pre post E. apply (H (l ++ pre) (post ++ r)).
  rewrite E. rewrite <- !app_assoc. reflexivity.
Qed.

Lemma trim_tripleFree s : tripleFree s -> tripleFree (trim s).
Proof.
  intros H. destruct (trim_segment s) as (l & r & E).
  rewrite E in H. eapply tripleFree_segment. exact H.
Qed.

(** *** Leftmost matches *)

Lemma exec_leftmost r : forall s f,
  exec r s = Some f ->
  forall p q, before f = p ++ q -> q <> [] ->
              matchHere r (q ++ matched f ++ after f) = None.
Proof.
  induction s as [|x s IH]; intros f H p q Hb Hq.
  - simpl in H. destruct (matchHere r []) as [[ps rest]|]; [|discriminate].
    inversion H; subst. simpl in Hb.
    destruct p; destruct q; simpl in Hb; congruence.
  - simpl in H. destruct (matchHere r (x :: s)) as [[ps rest]|] eqn:Hm.
    + inversion H; subst. simpl in Hb.
      destruct p; destruct q; simpl in Hb; congruence.
    + destruct (exec r s) as [f'|] eqn:He; [|discriminate].
      inversion H; subst. simpl in Hb. simpl.
      destruct (exec_sound _ _ _ He) as [Hs _].
      destruct p as [|y p]; simpl in Hb.
      * subst q. simpl. rewrite <- Hs. exact Hm.
      * inversion Hb; subst. eapply IH; eauto.
Qed.

Lemma exec_none_positions r s :
  exec r s = None ->
  forall pre post, s = pre ++ post -> matchHere r post = None.
Proof. intros H pre post ->. eapply exec_none_app. exact H. Qed.

(** [replaceFirst] with an empty template cuts the first clause out. *)
Lemma replaceFirst_firstCut r d : firstCut r d (replaceFirst r [] d).
Proof.
  unfold replaceFirst. destruct (exec r d) as [f|] eqn:He.
  - right. destruct (exec_sound _ _ _ He) as [Hs (ps & Hps & Hc & _)].
    exists (before f), (matched f), (after f), ps.
    repeat split; try assumption.
    eapply exec_leftmost. exact He.
  - left. split; [reflexivity|]. apply exec_none_positions. exact He.
Qed.

(** *** The word Props under the [i] flag *)

Ltac each_code_unit x :=
  destruct x as [[] [] [] [] [] [] [] []]; vm_compute;
  intros H; try discriminate H; reflexivity.

Lemma ci_P x : ci "P"%char x = true -> lower x = "p"%char.
Proof. each_code_unit x. Qed.
Lemma ci_r x : ci "r"%char x = true -> lower x = "r"%char.
Proof. each_code_unit x. Qed.
Lemma ci_o x : ci "o"%char x = true -> lower x = "o"%char.
Proof. each_code_unit x. Qed.
Lemma ci_p x : ci "p"%char x = true -> lower x = "p"%char.
Proof. each_code_unit x. Qed.
Lemma ci_s x : ci "s"%char x = true -> lower x = "s"%char.
Proof. each_code_unit x. Qed.

(** A match of the Props pattern starts with a newline and the word. *)
Lemma props_match_shape s ps rest :
  matchHere propsRegex s = Some (ps, rest) ->
  exists w tail,
    s = LF :: w ++ tail /\ toLowerCase w = txt "props"
    /\ concat ps = LF :: w ++ firstn (length tail - length rest) tail.
Proof.
  intros H. destruct (matchHere_sound _ _ _ _ H) as [HF Hs].
  unfold propsRegex in HF. simpl in HF.
  repeat match goal with
         | HF : Forall2 fits (_ :: _) _ |- _ =>
             inversion HF; clear HF; subst
         | HF : Forall2 fits [] _ |- _ => inversion HF; clear HF; subst
         end.
  repeat match goal with
         | Hf : fits (One _) _ |- _ => destruct Hf as (? & -> & ?)
         | Hf : fits Open _ |- _ => simpl in Hf; subst
         | Hf : fits Close _ |- _ => simpl in Hf; subst
         end.
  match goal with Hl : just LF ?a = true |- _ =>
    destruct (just_spec LF a) as [<-|]; [|discriminate] end.
  match goal with
  | HP : ci "P"%char ?a = true, Hr : ci "r"%char ?b = true,
    Ho : ci "o"%char ?c = true, Hp : ci "p"%char ?d = true,
    Hs' : ci "s"%char ?e = true |- _ =>
      exists [a; b; c; d; e]; eexists; split; [|split];
      [ simpl; reflexivity
      | simpl; rewrite (ci_P _ HP), (ci_r _ Hr), (ci_o _ Ho), (ci_p _ Hp),
          (ci_s _ Hs'); reflexivity
      | ]
  end.
  simpl. do 6 f_equal.
  rewrite length_app. rewrite Nat.add_sub.
  rewrite firstn_app, firstn_all, Nat.sub_diag. simpl.
  rewrite app_nil_r. reflexivity.
Qed.

Lemma noProps_exec d : noPropsAfterNewline d -> exec propsRegex d = None.
Proof.
  intros H. destruct (exec propsRegex d) as [f|] eqn:He; [|reflexivity].
  exfalso. destruct (exec_sound _ _ _ He) as [Hs (ps & Hps & _)].
  destruct (props_match_shape _ _ _ Hps) as (w & tail & Hw & Hl & _).
  apply (H (before f ++ [LF]) w tail) with (pre' := before f);
    [|exact Hl|reflexivity].
  rewrite Hs, Hw. rewrite <- app_assoc. reflexivity.
Qed.

(** [split] never returns the empty array on this separator. *)
Lemma splitRounds_cons r : forall n cur s, splitRounds n r cur s <> [].
Proof.
  induction n as [|n IH]; intros cur s; simpl; [discriminate|].
  destruct s as [|x s']; [discriminate|].
  destruct (matchHere r (x :: s')) as [[ps rest]|]; [|apply IH].
  destruct (concat ps); [destruct cur|]; try discriminate. apply IH.
Qed.

Lemma split_comma_cons s : split commaRegex s <> [].
Proof.
  destruct s as [|x s]; [vm_compute; discriminate|].
  apply splitRounds_cons.
Qed.

End DescriptionFacts.

(** ** The claims about extraction *)

Module ExtractionClaims.

Import Chars RegExp JS Dom Changeset Notions RegExpFacts ParseLogs
  DescriptionFacts.

Lemma pairs_ind (A : Type) (P : list A -> Prop) :
  P [] -> (forall x, P [x]) -> (forall x y l, P l -> P (x :: y :: l)) ->
  forall l, P l.
Proof.
  intros H0 H1 H2.
  fix rec 1. intros [|x [|y l]]; [exact H0 | apply H1 | apply H2, rec].
Qed.

(** C1.  Extraction yields one changeset for every pair of rows, in the
    order of the rows: the [k]-th record is built from rows [2k] and
    [2k+1], there are [floor(numRows/2)] of them, and a last row without a
    partner is left out, the records before it being kept. *)
Theorem buildChangesets_pairs (parseFragment : str -> list node)
  (logEntries : list node) :
  buildChangesets parseFragment logEntries
  = map (fun k => changesetOf parseFragment
                    (nth (2 * k) logEntries nothing)
                    (nth (2 * k + 1) logEntries nothing))
        (seq 0 (length logEntries / 2))
  /\ length (buildChangesets parseFragment logEntries)
     = length logEntries / 2
  /\ buildChangesets parseFragment logEntries
     = buildChangesets parseFragment
         (firstn (2 * (length logEntries / 2)) logEntries).
Proof.
  induction logEntries as [|x|x y l (IH1 & IH2 & IH3)] using pairs_ind.
  - repeat split.
  - repeat split.
  - assert (Hd : length (x :: y :: l) / 2 = S (length l / 2)).
    { change (length (x :: y :: l)) with (1 * 2 + length l).
      rewrite Nat.div_add_l by lia. reflexivity. }
    rewrite Hd. repeat split.
    + cbn [buildChangesets seq map]. f_equal.
      rewrite <- seq_shift, map_map. rewrite IH1 at 1.
      apply map_ext. intros k.
      replace (2 * S k) with (S (S (2 * k))) by lia. reflexivity.
    + cbn [buildChangesets length]. rewrite IH2. reflexivity.
    + replace (2 * S (length l / 2)) with (S (S (2 * (length l / 2))))
        by lia.
      cbn [firstn buildChangesets]. f_equal. exact IH3.
Qed.

(** C9.  Collapsing blank lines twice is collapsing them once. *)
Theorem collapseBlankLines_idempotent (text : str) :
  collapseBlankLines (collapseBlankLines text) = collapseBlankLines text.
Proof. rewrite !collapse_cap. apply cap_idem. Qed.

(** C10.  When no occurrence of the word Props, in any case, comes right
    after a newline, no props are extracted and the removal of the Props
    clause leaves the description as it is. *)
Theorem props_only_after_newline (d : str) :
  noPropsAfterNewline d -> extractProps d = [] /\ removeProps d = d.
Proof.
  intros H. apply noProps_exec in H.
  unfold extractProps, removeProps, replaceFirst. rewrite H. auto.
Qed.

Lemma props_only_after_newline_witness :
  noPropsAfterNewline (txt "Props jane.")
  /\ extractProps (txt "Props jane.") = []
  /\ removeProps (txt "Props jane.") = txt "Props jane.".
Proof.
  assert (Hn : noPropsAfterNewline (txt "Props jane.")).
  { intros pre w post Hd _ pre' ->.
    assert (Hin : In LF (txt "Props jane.")).
    { rewrite Hd. apply in_or_app. left. apply in_or_app. right.
      left. reflexivity. }
    vm_compute in Hin.
    repeat (destruct Hin as [Hin|Hin]; [discriminate Hin|]).
    exact Hin. }
  split; [exact Hn|].
  exact (props_only_after_newline (txt "Props jane.") Hn).
Defined.

Lemma In_buildChangesets pf : forall rows c,
  In c (buildChangesets pf rows) ->
  exists meta log, In log rows /\ c = changesetOf pf meta log.
Proof.
  induction rows as [|x|x y l IH] using pairs_ind; intros c H.
  - destruct H.
  - destruct H.
  - destruct H as [<-|H].
    + exists x, y. split; [right; left; reflexivity | reflexivity].
    + destruct (IH c H) as (meta & log & Hin & E).
      exists meta, log. split; [right; right; exact Hin | exact E].
Qed.

(** C5, as the code has it.  The description of every extracted changeset
    has no run of more than two newlines and no white space at either
    end; it is the text of the log cell from which the first Fixes
    clause, then the first See clause, then the first Props clause were
    cut (a pattern that matches nowhere cuts nothing, and later clauses of
    the same kind stay), whatever names the Props clause gave. *)
Theorem description_invariant (parseFragment : str -> list node)
  (logEntries : list node) (c : changeset) :
  In c (buildChangesets parseFragment logEntries) ->
  tripleFree (description c) /\ trimmed (description c)
  /\ exists log t1 t2 t3,
       In log logEntries
       /\ firstCut fixesRegex (logText parseFragment log) t1
       /\ firstCut seeRegex t1 t2
       /\ firstCut propsRegex t2 t3
       /\ description c = trim (collapseBlankLines t3).
Proof.
  intros H. apply In_buildChangesets in H.
  destruct H as (meta & log & Hin & ->).
  cbn [description changesetOf]. split; [|split].
  - apply trim_tripleFree, collapse_tripleFree.
  - apply trim_trimmed.
  - exists log. do 3 eexists. split; [exact Hin|]. repeat split.
    + apply replaceFirst_firstCut.
    + apply replaceFirst_firstCut.
    + apply replaceFirst_firstCut.
Qed.

Lemma description_invariant_witness :
  exists c, In c (buildChangesets plainText twoSeeRows)
            /\ tripleFree (description c) /\ trimmed (description c).
Proof.
  eexists. split; [left; reflexivity|].
  split;
    apply (description_invariant plainText twoSeeRows _
             (or_introl eq_refl)).
Defined.

(** C5, as stated, fails: of two See clauses the second one stays in the
    description. *)
Lemma description_keeps_second_see :
  map description (buildChangesets plainText twoSeeRows)
  = [txt "a" ++ LF :: txt "See #2"]
  /\ contains (LF :: txt "See #") (txt "a" ++ LF :: txt "See #2") = true
  /\ exec seeRegex (txt "a" ++ LF :: txt "See #2") <> None.
Proof. vm_compute. repeat split. discriminate. Qed.

(** C6.  On the message of the example, the capture of the Props pattern,
    cleaned by [cleanProps], is jane, john, bob, and what is left of the
    message does not contain the word Props; the same holds with the Props
    pattern of the revision that defines [cleanProps]. *)
Theorem props_of_thingMessage :
  option_map (fun f => CleanProps.cleanProps (captured f))
    (exec propsRegex thingMessage)
  = Some [txt "jane"; txt "john"; txt "bob"]
  /\ contains (txt "Props") (removeProps thingMessage) = false
  /\ CleanProps.extractProps thingMessage = [txt "jane"; txt "john"; txt "bob"]
  /\ contains (txt "Props") (CleanProps.removeProps thingMessage) = false.
Proof. vm_compute. repeat split. Qed.

(** Without [cleanProps], the split at commas alone keeps the qualifier. *)
Remark split_alone_keeps_qualifier :
  extractProps thingMessage
  = [txt "jane"; txt "john for testing"; txt "bob"].
Proof. vm_compute. reflexivity. Qed.

(** A clause that is found always gives an array with an entry, which
    may be the empty string: [props] is empty only where no clause is. *)
Remark props_empty_without_clause (d : str) :
  extractProps d = [] <-> exec propsRegex d = None.
Proof.
  unfold extractProps. destruct (exec propsRegex d) as [f|].
  - split; [|discriminate]. intros H. exfalso.
    exact (split_comma_cons _ H).
  - split; reflexivity.
Qed.

(** The later revision looks for the word anywhere: there the clause
    needs no newline before it. *)
Remark later_revision_needs_no_newline :
  CleanProps.extractProps (txt "Props jane.") = [txt "jane"].
Proof. vm_compute. reflexivity. Qed.

End ExtractionClaims.

(** ** The report *)

Module OutputFacts.

Import Chars JS Changeset Notions Output.

Lemma str_eqb_spec a b : reflect (a = b) (str_eqb a b).
Proof.
  unfold str_eqb. destruct (list_eq_dec ascii_dec a b); constructor; auto.
Qed.

Lemma str_eqb_refl a : str_eqb a a = true.
Proof. destruct (str_eqb_spec a a); congruence. Qed.

Lemma str_eqb_sym a b : str_eqb a b = str_eqb b a.
Proof.
  destruct (str_eqb_spec a b), (str_eqb_spec b a); congruence.
Qed.

(** *** Keys in the order of their first occurrence *)

Lemma existsb_str k l : existsb (str_eqb k) l = true <-> In k l.
Proof.
  rewrite existsb_exists. split.
  - intros (x & Hx & He). destruct (str_eqb_spec k x); congruence.
  - intros H. exists k. split; [exact H | apply str_eqb_refl].
Qed.

Lemma firsts_In k : forall l, In k (firsts l) <-> In k l.
Proof.
  induction l as [|a l IH]; simpl; [tauto|].
  rewrite filter_In, IH.
  destruct (str_eqb_spec k a) as [->|Hn]; simpl; intuition congruence.
Qed.

Lemma firsts_NoDup : forall l, NoDup (firsts l).
Proof.
  induction l as [|a l IH]; simpl; constructor.
  - rewrite filter_In. intros [_ H]. rewrite str_eqb_refl in H. discriminate.
  - apply NoDup_filter. exact IH.
Qed.

Lemma firsts_snoc k : forall l,
  firsts (l ++ [k])
  = if existsb (str_eqb k) l then firsts l else firsts l ++ [k].
Proof.
  induction l as [|a l IH]; [reflexivity|].
  cbn [app firsts existsb]. rewrite IH.
  destruct (str_eqb_spec k a) as [->|Hn]; cbn [orb].
  - destruct (existsb (str_eqb a) l); [reflexivity|].
    rewrite filter_app. cbn [filter]. rewrite str_eqb_refl. cbn [negb].
    rewrite app_nil_r. reflexivity.
  - destruct (existsb (str_eqb k) l); [reflexivity|].
    rewrite filter_app. cbn [filter].
    destruct (str_eqb_spec k a); [contradiction|]. reflexivity.
Qed.

Lemma bucket_snoc k l c :
  bucket k (l ++ [c])
  = bucket k l ++ (if str_eqb (keyOf c) k then [c] else []).
Proof. unfold bucket. rewrite filter_app. reflexivity. Qed.

(** *** Lookup and push on the buckets *)

Lemma own_map (f : str -> list changeset) k : forall ks,
  own (map (fun k' => (k', f k')) ks) k
  = if existsb (str_eqb k) ks then Some (f k) else None.
Proof.
  induction ks as [|a ks IH]; [reflexivity|].
  cbn [map own existsb]. destruct (str_eqb_spec k a) as [->|Hn];
    [reflexivity | exact IH].
Qed.

Lemma own_app o o' k :
  own (o ++ o') k = match own o k with Some v => Some v | None => own o' k end.
Proof.
  induction o as [|[k' v] o IH]; [reflexivity|].
  cbn [app own]. destruct (str_eqb k k'); [reflexivity | exact IH].
Qed.

Lemma pushTo_app_miss k item o o' :
  own o k = None -> pushTo k item (o ++ o') = o ++ pushTo k item o'.
Proof.
  induction o as [|[k' v] o IH]; intros H; [reflexivity|].
  cbn [own] in H. cbn [app pushTo].
  destruct (str_eqb k k'); [discriminate|]. rewrite IH; auto.
Qed.

Lemma pushTo_map (f g : str -> list changeset) k item : forall ks,
  NoDup ks ->
  g k = f k ++ [item] ->
  (forall k', k' <> k -> g k' = f k') ->
  In k ks ->
  pushTo k item (map (fun k' => (k', f k')) ks)
  = map (fun k' => (k', g k')) ks.
Proof.
  induction ks as [|a ks IH]; intros Hnd Hk Hother Hin; [destruct Hin|].
  inversion Hnd as [|? ? Hna Hnd']; subst.
  cbn [map pushTo]. destruct (str_eqb_spec k a) as [->|Hn].
  - rewrite Hk. f_equal. apply map_ext_in. intros k' Hk'.
    rewrite Hother; [reflexivity|]. intros ->. contradiction.
  - rewrite Hother by congruence. f_equal.
    apply IH; auto. destruct Hin; [congruence | assumption].
Qed.

Lemma map_buckets_other ks l c :
  ~ In (keyOf c) ks ->
  map (fun k => (k, bucket k (l ++ [c]))) ks
  = map (fun k => (k, bucket k l)) ks.
Proof.
  intros H. apply map_ext_in. intros k Hk. rewrite bucket_snoc.
  destruct (str_eqb_spec (keyOf c) k) as [E|_];
    [subst k; contradiction | rewrite app_nil_r; reflexivity].
Qed.

Lemma bucket_absent k l : ~ In k (map keyOf l) -> bucket k l = [].
Proof.
  unfold bucket. induction l as [|c l IH]; intros H; [reflexivity|].
  cbn [filter]. destruct (str_eqb_spec (keyOf c) k) as [E|_].
  - exfalso. apply H. left. exact E.
  - apply IH. intros Hin. apply H. right. exact Hin.
Qed.

(** One step of the traversal on the buckets built so far. *)
Lemma categorize_bucketsOf l item :
  categorize (bucketsOf l) item
  = if inherited (keyOf item) && negb (existsb (str_eqb (keyOf item)) (map keyOf l))
    then None else Some (bucketsOf (l ++ [item])).
Proof.
  unfold categorize. cbn [truthy negb propertyKey].
  fold (keyOf item). set (k := keyOf item).
  unfold missing, bucketsOf.
  rewrite own_map.
  assert (Hex : existsb (str_eqb k) (firsts (map keyOf l))
                = existsb (str_eqb k) (map keyOf l)).
  { apply eq_true_iff_eq. rewrite !existsb_str. apply firsts_In. }
  rewrite Hex. rewrite map_app. cbn [map]. fold k. rewrite firsts_snoc.
  destruct (existsb (str_eqb k) (map keyOf l)) eqn:Hin.
  - rewrite andb_false_r. rewrite own_map, Hex. f_equal.
    apply pushTo_map.
    + apply firsts_NoDup.
    + rewrite bucket_snoc. subst k. rewrite str_eqb_refl. reflexivity.
    + intros k' Hk'. rewrite bucket_snoc.
      destruct (str_eqb_spec (keyOf item) k') as [E|_];
        [subst k; congruence | rewrite app_nil_r; reflexivity].
    + apply firsts_In, existsb_str. exact Hin.
  - rewrite andb_true_r. destruct (inherited k) eqn:Hi; cbn [negb].
    + rewrite own_map, Hex. reflexivity.
    + assert (Hnot : ~ In k (firsts (map keyOf l))).
      { rewrite firsts_In. rewrite <- existsb_str. congruence. }
      rewrite own_app, own_map, Hex. cbn [own]. rewrite str_eqb_refl.
      f_equal. rewrite pushTo_app_miss by (rewrite own_map, Hex; reflexivity).
      cbn [pushTo]. rewrite str_eqb_refl.
      rewrite map_app. cbn [map]. f_equal.
      * symmetry. apply map_buckets_other. exact Hnot.
      * rewrite bucket_snoc. subst k. rewrite str_eqb_refl.
        rewrite bucket_absent; [reflexivity|].
        rewrite <- firsts_In. exact Hnot.
Qed.

(** The traversal fills the buckets, unless it meets a key that the
    object inherits. *)
Lemma categorizeAll_bucketsOf : forall l pre,
  Forall (fun c => inherited (keyOf c) = false) l ->
  categorizeAll (bucketsOf pre) l = Some (bucketsOf (pre ++ l)).
Proof.
  induction l as [|c l IH]; intros pre H.
  - rewrite app_nil_r. reflexivity.
  - inversion H as [|? ? Hc Hl]; subst. cbn [categorizeAll].
    rewrite categorize_bucketsOf, Hc. cbn [andb].
    rewrite IH by assumption. rewrite <- app_assoc. reflexivity.
Qed.

Lemma categorizeAll_inv : forall l pre o,
  categorizeAll (bucketsOf pre) l = Some o -> o = bucketsOf (pre ++ l).
Proof.
  induction l as [|c l IH]; intros pre o H.
  - rewrite app_nil_r. cbn in H. congruence.
  - cbn [categorizeAll] in H. rewrite categorize_bucketsOf in H.
    destruct (inherited (keyOf c) && _); [discriminate|].
    apply IH in H. rewrite <- app_assoc in H. exact H.
Qed.

(** *** The order of enumeration *)

Lemma insertIndex_perm p : forall o, Permutation (insertIndex p o) (p :: o).
Proof.
  induction o as [|q o IH]; [reflexivity|].
  cbn [insertIndex]. destruct (numeral (fst p) <=? numeral (fst q))%N.
  - reflexivity.
  - rewrite IH. apply perm_swap.
Qed.

Lemma filter_split (A : Type) (f : A -> bool) : forall l,
  Permutation (filter f l ++ filter (fun x => negb (f x)) l) l.
Proof.
  induction l as [|x l IH]; [reflexivity|].
  cbn [filter]. destruct (f x); cbn [negb app].
  - constructor. exact IH.
  - rewrite <- Permutation_middle. constructor. exact IH.
Qed.

Lemma enumerate_perm o : Permutation (enumerate o) o.
Proof.
  unfold enumerate.
  etransitivity; [|apply (filter_split _ (fun p => arrayIndex (fst p)) o)].
  apply Permutation_app_tail.
  induction (filter (fun p => arrayIndex (fst p)) o) as [|q l IH];
    [reflexivity|].
  cbn [fold_right]. rewrite insertIndex_perm. constructor. exact IH.
Qed.

Lemma filter_none (A : Type) (f : A -> bool) l :
  Forall (fun x => f x = false) l -> filter f l = [].
Proof.
  induction 1 as [|x l Hx _ IH]; [reflexivity|].
  cbn [filter]. rewrite Hx. exact IH.
Qed.

Lemma filter_every (A : Type) (f : A -> bool) l :
  Forall (fun x => f x = false) l -> filter (fun x => negb (f x)) l = l.
Proof.
  induction 1 as [|x l Hx _ IH]; [reflexivity|].
  cbn [filter]. rewrite Hx. cbn [negb]. f_equal. exact IH.
Qed.

(** Without array indices among the keys, the order is that of creation. *)
Lemma enumerate_plain o :
  Forall (fun p => arrayIndex (fst p) = false) o -> enumerate o = o.
Proof.
  intros H. unfold enumerate.
  rewrite (filter_none _ (fun p => arrayIndex (fst p)) o H).
  rewrite (filter_every _ (fun p => arrayIndex (fst p)) o H).
  reflexivity.
Qed.

(** *** The sections *)

Lemma sections_wellFilled : forall o,
  Forall wellFilled o ->
  sections o = Some (concat (map (fun p => sectionText (fst p) (snd p)) o)).
Proof.
  induction o as [|[k l] o IH]; intros H; [reflexivity|].
  inversion H as [|? ? [Hne Hk] Ho]; subst. cbn [fst snd] in *.
  cbn [sections map concat]. rewrite (IH Ho).
  destruct l as [|c l]; [congruence|].
  unfold section, heading. cbn [propertyKey]. fold (keyOf c).
  rewrite (Hk c (or_introl eq_refl)).
  unfold sectionText. rewrite <- !app_assoc. reflexivity.
Qed.

Lemma bucket_In k l c : In c (bucket k l) <-> In c l /\ keyOf c = k.
Proof.
  unfold bucket. rewrite filter_In.
  destruct (str_eqb_spec (keyOf c) k); intuition congruence.
Qed.

Lemma bucketsOf_wellFilled l : Forall wellFilled (bucketsOf l).
Proof.
  unfold bucketsOf. rewrite Forall_map. apply Forall_forall.
  intros k Hk. split; cbn [fst snd].
  - apply firsts_In, in_map_iff in Hk. destruct Hk as (c & Hc & Hin).
    intros E. assert (Hb : In c (bucket k l)) by (apply bucket_In; auto).
    rewrite E in Hb. destruct Hb.
  - intros c Hc. apply bucket_In in Hc. tauto.
Qed.

(** The buckets hold every changeset once. *)
Lemma buckets_front (f : str -> list changeset) k : forall ks,
  NoDup ks -> (In k ks \/ f k = []) ->
  Permutation
    (f k ++ concat (map f (filter (fun k' => negb (str_eqb k' k)) ks)))
    (concat (map f ks)).
Proof.
  induction ks as [|a ks IH]; intros Hnd Hk.
  - destruct Hk as [Hk|Hk]; [destruct Hk|]. rewrite Hk. reflexivity.
  - inversion Hnd as [|? ? Hna Hnd']; subst.
    cbn [filter map concat]. destruct (str_eqb_spec a k) as [->|Hn].
    + cbn [negb]. apply Permutation_app_head.
      assert (E : filter (fun k' => negb (str_eqb k' k)) ks = ks).
      { apply forallb_filter_id. apply forallb_forall. intros x Hx.
        destruct (str_eqb_spec x k); [subst; contradiction | reflexivity]. }
      rewrite E. reflexivity.
    + cbn [negb map concat].
      rewrite app_assoc.
      rewrite (Permutation_app_comm (f k) (f a)).
      rewrite <- app_assoc. apply Permutation_app_head.
      apply IH; [assumption|].
      destruct Hk as [[E|Hk]|Hk]; [congruence | left; exact Hk | right; exact Hk].
Qed.

Lemma bucketsOf_perm : forall l,
  Permutation (concat (map snd (bucketsOf l))) l.
Proof.
  unfold bucketsOf. intros l. rewrite map_map. cbn [snd].
  induction l as [|c l IH]; [reflexivity|].
  cbn [map firsts concat].
  assert (Hhead : bucket (keyOf c) (c :: l) = c :: bucket (keyOf c) l).
  { unfold bucket. cbn [filter]. rewrite str_eqb_refl. reflexivity. }
  rewrite Hhead. cbn [app]. constructor.
  assert (Hrest :
    map (fun k => bucket k (c :: l))
        (filter (fun k' => negb (str_eqb k' (keyOf c)))
                (firsts (map keyOf l)))
    = map (fun k => bucket k l)
        (filter (fun k' => negb (str_eqb k' (keyOf c)))
                (firsts (map keyOf l)))).
  { apply map_ext_in. intros k Hk. apply filter_In in Hk.
    destruct Hk as [_ Hk]. unfold bucket. cbn [filter].
    rewrite str_eqb_sym. destruct (str_eqb k (keyOf c)); [discriminate|].
    reflexivity. }
  rewrite Hrest.
  rewrite (buckets_front (fun k => bucket k l)).
  - exact IH.
  - apply firsts_NoDup.
  - destruct (in_dec (list_eq_dec ascii_dec) (keyOf c) (map keyOf l)) as [Hin|Hn].
    + left. apply firsts_In. exact Hin.
    + right. apply bucket_absent. exact Hn.
Qed.

Lemma concat_snd_perm (o o' : object) :
  Permutation o o' ->
  Permutation (concat (map snd o)) (concat (map snd o')).
Proof.
  intros H. rewrite <- !flat_map_concat_map.
  apply Permutation_flat_map. exact H.
Qed.

(** *** The loops, section by section *)

Lemma eachChangeset_fold : forall l t p,
  fold_left eachChangeset l (t, p)
  = (t ++ concat (map entry l), p ++ flat_map credit l).
Proof.
  induction l as [|c l IH]; intros t p.
  - cbn [fold_left map concat flat_map]. rewrite !app_nil_r. reflexivity.
  - cbn [fold_left map concat flat_map]. unfold eachChangeset at 2.
    destruct (props c) as [|x xs] eqn:Hp; rewrite IH; f_equal;
      rewrite <- ?app_assoc; try reflexivity;
      unfold credit; rewrite Hp; reflexivity.
Qed.

Lemma eachCategory_none : forall l, fold_left eachCategory l None = None.
Proof. induction l as [|c l IH]; [reflexivity | exact IH]. Qed.

Lemma eachCategory_fold : forall o t p,
  fold_left eachCategory (map snd o) (Some (t, p))
  = match sections o with
    | Some text => Some (t ++ text, p ++ collect o)
    | None => None
    end.
Proof.
  induction o as [|[k l] o IH]; intros t p.
  - cbn [map fold_left sections collect flat_map]. rewrite !app_nil_r.
    reflexivity.
  - cbn [map fold_left sections snd]. unfold section, heading.
    destruct l as [|c l]; [apply eachCategory_none|].
    cbn [eachCategory]. rewrite eachChangeset_fold, IH.
    destruct (sections o) as [text|]; [|reflexivity].
    unfold collect. cbn [flat_map snd]. f_equal. f_equal.
    + rewrite <- !app_assoc. reflexivity.
    + rewrite <- !app_assoc. reflexivity.
Qed.

(** [report] through the sections. *)
Lemma report_sections cmp cs :
  report cmp cs
  = match categorizeAll [] cs with
    | Some categories =>
        match sections (enumerate categories) with
        | Some text =>
            Some (text, contributors cmp (enumerate categories))
        | None => None
        end
    | None => None
    end.
Proof.
  unfold report. destruct (categorizeAll [] cs) as [o|]; [|reflexivity].
  rewrite eachCategory_fold.
  destruct (sections (enumerate o)); reflexivity.
Qed.

Lemma buildOutput_sections cmp cs :
  buildOutput cmp cs
  = match categorizeAll [] cs with
    | Some categories =>
        match sections (enumerate categories) with
        | Some text =>
            Some (mkOutput text
                    (thanks (contributors cmp (enumerate categories))))
        | None => None
        end
    | None => None
    end.
Proof.
  unfold buildOutput. rewrite report_sections.
  destruct (categorizeAll [] cs) as [o|]; [|reflexivity].
  destruct (sections (enumerate o)); reflexivity.
Qed.

(** What [buildOutput] returns, when it returns. *)
Lemma buildOutput_inv cmp cs out :
  buildOutput cmp cs = Some out ->
  let cats := enumerate (bucketsOf cs) in
  changesetOutput out
  = concat (map (fun p => sectionText (fst p) (snd p)) cats)
  /\ propsOutput out = thanks (contributors cmp cats)
  /\ Permutation (concat (map snd cats)) cs
  /\ creditList cmp cs = Some (contributors cmp cats).
Proof.
  rewrite buildOutput_sections. intros H.
  assert (Hr := report_sections cmp cs).
  destruct (categorizeAll [] cs) as [o|] eqn:Hc; [|discriminate].
  apply (categorizeAll_inv cs []) in Hc. cbn [app] in Hc. subst o.
  assert (Hw : Forall wellFilled (enumerate (bucketsOf cs))).
  { eapply Permutation_Forall; [symmetry; apply enumerate_perm|].
    apply bucketsOf_wellFilled. }
  rewrite (sections_wellFilled _ Hw) in H, Hr. inversion H; subst out.
  cbn [changesetOutput propsOutput]. repeat split.
  - rewrite (concat_snd_perm _ _ (enumerate_perm (bucketsOf cs))).
    apply bucketsOf_perm.
  - unfold creditList. rewrite Hr. reflexivity.
Qed.

Lemma concat_map_split (A : Type) (g : A -> str) l1 x l2 :
  concat (map g (l1 ++ x :: l2))
  = concat (map g l1) ++ g x ++ concat (map g l2).
Proof. rewrite map_app, concat_app. reflexivity. Qed.

(** *** trim on a trimmed text *)

Lemma dropSpace_id s :
  (forall x t, s = x :: t -> isSpace x = false) -> dropSpace s = s.
Proof.
  destruct s as [|x t]; [reflexivity|]. intros H.
  cbn [dropSpace]. rewrite (H x t eq_refl). reflexivity.
Qed.

Lemma trim_id s : trimmed s -> trim s = s.
Proof.
  intros [Hh Hl]. unfold trim. rewrite (dropSpace_id s Hh).
  rewrite dropSpace_id; [apply rev_involutive|].
  intros x t E. apply (Hl (rev t) x).
  rewrite <- (rev_involutive s), E. reflexivity.
Qed.

(** *** Sorting and deduplication of the credit list *)

Section SortFacts.

Variable localeCompare : str -> str -> comparison.

Lemma insertProp_perm a : forall l,
  Permutation (insertProp localeCompare a l) (a :: l).
Proof.
  induction l as [|b l IH]; [reflexivity|].
  cbn [insertProp]. destruct (compareProps localeCompare a b);
    try reflexivity.
  rewrite IH. apply perm_swap.
Qed.

Lemma sort_perm : forall l, Permutation (sort localeCompare l) l.
Proof.
  induction l as [|a l IH]; [reflexivity|].
  cbn [sort fold_right]. rewrite insertProp_perm. constructor. exact IH.
Qed.

Hypothesis antisymmetric :
  forall a b, localeCompare a b = Gt -> localeCompare b a <> Gt.

Lemma insertProp_hd a b l :
  notAfter localeCompare b a -> HdRel (notAfter localeCompare) b l ->
  HdRel (notAfter localeCompare) b (insertProp localeCompare a l).
Proof.
  intros Hba Hl. destruct l as [|c l]; cbn [insertProp].
  - constructor. exact Hba.
  - destruct (compareProps localeCompare a c); constructor;
      try exact Hba; inversion Hl; assumption.
Qed.

Lemma insertProp_sorted a : forall l,
  Sorted (notAfter localeCompare) l ->
  Sorted (notAfter localeCompare) (insertProp localeCompare a l).
Proof.
  induction l as [|b l IH]; intros H.
  - repeat constructor.
  - inversion H as [|? ? Hs Hh]; subst. cbn [insertProp].
    destruct (compareProps localeCompare a b) eqn:E.
    + constructor; [exact H|]. constructor.
      unfold notAfter. unfold compareProps in E. congruence.
    + constructor; [exact H|]. constructor.
      unfold notAfter. unfold compareProps in E. congruence.
    + constructor; [apply IH; exact Hs|].
      apply insertProp_hd; [|exact Hh].
      apply antisymmetric. exact E.
Qed.

Lemma sort_sorted : forall l,
  Sorted (notAfter localeCompare) (sort localeCompare l).
Proof.
  induction l as [|a l IH]; [constructor|].
  cbn [sort fold_right]. apply insertProp_sorted. exact IH.
Qed.

End SortFacts.

Lemma uniqAfter_In x : forall l seen, In x (uniqAfter seen l) -> In x l.
Proof.
  induction l as [|v l IH]; intros seen H; [exact H|].
  cbn [uniqAfter] in H. destruct seen as [w|].
  - destruct (str_eqb w v).
    + right. eapply IH. exact H.
    + destruct H as [->|H]; [left; reflexivity | right; eapply IH; exact H].
  - destruct H as [->|H]; [left; reflexivity | right; eapply IH; exact H].
Qed.

Lemma In_uniqAfter x : forall l seen,
  In x l -> seen = Some x \/ In x (uniqAfter seen l).
Proof.
  induction l as [|v l IH]; intros seen H; [destruct H|].
  cbn [uniqAfter]. destruct H as [->|H].
  - destruct seen as [w|]; [|right; left; reflexivity].
    destruct (str_eqb_spec w x) as [->|_];
      [left; reflexivity | right; left; reflexivity].
  - destruct (IH (Some v) H) as [E|Hin].
    + inversion E; subst v.
      destruct seen as [w|]; [|right; left; reflexivity].
      destruct (str_eqb_spec w x) as [->|_];
        [left; reflexivity | right; left; reflexivity].
    + destruct seen as [w|]; [destruct (str_eqb w v)|];
        right; try (right; exact Hin); exact Hin.
Qed.

Lemma uniq_In x l : In x (uniq l) <-> In x l.
Proof.
  split; [apply uniqAfter_In|].
  intros H. destruct (In_uniqAfter x l None H) as [E|Hin];
    [discriminate | exact Hin].
Qed.

Lemma uniqAfter_hd (R : str -> str -> Prop) w : forall l,
  Sorted R (w :: l) -> HdRel R w (uniqAfter (Some w) l).
Proof.
  induction l as [|v l IH]; intros H; [constructor|].
  cbn [uniqAfter]. inversion H as [|? ? Hs Hh]; subst.
  inversion Hh; subst.
  destruct (str_eqb_spec w v) as [->|_]; [apply IH; exact Hs|].
  constructor. assumption.
Qed.

Lemma uniqAfter_sorted (R : str -> str -> Prop) : forall l w,
  Sorted R (w :: l) -> Sorted R (w :: uniqAfter (Some w) l).
Proof.
  induction l as [|v l IH]; intros w H; [exact H|].
  constructor.
  - cbn [uniqAfter]. inversion H as [|? ? Hs Hh]; subst.
    destruct (str_eqb_spec w v) as [->|_].
    + specialize (IH v Hs). inversion IH; assumption.
    + apply IH. exact Hs.
  - apply uniqAfter_hd. exact H.
Qed.

Lemma uniq_sorted (R : str -> str -> Prop) l :
  Sorted R l -> Sorted R (uniq l).
Proof.
  destruct l as [|w l]; [constructor|]. apply uniqAfter_sorted.
Qed.

Lemma uniqAfter_head w l a t :
  uniqAfter (Some w) l = a :: t -> a <> w.
Proof.
  revert w. induction l as [|v l IH]; intros w H; [discriminate|].
  cbn [uniqAfter] in H. destruct (str_eqb_spec w v) as [E|Hn].
  - subst v. eapply IH. exact H.
  - inversion H; subst. congruence.
Qed.

Lemma uniqAfter_neighbours : forall l seen,
  neighboursDiffer (uniqAfter seen l).
Proof.
  induction l as [|v l IH]; intros seen pre a b post H.
  - destruct pre; discriminate.
  - assert (Hcons : forall pre a b post,
              v :: uniqAfter (Some v) l = pre ++ a :: b :: post -> a <> b).
    { clear H pre a b post. intros pre a b post H.
      destruct pre as [|x pre]; cbn [app] in H; inversion H; subst.
      - intros ->. eapply uniqAfter_head; eauto.
      - eapply IH. eassumption. }
    cbn [uniqAfter] in H. destruct seen as [w|].
    + destruct (str_eqb w v); [eapply IH; exact H | eapply Hcons; exact H].
    + eapply Hcons. exact H.
Qed.

Lemma collect_In x o :
  In x (collect o) <-> exists c, In c (concat (map snd o)) /\ In x (credit c).
Proof.
  unfold collect. rewrite in_flat_map. split.
  - intros ([k l] & Hp & Hx). cbn [snd] in Hx.
    apply in_flat_map in Hx. destruct Hx as (c & Hc & Hx).
    exists c. split; [|exact Hx].
    apply in_concat. exists l. split; [|exact Hc].
    apply in_map_iff. exists (k, l). auto.
  - intros (c & Hc & Hx). apply in_concat in Hc.
    destruct Hc as (l & Hl & Hc). apply in_map_iff in Hl.
    destruct Hl as (p & <- & Hp). exists p. split; [exact Hp|].
    apply in_flat_map. exists c. auto.
Qed.

Lemma creditList_inv cmp cs l :
  creditList cmp cs = Some l ->
  l = contributors cmp (enumerate (bucketsOf cs))
  /\ exists out, buildOutput cmp cs = Some out /\ propsOutput out = thanks l.
Proof.
  unfold creditList, buildOutput.
  destruct (report cmp cs) as [[text props]|] eqn:Hr; [|discriminate].
  cbn [option_map snd]. intros H. inversion H; subst props. split.
  - rewrite report_sections in Hr.
    destruct (categorizeAll [] cs) as [o|] eqn:Hc; [|discriminate].
    apply (categorizeAll_inv cs []) in Hc. cbn [app] in Hc. subst o.
    destruct (sections (enumerate (bucketsOf cs))); [|discriminate].
    congruence.
  - eexists. split; reflexivity.
Qed.

Lemma thanks_one x :
  thanks [x] = txt "Thanks to @, and @" ++ x ++ txt " for their contributions!".
Proof.
  unfold thanks, last, without. cbn [map List.last filter].
  rewrite str_eqb_refl. reflexivity.
Qed.

End OutputFacts.

(** ** The claims about the report *)

Module ReportClaims.

Import Chars JS Changeset Notions Output OutputFacts.

(** C8.  The report is made of sections, a heading followed by one entry
    for every changeset of the bucket, and the buckets hold every
    changeset once; an entry reads [* description revision #related],
    the related tickets joined by a comma, a blank and a hash sign; with
    no related ticket the entry ends with the hash sign alone. *)
Theorem entries_of_report (localeCompare : str -> str -> comparison)
  (changesets : list changeset) (out : output) :
  buildOutput localeCompare changesets = Some out ->
  (exists cats : list (str * list changeset),
     changesetOutput out
     = concat (map (fun p => txt "### " ++ fst p ++ [LF]
                             ++ concat (map listEntry (snd p))) cats)
     /\ Permutation (concat (map snd cats)) changesets)
  /\ (forall c, In c changesets ->
        exists pre post,
          changesetOutput out
          = pre ++ (txt "* " ++ trim (description c) ++ txt " "
                    ++ revision c ++ txt " #"
                    ++ join (txt ", #") (related c) ++ [LF]) ++ post)
  /\ (forall c, In c changesets -> related c = [] ->
        listEntry c
        = txt "* " ++ trim (description c) ++ txt " " ++ revision c
          ++ txt " #" ++ [LF])
  /\ (forall c, In c changesets -> trimmed (description c) ->
        trim (description c) = description c).
Proof.
  intros H. destruct (buildOutput_inv _ _ _ H) as (Ht & _ & Hp & _).
  split; [|split; [|split]].
  - exists (enumerate (bucketsOf changesets)). split; assumption.
  - intros c Hc.
    apply (Permutation_in _ (Permutation_sym Hp)) in Hc.
    apply in_concat in Hc. destruct Hc as (l & Hl & Hcl).
    apply in_map_iff in Hl. destruct Hl as ([k l'] & <- & Hin).
    cbn [snd] in Hcl.
    apply in_split in Hin. destruct Hin as (o1 & o2 & Ho).
    apply in_split in Hcl. destruct Hcl as (l1 & l2 & Hl).
    change (txt "* " ++ trim (description c) ++ txt " " ++ revision c
            ++ txt " #" ++ join (txt ", #") (related c) ++ [LF])
      with (listEntry c).
    rewrite Ht, Ho, concat_map_split. cbn [fst snd].
    unfold sectionText. rewrite Hl, concat_map_split.
    exists (concat (map (fun p => sectionText (fst p) (snd p)) o1)
            ++ txt "### " ++ k ++ [LF] ++ concat (map listEntry l1)).
    exists (concat (map listEntry l2)
            ++ concat (map (fun p => sectionText (fst p) (snd p)) o2)).
    unfold sectionText.
    generalize (listEntry c) (txt "### ") (concat (map listEntry l1))
      (concat (map listEntry l2)).
    intros e h a1 a2.
    generalize (concat (map (fun p : str * list changeset =>
                  h ++ fst p ++ [LF] ++ concat (map listEntry (snd p))) o1))
               (concat (map (fun p : str * list changeset =>
                  h ++ fst p ++ [LF] ++ concat (map listEntry (snd p))) o2)).
    intros b1 b2. rewrite <- !app_assoc. reflexivity.
  - intros c _ Hr. unfold listEntry. rewrite Hr. reflexivity.
  - intros c _. apply trim_id.
Qed.

Lemma entries_of_report_witness :
  exists out,
    buildOutput codeUnitCompare [noTicket] = Some out
    /\ exists pre post,
         changesetOutput out
         = pre ++ (txt "* Fix it. [1234] #" ++ [LF]) ++ post.
Proof.
  eexists. split; [reflexivity|].
  destruct (entries_of_report codeUnitCompare [noTicket] _ eq_refl)
    as (_ & H & _).
  exact (H noTicket (or_introl eq_refl)).
Defined.

(** C2, as the code has it.  When every changeset has a component and no
    key is an array index or a name that objects inherit, the report has
    one section for every key, in the order in which the keys first
    occur, and a section holds the changesets of its key in the order of
    the traversal; the key of a changeset is its list of components
    joined by commas, which for a single component is that component. *)
Theorem buckets_in_first_occurrence_order
  (localeCompare : str -> str -> comparison) (changesets : list changeset) :
  Forall (fun c => component c <> []
                   /\ inherited (keyOf c) = false
                   /\ arrayIndex (keyOf c) = false) changesets ->
  (exists out,
     buildOutput localeCompare changesets = Some out
     /\ changesetOutput out
        = concat (map (fun k => sectionText k (bucket k changesets))
                      (firsts (map keyOf changesets))))
  /\ (forall c, In c changesets ->
        keyOf c = join (txt ",") (component c)
        /\ forall x, component c = [x] -> keyOf c = x).
Proof.
  intros H. split.
  - assert (Hi : Forall (fun c => inherited (keyOf c) = false) changesets).
    { eapply Forall_impl; [|exact H]. cbn beta. tauto. }
    assert (Ha : Forall (fun p => arrayIndex (fst p) = false)
                   (bucketsOf changesets)).
    { unfold bucketsOf. rewrite Forall_map. cbn [fst].
      apply Forall_forall. intros k Hk.
      apply firsts_In, in_map_iff in Hk. destruct Hk as (c & <- & Hc).
      rewrite Forall_forall in H. apply (H c Hc). }
    rewrite buildOutput_sections.
    change (categorizeAll [] changesets)
      with (categorizeAll (bucketsOf []) changesets).
    rewrite (categorizeAll_bucketsOf changesets [] Hi). cbn [app].
    rewrite (enumerate_plain _ Ha).
    rewrite (sections_wellFilled _ (bucketsOf_wellFilled changesets)).
    eexists. split; [reflexivity|]. cbn [changesetOutput].
    unfold bucketsOf. rewrite map_map. reflexivity.
  - intros c _. split; [reflexivity|]. intros x Hx.
    unfold keyOf. rewrite Hx. reflexivity.
Qed.

Lemma buckets_in_first_occurrence_order_witness :
  exists out,
    buildOutput codeUnitCompare [editorOnly; mediaOnly] = Some out
    /\ changesetOutput out
       = sectionText (txt "Editor") [editorOnly]
         ++ sectionText (txt "Media") [mediaOnly].
Proof.
  assert (H : Forall (fun c => component c <> []
                               /\ inherited (keyOf c) = false
                               /\ arrayIndex (keyOf c) = false)
                [editorOnly; mediaOnly]).
  { repeat constructor; discriminate. }
  destruct (buckets_in_first_occurrence_order codeUnitCompare _ H)
    as ((out & Hout & Htext) & _).
  exists out. split; [exact Hout|]. rewrite Htext.
  vm_compute. reflexivity.
Defined.

(** C2, as stated, fails: a changeset with two components is filed under
    both names joined, not under the first one. *)
Lemma bucket_key_joins_components :
  option_map changesetOutput (buildOutput codeUnitCompare [editorAndMedia])
  = Some (txt "### Editor,Media" ++ [LF] ++ listEntry editorAndMedia)
  /\ nth_error (component editorAndMedia) 0 = Some (txt "Editor")
  /\ option_map changesetOutput (buildOutput codeUnitCompare [editorAndMedia])
     <> Some (txt "### Editor" ++ [LF] ++ listEntry editorAndMedia).
Proof. vm_compute. repeat split. discriminate. Qed.

(** C3, as the code has it.  The credit list holds exactly the authors and
    props of the changesets; it is sorted without regard to case, and a
    name is dropped only when it is the very same string as the name
    before it, so that names that differ in case all stay. *)
Theorem credits_sorted_and_deduplicated
  (localeCompare : str -> str -> comparison) (changesets : list changeset)
  (out : output) :
  (forall a b, localeCompare a b = Gt -> localeCompare b a <> Gt) ->
  buildOutput localeCompare changesets = Some out ->
  exists credits,
    creditList localeCompare changesets = Some credits
    /\ propsOutput out = thanks credits
    /\ (forall x, In x credits
                  <-> exists c, In c changesets /\ In x (author c :: props c))
    /\ Sorted (notAfter localeCompare) credits
    /\ neighboursDiffer credits.
Proof.
  intros Hanti H.
  destruct (buildOutput_inv _ _ _ H) as (_ & Hp & Hperm & Hcl).
  exists (contributors localeCompare (enumerate (bucketsOf changesets))).
  split; [exact Hcl|split; [exact Hp|split; [|split]]].
  - intros x. unfold contributors.
    rewrite uniq_In.
    split.
    + intros Hx. apply (Permutation_in _ (sort_perm _ _)) in Hx.
      apply collect_In in Hx. destruct Hx as (c & Hc & Hx).
      exists c. split; [|exact Hx]. eapply Permutation_in; eassumption.
    + intros (c & Hc & Hx).
      apply (Permutation_in _ (Permutation_sym (sort_perm _ _))).
      apply collect_In. exists c. split; [|exact Hx].
      eapply Permutation_in; [symmetry|]; eassumption.
  - apply uniq_sorted, sort_sorted. exact Hanti.
  - apply uniqAfter_neighbours.
Qed.

Lemma codeUnitCompare_antisymmetric a b :
  codeUnitCompare a b = Gt -> codeUnitCompare b a <> Gt.
Proof.
  unfold codeUnitCompare. rewrite String.compare_antisym.
  destruct (String.compare _ _); simpl; congruence.
Qed.

Lemma credits_sorted_and_deduplicated_witness :
  exists out credits,
    buildOutput codeUnitCompare [bobAliceBob] = Some out
    /\ credits = [txt "alice"; txt "bob"; txt "Bob"]
    /\ propsOutput out = thanks credits
    /\ Sorted (notAfter codeUnitCompare) credits
    /\ neighboursDiffer credits.
Proof.
  eexists.
  destruct (credits_sorted_and_deduplicated codeUnitCompare
              [bobAliceBob] _ codeUnitCompare_antisymmetric eq_refl)
    as (credits & Hc & Hp & _ & Hs & Hn).
  exists credits. split; [reflexivity|].
  split; [vm_compute in Hc; injection Hc as <-; reflexivity|].
  repeat split; assumption.
Defined.

(** C3, as stated, fails: bob and Bob are both kept, so that three names
    are thanked. *)
Lemma bob_and_Bob_both_credited :
  creditList codeUnitCompare [bobAliceBob]
  = Some [txt "alice"; txt "bob"; txt "Bob"]
  /\ option_map propsOutput (buildOutput codeUnitCompare [bobAliceBob])
     = Some (txt "Thanks to @alice, @bob, and @Bob for their contributions!")
  /\ option_map propsOutput (buildOutput codeUnitCompare [bobAliceBob])
     <> Some (txt "Thanks to @alice, and @bob for their contributions!")
  /\ option_map propsOutput (buildOutput codeUnitCompare [bobAliceBob])
     <> Some (txt "Thanks to @alice, and @Bob for their contributions!").
Proof. vm_compute. repeat split; discriminate. Qed.

(** C4, as the code has it.  A credit list of one name is rendered with
    the same format as any other: nothing stands before the comma. *)
Theorem single_credit_line (localeCompare : str -> str -> comparison)
  (changesets : list changeset) (x : str) :
  creditList localeCompare changesets = Some [x] ->
  exists out,
    buildOutput localeCompare changesets = Some out
    /\ propsOutput out
       = txt "Thanks to @, and @" ++ x ++ txt " for their contributions!".
Proof.
  intros H. destruct (creditList_inv _ _ _ H) as (_ & out & Ho & Hp).
  exists out. split; [exact Ho|]. rewrite Hp. apply thanks_one.
Qed.

Lemma single_credit_line_witness :
  exists out,
    buildOutput codeUnitCompare [aliceAlone] = Some out
    /\ propsOutput out
       = txt "Thanks to @, and @Alice for their contributions!".
Proof.
  exact (single_credit_line codeUnitCompare [aliceAlone] (txt "Alice")
           eq_refl).
Defined.

(** C4, as stated, fails: the line for Alice alone is not the one with
    her name only. *)
Lemma alice_alone_after_a_comma :
  option_map propsOutput (buildOutput codeUnitCompare [aliceAlone])
  = Some (txt "Thanks to @, and @Alice for their contributions!")
  /\ option_map propsOutput (buildOutput codeUnitCompare [aliceAlone])
     <> Some (txt "Thanks to @Alice for their contributions!").
Proof. vm_compute. split; [reflexivity | discriminate]. Qed.

End ReportClaims.

(** ** The event loop of gatherComponents *)

Module GatherFacts.

Import Chars JS Changeset Notions Gather.

Section Network.

Variable request : str -> response.
Variable componentCell : str -> str.

Local Abbreviation receive := (receive request componentCell).
Local Abbreviation deliver := (deliver request componentCell).
Local Abbreviation step := (step request componentCell).
Local Abbreviation steps := (steps request componentCell).

(** *** Lists updated at an index *)

Lemma update_length (A : Type) (f : A -> A) : forall l i,
  length (update i f l) = length l.
Proof.
  induction l as [|x l IH]; intros [|i]; cbn [update length]; auto.
Qed.

Lemma update_nth_same (f : nat -> nat) : forall l i,
  i < length l -> nth i (update i f l) 0 = f (nth i l 0).
Proof.
  induction l as [|x l IH]; intros [|i] H; cbn [length] in H;
    try lia; cbn [update nth]; [reflexivity|].
  apply IH. lia.
Qed.

Lemma update_nth_other (f : nat -> nat) : forall l i j,
  i <> j -> nth j (update i f l) 0 = nth j l 0.
Proof.
  induction l as [|x l IH]; intros [|i] [|j] H; cbn [update nth];
    try reflexivity; try lia.
  apply IH. lia.
Qed.

Lemma relatedCount_update (f : changeset -> changeset) :
  (forall c, related (f c) = related c) ->
  forall l i j, relatedCount (update i f l) j = relatedCount l j.
Proof.
  intros Hf. unfold relatedCount.
  induction l as [|x l IH]; intros [|i] [|j]; cbn [update nth_error];
    try reflexivity.
  - rewrite Hf. reflexivity.
  - apply IH.
Qed.

Lemma remove_nth_length (A : Type) : forall (l : list A) k x,
  nth_error l k = Some x -> S (length (remove_nth k l)) = length l.
Proof.
  induction l as [|y l IH]; intros [|k] x H; cbn [nth_error] in H;
    try discriminate; cbn [remove_nth length]; [reflexivity|].
  f_equal. eapply IH. exact H.
Qed.

Lemma remove_nth_Forall (A : Type) (P : A -> Prop) : forall (l : list A) k,
  Forall P l -> Forall P (remove_nth k l).
Proof.
  induction l as [|y l IH]; intros [|k] H; cbn [remove_nth];
    try assumption; inversion H; subst; [assumption|].
  constructor; [assumption | apply IH; assumption].
Qed.

Lemma pendingOf_remove : forall p k i t j,
  nth_error p k = Some (i, t) ->
  pendingOf j (remove_nth k p) + (if i =? j then 1 else 0) = pendingOf j p.
Proof.
  unfold pendingOf.
  induction p as [|r p IH]; intros [|k] i t j H; cbn [nth_error] in H;
    try discriminate.
  - inversion H; subst r. cbn [remove_nth filter fst].
    destruct (i =? j); cbn [length]; lia.
  - cbn [remove_nth filter]. specialize (IH k i t j H).
    destruct (fst r =? j); cbn [length]; lia.
Qed.

(** *** The tally of finished changesets *)

Lemma doneCount_update (f : changeset -> changeset) :
  (forall c, related (f c) = related c) ->
  forall l counts i,
    length counts = length l -> i < length l ->
    nth i counts 0 < relatedCount l i ->
    doneCount (update i f l) (update i S counts)
    = doneCount l counts
      + (if relatedCount l i <=? S (nth i counts 0) then 1 else 0).
Proof.
  intros Hf. unfold relatedCount.
  induction l as [|c l IH]; intros [|n counts] [|i] Hlen Hi Hlt;
    cbn [length] in *; try lia.
  - cbn [update doneCount nth nth_error] in *. rewrite Hf.
    destruct (length (related c) <=? n) eqn:E1;
      [apply Nat.leb_le in E1; lia|].
    destruct (length (related c) <=? S n); lia.
  - cbn [update doneCount nth nth_error] in *.
    rewrite (IH counts i) by lia. lia.
Qed.

Lemma doneCount_all : forall l counts,
  length counts = length l ->
  (forall i, i < length l -> nth i counts 0 = relatedCount l i) ->
  doneCount l counts = length l.
Proof.
  unfold relatedCount.
  induction l as [|c l IH]; intros [|n counts] Hlen H;
    cbn [length] in *; try lia; [reflexivity|].
  cbn [doneCount]. pose proof (H 0 ltac:(lia)) as H0.
  cbn [nth nth_error] in H0. subst n. rewrite Nat.leb_refl.
  rewrite (IH counts); [reflexivity | lia |].
  intros i Hi. apply (H (S i)). lia.
Qed.

Lemma doneCount_idle : forall l,
  doneCount l (map (fun _ => 0) l) = length (filter idle l).
Proof.
  induction l as [|c l IH]; [reflexivity|].
  cbn [map doneCount filter]. rewrite IH. unfold idle.
  destruct (related c); reflexivity.
Qed.

(** *** The requests at the start *)

Lemma requestsFrom_range : forall l s,
  Forall (fun r => s <= fst r < s + length l) (requestsFrom s l).
Proof.
  induction l as [|c l IH]; intros s; cbn [requestsFrom]; [constructor|].
  apply Forall_app. split.
  - unfold requestsOf. rewrite Forall_map. apply Forall_forall.
    intros t _. cbn [fst length]. lia.
  - eapply Forall_impl; [|apply (IH (S s))].
    cbn beta. intros r. cbn [length]. lia.
Qed.

Lemma pendingOf_outside j : forall p,
  Forall (fun r => fst r <> j) p -> pendingOf j p = 0.
Proof.
  unfold pendingOf. induction 1 as [|r p Hr _ IH]; [reflexivity|].
  cbn [filter]. destruct (Nat.eqb_spec (fst r) j); [contradiction|exact IH].
Qed.

Lemma pendingOf_requestsOf i j c :
  pendingOf j (requestsOf i c) = if i =? j then length (related c) else 0.
Proof.
  unfold pendingOf, requestsOf.
  induction (related c) as [|t l IH]; [destruct (i =? j); reflexivity|].
  cbn [map filter fst]. destruct (i =? j); cbn [length]; rewrite IH;
    reflexivity.
Qed.

Lemma pendingOf_app j p q :
  pendingOf j (p ++ q) = pendingOf j p + pendingOf j q.
Proof. unfold pendingOf. rewrite filter_app, length_app. reflexivity. Qed.

Lemma pendingOf_requestsFrom : forall l s i,
  pendingOf (s + i) (requestsFrom s l) = relatedCount l i.
Proof.
  unfold relatedCount.
  induction l as [|c l IH]; intros s i; cbn [requestsFrom].
  - destruct i; reflexivity.
  - rewrite pendingOf_app, pendingOf_requestsOf. destruct i as [|i].
    + rewrite Nat.add_0_r, Nat.eqb_refl. cbn [nth_error].
      rewrite pendingOf_outside; [lia|].
      eapply Forall_impl; [|apply (requestsFrom_range l (S s))].
      cbn beta. intros r. lia.
    + destruct (Nat.eqb_spec s (s + S i)); [lia|].
      cbn [nth_error plus]. rewrite <- (IH (S s) i). f_equal. lia.
Qed.

Lemma nth_zeros (A : Type) : forall (l : list A) i,
  nth i (map (fun _ => 0) l) 0 = 0.
Proof. induction l as [|x l IH]; intros [|i]; cbn [map nth]; auto. Qed.

Lemma start_consistent l : consistent (start l).
Proof.
  constructor; cbn [start changesets pending completed finished gathered].
  - apply length_map.
  - eapply Forall_impl; [|apply (requestsFrom_range l 0)].
    cbn beta. intros r. lia.
  - intros i Hi. rewrite nth_zeros.
    apply (pendingOf_requestsFrom l 0 i).
  - symmetry. apply doneCount_idle.
  - reflexivity.
Qed.

(** *** One answer *)

(** The changesets after an answer: a component more on changeset [i]
    when the answer is a page with status 200, and no change otherwise. *)
Lemma receive_changesets i ticket st :
  changesets (receive i ticket st)
  = match accepted (request (ticketPath ++ ticket)) with
    | Some body =>
        update i (pushComponent (trim (componentCell body))) (changesets st)
    | None => changesets st
    end.
Proof. reflexivity. Qed.

Lemma receive_length i ticket st :
  length (changesets (receive i ticket st)) = length (changesets st).
Proof.
  rewrite receive_changesets.
  destruct (accepted (request (ticketPath ++ ticket))) as [body|];
    [apply update_length | reflexivity].
Qed.

Lemma receive_relatedCount i ticket st j :
  relatedCount (changesets (receive i ticket st)) j
  = relatedCount (changesets st) j.
Proof.
  rewrite receive_changesets.
  destruct (accepted (request (ticketPath ++ ticket))) as [body|];
    [|reflexivity].
  apply relatedCount_update. intros c. reflexivity.
Qed.

Lemma update_id (A : Type) : forall (l : list A) i,
  update i (fun x => x) l = l.
Proof.
  induction l as [|x l IH]; intros [|i]; cbn [update]; try reflexivity.
  f_equal. apply IH.
Qed.

Lemma receive_doneCount i ticket st :
  length (completed st) = length (changesets st) ->
  i < length (changesets st) ->
  nth i (completed st) 0 < relatedCount (changesets st) i ->
  doneCount (changesets (receive i ticket st)) (update i S (completed st))
  = doneCount (changesets st) (completed st)
    + (if relatedCount (changesets st) i <=? S (nth i (completed st) 0)
       then 1 else 0).
Proof.
  intros Hlen Hi Hlt. rewrite receive_changesets.
  destruct (accepted (request (ticketPath ++ ticket))) as [body|].
  - apply doneCount_update; auto.
  - rewrite <- (update_id _ (changesets st) i) at 1.
    apply doneCount_update; auto.
Qed.

Lemma receive_completed i ticket st :
  completed (receive i ticket st) = update i S (completed st).
Proof. reflexivity. Qed.

Lemma receive_finished i ticket st :
  finished (receive i ticket st)
  = if relatedCount (changesets (receive i ticket st)) i
       <=? nth i (update i S (completed st)) 0
    then S (finished st) else finished st.
Proof. reflexivity. Qed.

Lemma receive_gathered i ticket st :
  gathered (receive i ticket st)
  = gathered st
    || ((relatedCount (changesets (receive i ticket st)) i
         <=? nth i (update i S (completed st)) 0)
        && (length (changesets (receive i ticket st))
            <=? finished (receive i ticket st))).
Proof. reflexivity. Qed.

Lemma deliver_inv k st st' :
  deliver k st = Some st' ->
  exists i ticket,
    nth_error (pending st) k = Some (i, ticket)
    /\ st' = mkState (changesets (receive i ticket st))
                     (remove_nth k (pending st))
                     (completed (receive i ticket st))
                     (finished (receive i ticket st))
                     (gathered (receive i ticket st)).
Proof.
  unfold Gather.deliver.
  destruct (nth_error (pending st) k) as [[i ticket]|]; [|discriminate].
  intros H. injection H as <-. exists i, ticket. split; reflexivity.
Qed.

Lemma deliver_consistent k st st' :
  consistent st -> deliver k st = Some st' -> consistent st'.
Proof.
  intros [Hlen Hb Hsum Hfin Hgat] H.
  apply deliver_inv in H. destruct H as (i & ticket & Hk & ->).
  assert (Hi : i < length (changesets st)).
  { rewrite Forall_forall in Hb.
    apply (Hb (i, ticket)). eapply nth_error_In. exact Hk. }
  assert (Hpos : 0 < pendingOf i (pending st)).
  { pose proof (pendingOf_remove _ _ _ _ i Hk) as Hr.
    rewrite Nat.eqb_refl in Hr. lia. }
  pose proof (Hsum i Hi) as Hsi.
  constructor; cbn [changesets pending completed finished gathered].
  - rewrite receive_length, receive_completed, update_length. exact Hlen.
  - rewrite receive_length. apply remove_nth_Forall. exact Hb.
  - intros j Hj. rewrite receive_length in Hj.
    rewrite receive_relatedCount, receive_completed.
    pose proof (pendingOf_remove _ _ _ _ j Hk) as Hr.
    specialize (Hsum j Hj).
    destruct (Nat.eqb_spec i j) as [<-|Hn].
    + rewrite update_nth_same by lia. lia.
    + rewrite update_nth_other by exact Hn. lia.
  - rewrite receive_finished, receive_completed.
    rewrite receive_doneCount by (auto; lia).
    rewrite receive_relatedCount.
    rewrite update_nth_same by lia. rewrite Hfin.
    destruct (relatedCount (changesets st) i <=? S (nth i (completed st) 0));
      lia.
  - rewrite receive_gathered, receive_finished, receive_length, Hgat.
    destruct (relatedCount (changesets (receive i ticket st)) i
              <=? nth i (update i S (completed st)) 0); cbn [andb].
    + destruct (Nat.leb_spec (length (changesets st)) (finished st));
        destruct (Nat.leb_spec (length (changesets st)) (S (finished st)));
        cbn [orb]; try reflexivity; lia.
    + rewrite orb_false_r. reflexivity.
Qed.

Lemma steps_consistent st st' :
  steps st st' -> consistent st -> consistent st'.
Proof.
  induction 1 as [st|st st' st'' Hstep _ IH]; intros Hc; [exact Hc|].
  apply IH. destruct Hstep as [k st st' Hd].
  eapply deliver_consistent; eassumption.
Qed.

(** Once every request is answered, [gatherCallback] was called. *)
Lemma consistent_done st :
  consistent st -> pending st = [] -> gathered st = true.
Proof.
  intros [Hlen _ Hsum Hfin Hgat] Hp. rewrite Hgat, Hfin.
  rewrite doneCount_all; [apply Nat.leb_refl | exact Hlen |].
  intros i Hi. specialize (Hsum i Hi). rewrite Hp in Hsum.
  cbn in Hsum. lia.
Qed.

(** While a request is in flight, its answer can arrive, and then one
    request less is in flight. *)
Lemma deliver_progress k st :
  k < length (pending st) -> exists st', deliver k st = Some st'.
Proof.
  intros H. unfold Gather.deliver.
  destruct (nth_error (pending st) k) as [[i t]|] eqn:E.
  - eexists. reflexivity.
  - apply nth_error_None in E. lia.
Qed.

Lemma deliver_pending k st st' :
  deliver k st = Some st' -> S (length (pending st')) = length (pending st).
Proof.
  intros H. apply deliver_inv in H. destruct H as (i & ticket & Hk & ->).
  cbn [pending]. eapply remove_nth_length. exact Hk.
Qed.

(** Answering the requests one after the other ends the run. *)
Lemma run_to_the_end : forall n st,
  length (pending st) = n ->
  exists st', run request componentCell (repeat 0 n) st = Some st'
              /\ pending st' = [].
Proof.
  induction n as [|n IH]; intros st Hn.
  - exists st. split; [reflexivity|].
    destruct (pending st); [reflexivity | discriminate].
  - destruct (deliver_progress 0 st) as [st1 H1]; [lia|].
    pose proof (deliver_pending _ _ _ H1) as Hp.
    destruct (IH st1) as (st' & Hr & He); [lia|].
    exists st'. split; [|exact He].
    cbn [repeat Gather.run]. rewrite H1. exact Hr.
Qed.

(** A failed fetch, or an answer with another status than 200, changes
    no changeset. *)
Lemma receive_failure i ticket st :
  (forall body, request (ticketPath ++ ticket) <> Answer 200 body) ->
  changesets (receive i ticket st) = changesets st.
Proof.
  intros H. rewrite receive_changesets.
  destruct (request (ticketPath ++ ticket)) as [|code body] eqn:E;
    [reflexivity|].
  cbn [accepted]. destruct (Nat.eqb_spec code 200) as [->|_]; [|reflexivity].
  exfalso. apply (H body). reflexivity.
Qed.

(** *** A changeset whose fetches all fail *)

Lemma update_nth_error_other (A : Type) (f : A -> A) : forall l i j,
  i <> j -> nth_error (update i f l) j = nth_error l j.
Proof.
  induction l as [|x l IH]; intros [|i] [|j] H; cbn [update nth_error];
    try reflexivity; try lia.
  apply IH. lia.
Qed.

Lemma remove_nth_In (A : Type) (x : A) : forall l k,
  In x (remove_nth k l) -> In x l.
Proof.
  induction l as [|y l IH]; intros [|k] H; cbn [remove_nth] in H;
    try (destruct H; fail).
  - right. exact H.
  - destruct H as [->|H]; [left; reflexivity | right; eapply IH; exact H].
Qed.

Lemma requestsFrom_In : forall l s i ticket,
  In (i, ticket) (requestsFrom s l) ->
  exists c, nth_error l (i - s) = Some c /\ In ticket (related c) /\ s <= i.
Proof.
  induction l as [|c l IH]; intros s i ticket H; cbn [requestsFrom] in H;
    [destruct H|].
  apply in_app_or in H. destruct H as [H|H].
  - unfold requestsOf in H. apply in_map_iff in H.
    destruct H as (t & E & Ht). inversion E; subst.
    exists c. rewrite Nat.sub_diag. repeat split; auto.
  - apply IH in H. destruct H as (c' & Hc & Ht & Hs).
    exists c'. replace (i - s) with (S (i - S s)) by lia.
    repeat split; auto; lia.
Qed.

Lemma deaf_untouched l st :
  steps (start l) st ->
  (forall r, In r (pending st) ->
     exists c, nth_error l (fst r) = Some c /\ In (snd r) (related c))
  /\ (forall i c, nth_error l i = Some c -> deaf request c ->
        nth_error (changesets st) i = Some c).
Proof.
  remember (start l) as st0 eqn:E0. intros H.
  assert (Hstart :
    (forall r, In r (pending st0) ->
       exists c, nth_error l (fst r) = Some c /\ In (snd r) (related c))
    /\ (forall i c, nth_error l i = Some c -> deaf request c ->
          nth_error (changesets st0) i = Some c)).
  { subst st0. split.
    - intros [i ticket] Hr. cbn [start pending] in Hr.
      apply requestsFrom_In in Hr. destruct Hr as (c & Hc & Ht & _).
      rewrite Nat.sub_0_r in Hc. exists c. auto.
    - intros i c Hc _. exact Hc. }
  clear E0. induction H as [st|st st' st'' Hstep _ IH]; [exact Hstart|].
  apply IH. clear IH. destruct Hstart as [Hp Hc].
  destruct Hstep as [k st st' Hd].
  apply deliver_inv in Hd. destruct Hd as (i & ticket & Hk & ->).
  cbn [changesets pending]. split.
  - intros r Hr. apply Hp. eapply remove_nth_In. exact Hr.
  - intros j c Hj Hdeaf. rewrite receive_changesets.
    destruct (accepted (request (ticketPath ++ ticket))) as [body|] eqn:Ea;
      [|apply Hc; assumption].
    destruct (Nat.eq_dec i j) as [->|Hn].
    + exfalso. apply nth_error_In in Hk. apply Hp in Hk.
      destruct Hk as (c' & Hc' & Ht). cbn [fst snd] in *.
      rewrite Hj in Hc'. inversion Hc'; subst c'.
      rewrite (Hdeaf ticket Ht) in Ea. discriminate.
    + rewrite update_nth_error_other by exact Hn. apply Hc; assumption.
Qed.

(** Whatever the answers and their order, the run reaches
    [gatherCallback]. *)
Lemma gather_completes l st :
  steps (start l) st -> pending st = [] -> gathered st = true.
Proof.
  intros H. apply consistent_done.
  eapply steps_consistent; [exact H | apply start_consistent].
Qed.

End Network.

End GatherFacts.

(** ** The claim about failed fetches *)

Module GatherClaims.

Import Chars JS Changeset Notions Gather Output.

(** C7, on a run.  The ticket of the first changeset cannot be fetched,
    that of the second one can.  In whatever order the answers arrive,
    the callback of the stage is called and the first changeset is left
    as it was, without a component.  With the answers in the order of the
    requests, the second changeset gets its component and both are
    rendered; but the section of the first changeset has a heading
    without a name, and the word Misc does not occur in the report. *)
Theorem failed_fetch_gives_nameless_section :
  (forall st,
     steps onlyTicket8 wholeBody (start [forTicket7; forTicket8]) st ->
     pending st = [] ->
     gathered st = true /\ nth_error (changesets st) 0 = Some forTicket7)
  /\ exists st out,
       gatherComponents onlyTicket8 wholeBody [0; 0] [forTicket7; forTicket8]
       = Some st
       /\ pending st = [] /\ gathered st = true
       /\ map component (changesets st) = [[]; [txt "Media"]]
       /\ buildOutput codeUnitCompare (changesets st) = Some out
       /\ changesetOutput out
          = txt "### " ++ [LF] ++ txt "* Fix it. [1234] #7" ++ [LF]
            ++ txt "### Media" ++ [LF] ++ txt "* Fix that. [1235] #8" ++ [LF]
       /\ contains (txt "Misc") (changesetOutput out) = false.
Proof.
  split.
  - intros st H Hp. split.
    + eapply GatherFacts.gather_completes; eassumption.
    + destruct (GatherFacts.deaf_untouched _ _ _ _ H) as [_ Hd].
      apply Hd; [reflexivity|].
      intros ticket [<-|[]]. reflexivity.
  - eexists. eexists. split; [vm_compute; reflexivity|].
    split; [reflexivity|]. split; [reflexivity|]. split; [reflexivity|].
    split; [vm_compute; reflexivity|].
    split; vm_compute; reflexivity.
Qed.

End GatherClaims.

(** ** Patterns on texts of a known shape *)

Module PatternFacts.

Import Chars RegExp JS Notions Further RegExpFacts DescriptionFacts ParseLogs.

Lemma everywhere_spec P : everywhere P = true -> forall x, P x = true.
Proof.
  unfold everywhere. rewrite forallb_forall. intros H x. apply H.
  unfold allCodeUnits. rewrite <- (ascii_nat_embedding x).
  apply in_map. apply in_seq. pose proof (nat_ascii_bounded x). lia.
Qed.

(** Under the [i] flag a letter matches the code units with the same
    lower case. *)
Lemma ci_lower c x :
  letter c = true -> ci c x = Ascii.eqb (lower x) (lower c).
Proof.
  assert (H : everywhere
                (fun c => implb (letter c)
                   (everywhere
                      (fun x => Bool.eqb (ci c x)
                                  (Ascii.eqb (lower x) (lower c)))))
              = true) by (vm_compute; reflexivity).
  intros Hc. pose proof (everywhere_spec _ H c) as H1. cbv beta in H1.
  rewrite Hc in H1. cbn [implb] in H1.
  pose proof (everywhere_spec _ H1 x) as H2. cbv beta in H2.
  apply Bool.eqb_prop in H2. exact H2.
Qed.

(** *** The equations of the matcher *)

Lemma matchHere_many_cons c r x s :
  matchHere (Many c :: r) (x :: s)
  = if c x
    then orElse (grow x (matchHere (Many c :: r) s))
                (piece [] (matchHere r (x :: s)))
    else piece [] (matchHere r (x :: s)).
Proof. reflexivity. Qed.

Lemma matchHere_many_nil c r :
  matchHere (Many c :: r) [] = piece [] (matchHere r []).
Proof. reflexivity. Qed.

Lemma matchHere_open r s : matchHere (Open :: r) s = piece [] (matchHere r s).
Proof. reflexivity. Qed.

Lemma matchHere_close r s :
  matchHere (Close :: r) s = piece [] (matchHere r s).
Proof. reflexivity. Qed.

(** Group 1 up to the end of the line. *)
Lemma rest_of_line : forall s,
  matchHere [Many dot; Close] s = Some ([span dot s; []], afterSpan dot s).
Proof.
  induction s as [|x s IH]; [reflexivity|].
  rewrite matchHere_many_cons, IH. cbn [span afterSpan].
  destruct (dot x); reflexivity.
Qed.

Lemma span_line line post :
  oneLine line = true -> lineEnds post = true ->
  span dot (line ++ post) = line /\ afterSpan dot (line ++ post) = post.
Proof.
  unfold oneLine. induction line as [|x line IH]; intros Hl Hp.
  - cbn [app]. destruct post as [|y post]; [split; reflexivity|].
    cbn [lineEnds] in Hp. cbn [span afterSpan]. unfold dot. rewrite Hp.
    split; reflexivity.
  - cbn [forallb] in Hl. apply andb_prop in Hl. destruct Hl as [Hx Hl].
    cbn [app span afterSpan]. rewrite Hx.
    destruct (IH Hl Hp) as [-> ->]. split; reflexivity.
Qed.

(** *** Words *)

Lemma word_hit r : forall W w s,
  length w = length W -> startsLower W w = true ->
  forallb letter W = true ->
  matchHere (ofWord W ++ r) (w ++ s)
  = prepend (map (fun x => [x]) w) (matchHere r s).
Proof.
  induction W as [|c W IH]; intros [|x w] s Hlen Hs Hl;
    try discriminate.
  - cbn [ofWord map app prepend]. destruct (matchHere r s) as [[qs rest]|];
      reflexivity.
  - cbn [startsLower] in Hs. apply andb_prop in Hs. destruct Hs as [Hx Hs].
    cbn [forallb] in Hl. apply andb_prop in Hl. destruct Hl as [Hc Hl].
    cbn [ofWord map app]. rewrite matchHere_one, (ci_lower c x Hc), Hx.
    fold (ofWord W). rewrite IH by (auto; cbn [length] in Hlen; lia).
    destruct (matchHere r s) as [[qs rest]|]; reflexivity.
Qed.

Lemma word_inv r : forall W s ps rest,
  forallb letter W = true ->
  matchHere (ofWord W ++ r) s = Some (ps, rest) ->
  startsLower W s = true.
Proof.
  induction W as [|c W IH]; intros s ps rest Hl H; [reflexivity|].
  cbn [forallb] in Hl. apply andb_prop in Hl. destruct Hl as [Hc Hl].
  cbn [ofWord map app] in H. destruct s as [|x s]; [discriminate|].
  rewrite matchHere_one, (ci_lower c x Hc) in H.
  destruct (Ascii.eqb (lower x) (lower c)) eqn:Hx; [|discriminate].
  apply piece_inv in H. destruct H as (ps' & _ & H).
  cbn [startsLower]. rewrite Hx. cbn [andb]. eapply IH; eassumption.
Qed.

Lemma lower_word W : forall w,
  toLowerCase w = toLowerCase W ->
  length w = length W /\ startsLower W w = true.
Proof.
  unfold toLowerCase. induction W as [|c W IH]; intros [|x w] H;
    try discriminate; [split; reflexivity|].
  cbn [map] in H. inversion H as [[Hx Hw]].
  destruct (IH w Hw) as [Hlen Hs]. split; [cbn [length]; lia|].
  cbn [startsLower]. rewrite Hx, Hs.
  destruct (Ascii.eqb_spec (lower c) (lower c)); [reflexivity|congruence].
Qed.

(** *** Clauses: a separator and a word *)

Lemma clause_inv seps W tail s ps rest :
  forallb letter W = true ->
  matchHere (One seps :: ofWord W ++ tail) s = Some (ps, rest) ->
  clauseAt seps W s = true.
Proof.
  intros Hl H. destruct s as [|c s]; [discriminate|].
  rewrite matchHere_one in H. cbn [clauseAt].
  destruct (seps c); [|discriminate].
  apply piece_inv in H. destruct H as (ps' & _ & H).
  cbn [andb]. eapply word_inv; eassumption.
Qed.

Lemma startsLower_app : forall W q c0 X,
  startsLower W (q ++ c0 :: X) = true ->
  startsLower W q = true \/ In (lower c0) (map lower W).
Proof.
  induction W as [|c W IH]; intros q c0 X H; [left; reflexivity|].
  destruct q as [|x q]; cbn [app startsLower] in H;
    apply andb_prop in H; destruct H as [Hx H].
  - right. left. destruct (Ascii.eqb_spec (lower c0) (lower c)); congruence.
  - destruct (IH q c0 X H) as [Hq|Hin].
    + left. cbn [startsLower]. rewrite Hx, Hq. reflexivity.
    + right. right. exact Hin.
Qed.

Lemma occursAfter_suffix seps W : forall p q,
  clauseAt seps W q = true -> occursAfter seps W (p ++ q) = true.
Proof.
  induction p as [|x p IH]; intros q H.
  - cbn [app]. destruct q; cbn [occursAfter]; rewrite H; reflexivity.
  - cbn [app occursAfter]. rewrite (IH q H). apply orb_true_r.
Qed.

Lemma no_clause_before seps W pre c0 X :
  occursAfter seps W pre = false ->
  ~ In (lower c0) (map lower W) ->
  forall p q, pre = p ++ q -> q <> [] ->
              clauseAt seps W (q ++ c0 :: X) = false.
Proof.
  intros Hpre Hc0 p q -> Hq. destruct q as [|c q]; [congruence|].
  cbn [app clauseAt].
  destruct (seps c) eqn:Hs; [|reflexivity].
  destruct (startsLower W (q ++ c0 :: X)) eqn:Hw; [|reflexivity].
  exfalso. destruct (startsLower_app _ _ _ _ Hw) as [Hin|Hin];
    [|exact (Hc0 Hin)].
  assert (Hc : clauseAt seps W (c :: q) = true)
    by (cbn [clauseAt]; rewrite Hs, Hin; reflexivity).
  rewrite (occursAfter_suffix seps W p _ Hc) in Hpre. discriminate.
Qed.

(** *** The leftmost match behind a prefix that matches nowhere *)

Lemma exec_behind r s : forall pre,
  (forall p q, pre = p ++ q -> q <> [] -> matchHere r (q ++ s) = None) ->
  exec r (pre ++ s)
  = option_map (fun f => Found (pre ++ before f) (matched f) (captured f)
                           (after f))
      (exec r s).
Proof.
  induction pre as [|x pre IH]; intros H.
  - cbn [app]. destruct (exec r s) as [[b m c a]|]; reflexivity.
  - cbn [app]. rewrite exec_next by (apply (H [] (x :: pre)); [reflexivity|discriminate]).
    rewrite IH.
    + destruct (exec r s) as [[b m c a]|]; reflexivity.
    + intros p q -> Hq. apply (H (x :: p) q); [reflexivity|exact Hq].
Qed.

(** A clause pattern cuts the first clause, from its separator to the
    end of its line. *)
Lemma clause_cut seps W pre c0 w line post :
  forallb letter W = true ->
  occursAfter seps W pre = false ->
  ~ In (lower c0) (map lower W) ->
  seps c0 = true ->
  toLowerCase w = toLowerCase W ->
  oneLine line = true -> lineEnds post = true ->
  replaceFirst (One seps :: ofWord W ++ [Open; Many dot; Close]) []
    (pre ++ c0 :: w ++ line ++ post)
  = pre ++ post.
Proof.
  intros Hl Hpre Hc0 Hs Hw Hline Hpost.
  destruct (lower_word W w Hw) as [Hlen Hsw].
  destruct (span_line line post Hline Hpost) as [Hspan Hafter].
  unfold replaceFirst. rewrite exec_behind.
  - assert (Hm : matchHere (One seps :: ofWord W ++ [Open; Many dot; Close])
                   (c0 :: w ++ line ++ post)
                 = Some ([c0] :: map (fun x => [x]) w ++ [[]; line; []],
                         post)).
    { rewrite matchHere_one, Hs, (word_hit _ W w _ Hlen Hsw Hl).
      rewrite matchHere_open, rest_of_line, Hspan, Hafter. reflexivity. }
    rewrite (exec_here _ _ _ _ Hm). cbn [option_map before after expand
      flat_map app]. rewrite app_nil_r. reflexivity.
  - intros p q Hp Hq.
    destruct (matchHere _ (q ++ c0 :: w ++ line ++ post))
      as [[ps rest]|] eqn:Hm; [|reflexivity].
    apply clause_inv in Hm; [|exact Hl].
    rewrite (no_clause_before seps W pre c0 _ Hpre Hc0 p q Hp Hq) in Hm.
    discriminate.
Qed.

(** A text in which no clause starts is left as it is. *)
Lemma clause_absent seps W tail t s :
  forallb letter W = true ->
  occursAfter seps W s = false ->
  replaceFirst (One seps :: ofWord W ++ tail) t s = s.
Proof.
  intros Hl H. unfold replaceFirst.
  destruct (exec _ s) as [f|] eqn:He; [|reflexivity].
  exfalso. destruct (exec_sound _ _ _ He) as [Hs (ps & Hps & _)].
  apply clause_inv in Hps; [|exact Hl].
  rewrite Hs in H. rewrite (occursAfter_suffix seps W _ _ Hps) in H.
  discriminate.
Qed.

(** *** Markers *)

Lemma marker_here c x s :
  matchHere (marker c) (x :: s)
  = if just c x then Some ([[x]; []; span dot s; []], afterSpan dot s)
    else None.
Proof.
  unfold marker. rewrite matchHere_one. destruct (just c x); [|reflexivity].
  rewrite matchHere_open, rest_of_line. reflexivity.
Qed.

Lemma marker_absent c t : forall s,
  existsb (just c) s = false -> replaceFirst (marker c) t s = s.
Proof.
  intros s H. unfold replaceFirst.
  destruct (exec (marker c) s) as [f|] eqn:He; [|reflexivity].
  exfalso. destruct (exec_sound _ _ _ He) as [Hs (ps & Hps & _)].
  destruct (matched f ++ after f) as [|x rest] eqn:E; [discriminate|].
  rewrite marker_here in Hps. destruct (just c x) eqn:Hx; [|discriminate].
  rewrite Hs, existsb_app in H. cbn [existsb] in H. rewrite Hx in H.
  rewrite orb_true_r in H. discriminate.
Qed.

Lemma marker_found c pre s :
  existsb (just c) pre = false ->
  exec (marker c) (pre ++ c :: s)
  = Some (Found (pre ++ []) (c :: span dot s ++ []) (span dot s ++ [])
            (afterSpan dot s)).
Proof.
  intros H. rewrite exec_behind.
  - assert (Hm : matchHere (marker c) (c :: s)
                 = Some ([[c]; []; span dot s; []], afterSpan dot s)).
    { rewrite marker_here. unfold just. rewrite Ascii.eqb_refl.
      reflexivity. }
    rewrite (exec_here _ _ _ _ Hm). reflexivity.
  - intros p q -> Hq. destruct q as [|x q]; [congruence|].
    cbn [app]. rewrite marker_here.
    rewrite existsb_app in H. cbn [existsb] in H.
    destruct (just c x); [|reflexivity].
    rewrite orb_true_r in H. discriminate.
Qed.

Lemma span_oneLine n :
  oneLine n = true -> span dot n = n /\ afterSpan dot n = [].
Proof.
  intros H. pose proof (span_line n [] H eq_refl) as E.
  rewrite app_nil_r in E. exact E.
Qed.

End PatternFacts.

(** ** Extraction, field by field *)

Module ExtractionFurther.

Import Chars RegExp JS Dom Changeset Notions Further RegExpFacts
  DescriptionFacts ParseLogs PatternFacts.

Lemma span_afterSpan c : forall s, span c s ++ afterSpan c s = s.
Proof.
  induction s as [|x s IH]; [reflexivity|].
  cbn [span afterSpan]. destruct (c x); [|reflexivity].
  cbn [app]. rewrite IH. reflexivity.
Qed.

Lemma separator_not_in_Fixes c :
  fixesSeparator c = true -> ~ In (lower c) (map lower (txt "Fixes")).
Proof.
  assert (H : everywhere
                (fun c => implb (fixesSeparator c)
                   (negb (existsb (Ascii.eqb (lower c))
                            (map lower (txt "Fixes"))))) = true)
    by (vm_compute; reflexivity).
  intros Hc Hin. pose proof (everywhere_spec _ H c) as H1. cbv beta in H1.
  rewrite Hc in H1. cbn [implb] in H1. apply negb_true_iff in H1.
  assert (E : existsb (Ascii.eqb (lower c)) (map lower (txt "Fixes")) = true).
  { apply existsb_exists. exists (lower c). split; [exact Hin|].
    apply Ascii.eqb_refl. }
  rewrite E in H1. discriminate.
Qed.

Lemma newline_not_in_word W c :
  just LF c = true -> forallb letter W = true ->
  ~ In (lower c) (map lower W).
Proof.
  intros Hc Hl Hin. destruct (just_spec LF c) as [E|]; [|discriminate].
  subst c. apply in_map_iff in Hin. destruct Hin as (y & Hy & Hin).
  rewrite forallb_forall in Hl. specialize (Hl y Hin).
  assert (H : everywhere
                (fun y => implb (letter y)
                            (negb (Ascii.eqb (lower y) (lower LF)))) = true)
    by (vm_compute; reflexivity).
  pose proof (everywhere_spec _ H y) as H1. cbv beta in H1.
  rewrite Hl, Hy in H1. cbn [implb] in H1.
  rewrite Ascii.eqb_refl in H1. discriminate.
Qed.

(** X1. The revision of a changeset is the trimmed text of the revision
    cell with its first [@] and the rest of that line replaced by the rest
    of the line in square brackets: what stands before the [@] and on
    later lines is kept as it is. *)
Theorem revision_bracketed (parseFragment : str -> list node)
  (meta log : node) (pre s : str) :
  trim (texts (find (selects "td" "rev") meta)) = pre ++ "@"%char :: s ->
  existsb (just "@"%char) pre = false ->
  revision (changesetOf parseFragment meta log)
  = pre ++ txt "[" ++ span dot s ++ txt "]" ++ afterSpan dot s.
Proof.
  intros Ht Hpre. cbn [changesetOf revision]. rewrite Ht.
  unfold replaceFirst. change revisionRegex with (marker "@"%char).
  rewrite (marker_found _ _ _ Hpre).
  cbn [before after captured expand flat_map].
  generalize (span dot s), (afterSpan dot s). intros a b.
  rewrite !app_nil_r. cbn [txt list_ascii_of_string app].
  rewrite <- !app_assoc. reflexivity.
Qed.

Lemma revision_bracketed_witness :
  revision (changesetOf plainText
              (row [cell "rev" (txt " @1234 "); cell "author" (txt "al")])
              (row [cell "log" (txt "Fix.")]))
  = txt "[1234]".
Proof.
  apply (revision_bracketed plainText
           (row [cell "rev" (txt " @1234 "); cell "author" (txt "al")])
           (row [cell "log" (txt "Fix.")]) [] (txt "1234"));
    reflexivity.
Defined.

(** X2. A revision cell without [@] gives its trimmed text as the
    revision: no brackets are added. *)
Theorem revision_unmarked (parseFragment : str -> list node)
  (meta log : node) :
  existsb (just "@"%char) (trim (texts (find (selects "td" "rev") meta)))
  = false ->
  revision (changesetOf parseFragment meta log)
  = trim (texts (find (selects "td" "rev") meta)).
Proof.
  intros H. cbn [changesetOf revision].
  change revisionRegex with (marker "@"%char).
  apply marker_absent. exact H.
Qed.

Lemma revision_unmarked_witness :
  revision (changesetOf plainText
              (row [cell "rev" (txt " 1234 ")]) (row [cell "log" (txt "Fix.")]))
  = txt "1234".
Proof.
  apply (revision_unmarked plainText
           (row [cell "rev" (txt " 1234 ")]) (row [cell "log" (txt "Fix.")])).
  reflexivity.
Defined.

Lemma ticket_number : forall s,
  replaceFirst ticketRegex [Group1] s = removeFirst "#"%char s.
Proof.
  change ticketRegex with (marker "#"%char). unfold replaceFirst.
  induction s as [|x s IH]; [reflexivity|].
  pose proof (marker_here "#"%char x s) as Hm.
  cbn [removeFirst]. change (Ascii.eqb "#"%char x) with (just "#"%char x).
  destruct (just "#"%char x).
  - rewrite (exec_here _ _ _ _ Hm).
    cbn [before after captured expand flat_map group1 marker app].
    rewrite !app_nil_r. apply span_afterSpan.
  - rewrite (exec_next _ _ _ Hm), <- IH.
    destruct (exec (marker "#"%char) s) as [f|]; reflexivity.
Qed.

(** X3. The related tickets of a changeset are the ticket links of its
    log cells in document order, each given by its trimmed text without
    its first [#]; nothing else of the text is removed. *)
Theorem related_without_hash (parseFragment : str -> list node)
  (meta log : node) :
  related (changesetOf parseFragment meta log)
  = map (fun a => removeFirst "#"%char (trim (text a)))
      (flat_map (find (selects "a" "ticket"))
         (map (reAddCode parseFragment) (find (selects "td" "log") log))).
Proof.
  cbn [changesetOf related]. apply map_ext. intros a. apply ticket_number.
Qed.

(** X4. The first Fixes clause, from its separator (newline, bar, comma
    or blank) and the word in any case to the end of its line, is cut
    out of the text; what stands before it and the line break after it
    stay. *)
Theorem stripFixes_cuts_clause (pre : str) (c0 : ascii)
  (w line post : str) :
  occursAfter fixesSeparator (txt "Fixes") pre = false ->
  fixesSeparator c0 = true ->
  toLowerCase w = txt "fixes" ->
  oneLine line = true -> lineEnds post = true ->
  stripFixes (pre ++ c0 :: w ++ line ++ post) = pre ++ post.
Proof.
  intros Hpre Hc0 Hw Hline Hpost. unfold stripFixes.
  change fixesRegex
    with (One fixesSeparator :: ofWord (txt "Fixes") ++ [Open; Many dot; Close]).
  apply clause_cut; try assumption; try reflexivity.
  apply separator_not_in_Fixes. exact Hc0.
Qed.

Lemma stripFixes_cuts_clause_witness :
  stripFixes (txt "Fix bug." ++ " "%char :: txt "fixes" ++ txt " #12."
              ++ LF :: txt "More")
  = txt "Fix bug." ++ LF :: txt "More".
Proof.
  apply (stripFixes_cuts_clause (txt "Fix bug.") " "%char (txt "fixes")
           (txt " #12.") (LF :: txt "More")); reflexivity.
Defined.

(** X5. The first See clause, from the newline before the word in any
    case to the end of its line, is cut out of the text; what stands
    before it and the line break after it stay. *)
Theorem stripSee_cuts_clause (pre w line post : str) :
  occursAfter (just LF) (txt "See") pre = false ->
  toLowerCase w = txt "see" ->
  oneLine line = true -> lineEnds post = true ->
  stripSee (pre ++ LF :: w ++ line ++ post) = pre ++ post.
Proof.
  intros Hpre Hw Hline Hpost. unfold stripSee.
  change seeRegex
    with (One (just LF) :: ofWord (txt "See") ++ [Open; Many dot; Close]).
  apply clause_cut; try assumption; try reflexivity.
  apply newline_not_in_word; reflexivity.
Qed.

Lemma stripSee_cuts_clause_witness :
  stripSee (txt "Fix bug." ++ LF :: txt "SEE" ++ txt " #12."
            ++ LF :: txt "More")
  = txt "Fix bug." ++ LF :: txt "More".
Proof.
  apply (stripSee_cuts_clause (txt "Fix bug.") (txt "SEE") (txt " #12.")
           (LF :: txt "More")); reflexivity.
Defined.

(** X6. A text in which no separator is followed by the word Fixes and
    no newline by the word See, in any case, passes both removals
    unchanged. *)
Theorem clauses_absent (d : str) :
  occursAfter fixesSeparator (txt "Fixes") d = false ->
  occursAfter (just LF) (txt "See") d = false ->
  stripSee (stripFixes d) = d.
Proof.
  intros Hf Hs.
  assert (E : stripFixes d = d).
  { unfold stripFixes.
    change fixesRegex
      with (One fixesSeparator
            :: ofWord (txt "Fixes") ++ [Open; Many dot; Close]).
    apply clause_absent; [reflexivity|exact Hf]. }
  rewrite E. unfold stripSee.
  change seeRegex
    with (One (just LF) :: ofWord (txt "See") ++ [Open; Many dot; Close]).
  apply clause_absent; [reflexivity|exact Hs].
Qed.

Lemma clauses_absent_witness :
  stripSee (stripFixes (txt "Fixes the seesaw.")) = txt "Fixes the seesaw.".
Proof.
  apply (clauses_absent (txt "Fixes the seesaw.")); reflexivity.
Defined.

(** X7. A changeset gets no props exactly when the removal of the Props
    clause leaves the text as it is: whenever a clause is cut out, at
    least one name, possibly the empty one, is recorded. *)
Theorem props_empty_iff_nothing_removed (d : str) :
  extractProps d = [] <-> removeProps d = d.
Proof.
  unfold extractProps, removeProps, replaceFirst.
  destruct (exec propsRegex d) as [f|] eqn:He.
  - split; intros H.
    + exfalso. exact (split_comma_cons _ H).
    + exfalso. destruct (exec_sound _ _ _ He) as [Hd (ps & Hps & Hm & _)].
      apply props_match_shape in Hps.
      destruct Hps as (w & tail & _ & _ & Hc).
      rewrite <- Hm in Hc.
      assert (Hlen : length d = length (before f ++ expand [] f ++ after f))
        by (rewrite H; reflexivity).
      rewrite Hd in Hlen at 1. cbn [expand flat_map app] in Hlen.
      rewrite !length_app, Hc in Hlen. cbn [length] in Hlen. lia.
  - split; reflexivity.
Qed.

End ExtractionFurther.

(** ** The Props line *)

Module PropsFurther.

Import Chars RegExp JS Dom Changeset Notions Further RegExpFacts
  DescriptionFacts ParseLogs PatternFacts.

(** *** Spans *)

Lemma span_app c a rest :
  forallb c a = true ->
  match rest with [] => true | y :: _ => negb (c y) end = true ->
  span c (a ++ rest) = a /\ afterSpan c (a ++ rest) = rest.
Proof.
  induction a as [|x a IH]; intros Ha Hr.
  - cbn [app]. destruct rest as [|y rest]; [split; reflexivity|].
    cbn [span afterSpan]. apply negb_true_iff in Hr. rewrite Hr.
    split; reflexivity.
  - cbn [forallb] in Ha. apply andb_prop in Ha. destruct Ha as [Hx Ha].
    cbn [app span afterSpan]. rewrite Hx.
    destruct (IH Ha Hr) as [-> ->]. split; reflexivity.
Qed.

Lemma blank_space a : forallb blank a = true -> forallb isSpace a = true.
Proof.
  rewrite !forallb_forall. intros H x Hx. specialize (H x Hx).
  unfold blank in H. apply andb_prop in H. apply H.
Qed.

Lemma blank_line a : forallb blank a = true -> oneLine a = true.
Proof.
  unfold oneLine. rewrite !forallb_forall. intros H x Hx.
  specialize (H x Hx). unfold blank in H. apply andb_prop in H. apply H.
Qed.

(** *** The last code unit *)

Lemma last_default (q : str) : forall d d', q <> [] -> last q d = last q d'.
Proof.
  induction q as [|x q IH]; intros d d' Hq; [congruence|].
  destruct q as [|y q]; [reflexivity|].
  change (last (y :: q) d = last (y :: q) d'). apply IH. discriminate.
Qed.

Lemma last_cons (x : ascii) (l : str) d :
  l <> [] -> last (x :: l) d = last l d.
Proof. destruct l; [congruence|reflexivity]. Qed.

Lemma last_suffix (q : str) : forall p d,
  q <> [] -> last (p ++ q) d = last q d.
Proof.
  induction p as [|x p IH]; intros d Hq; [reflexivity|].
  cbn [app]. rewrite last_cons; [apply IH; exact Hq|].
  destruct p; [exact Hq|discriminate].
Qed.

(** *** The separator pattern *)

Lemma space_not_comma x : isSpace x = true -> just ","%char x = false.
Proof.
  intros H. destruct (just_spec ","%char x) as [E|]; [|reflexivity].
  subst x. vm_compute in H. discriminate.
Qed.

Lemma comma_match : forall s,
  matchHere commaRegex s
  = match afterSpan isSpace s with
    | c :: rest =>
        if just ","%char c
        then Some ([span isSpace s; [c]; span isSpace rest],
                   afterSpan isSpace rest)
        else None
    | [] => None
    end.
Proof.
  induction s as [|x s IH]; [reflexivity|].
  unfold commaRegex. rewrite matchHere_many_cons. fold commaRegex.
  cbn [span afterSpan]. rewrite matchHere_one.
  destruct (isSpace x) eqn:Hx.
  - rewrite IH, (space_not_comma x Hx).
    destruct (afterSpan isSpace s) as [|c rest]; [reflexivity|].
    destruct (just ","%char c); reflexivity.
  - destruct (just ","%char x); [|reflexivity].
    rewrite matchHere_many. reflexivity.
Qed.

Lemma isName_tokenish t : isName t = true -> tokenish t /\ oneLine t = true.
Proof.
  unfold isName, isToken. intros H.
  apply andb_prop in H. destruct H as [H Hne].
  apply andb_prop in H. destruct H as [H Hline].
  apply andb_prop in H. destruct H as [Hc He].
  split; [|exact Hline]. split; [exact Hc|].
  destruct t as [|x t']; [discriminate|].
  apply andb_prop in He. destruct He as [H1 H2].
  apply negb_true_iff in H1. apply negb_true_iff in H2.
  exists x, t'. auto.
Qed.

Lemma notComma_just y : notComma y = true -> just ","%char y = false.
Proof.
  unfold notComma, just. intros H. apply negb_true_iff in H.
  rewrite Ascii.eqb_sym. exact H.
Qed.

Lemma suffix_miss rest : forall q,
  q <> [] -> forallb notComma q = true ->
  isSpace (last q " "%char) = false ->
  matchHere commaRegex (q ++ rest) = None.
Proof.
  intros q Hq Hc Hl. rewrite comma_match.
  assert (H : exists y r, afterSpan isSpace (q ++ rest) = y :: r
                          /\ just ","%char y = false).
  { induction q as [|x q IH]; [congruence|].
    cbn [forallb] in Hc. apply andb_prop in Hc. destruct Hc as [Hx Hc].
    cbn [app afterSpan]. destruct (isSpace x) eqn:Hs.
    - destruct q as [|y q].
      + cbn [last] in Hl. congruence.
      + apply IH; [discriminate|exact Hc|exact Hl].
    - exists x, (q ++ rest). split; [reflexivity|].
      apply notComma_just. exact Hx. }
  destruct H as (y & r & -> & ->). reflexivity.
Qed.

Lemma token_miss t rest :
  tokenish t ->
  forall p q, t = p ++ q -> q <> [] ->
              matchHere commaRegex (q ++ rest) = None.
Proof.
  intros [Hc (x & t' & Ht & _ & Hl)] p q E Hq.
  apply suffix_miss; [exact Hq| |].
  - rewrite E, forallb_app in Hc. apply andb_prop in Hc. apply Hc.
  - rewrite (last_default q " "%char x Hq).
    rewrite <- (last_suffix q p x Hq), <- E. exact Hl.
Qed.

(** *** Splitting *)

Lemma splitRounds_scan r rest : forall t n cur,
  (forall p q, t = p ++ q -> q <> [] -> matchHere r (q ++ rest) = None) ->
  splitRounds (length t + n) r cur (t ++ rest)
  = splitRounds n r (cur ++ t) rest.
Proof.
  induction t as [|x t IH]; intros n cur H.
  - cbn [length plus app]. rewrite app_nil_r. reflexivity.
  - assert (Hx : matchHere r ((x :: t) ++ rest) = None)
      by (apply (H [] (x :: t)); [reflexivity|discriminate]).
    cbn [app] in Hx. cbn [length plus app splitRounds]. rewrite Hx.
    rewrite IH.
    + rewrite <- app_assoc. reflexivity.
    + intros p q -> Hq. apply (H (x :: p) q); [reflexivity|exact Hq].
Qed.

Lemma splitRounds_hit r n cur s ps rest :
  matchHere r s = Some (ps, rest) -> concat ps <> [] -> s <> [] ->
  splitRounds (S n) r cur s = cur :: splitRounds n r [] rest.
Proof.
  intros Hm Hc Hs. destruct s as [|x s]; [congruence|].
  cbn [splitRounds]. rewrite Hm.
  destruct (concat ps); [congruence|reflexivity].
Qed.

Lemma join_behind sep : forall l t, join sep (t :: l) = t ++ behind sep l.
Proof.
  unfold behind. induction l as [|u l IH]; intros t.
  - cbn [join map concat]. rewrite app_nil_r. reflexivity.
  - change (join sep (t :: u :: l)) with (t ++ sep ++ join sep (u :: l)).
    rewrite IH. cbn [map concat]. rewrite <- !app_assoc. reflexivity.
Qed.

Lemma separator_hit a b u rest :
  forallb isSpace a = true -> forallb isSpace b = true -> tokenish u ->
  matchHere commaRegex ((a ++ ","%char :: b) ++ u ++ rest)
  = Some ([a; [","%char]; b], u ++ rest).
Proof.
  intros Ha Hb [_ (x & u' & -> & Hx & _)].
  rewrite comma_match, <- app_assoc. cbn [app].
  destruct (span_app isSpace a (","%char :: b ++ x :: u' ++ rest) Ha eq_refl)
    as [-> ->].
  assert (Hr : match x :: u' ++ rest with
               | [] => true | y :: _ => negb (isSpace y) end = true)
    by (rewrite Hx; reflexivity).
  destruct (span_app isSpace b (x :: u' ++ rest) Hb Hr) as [E1 E2].
  cbn [app] in E1, E2.
  change (just ","%char ","%char) with true. cbv iota.
  rewrite E1, E2. reflexivity.
Qed.

Lemma split_names a b : forall l t n cur,
  forallb isSpace a = true -> forallb isSpace b = true ->
  tokenish t -> Forall tokenish l ->
  length (t ++ behind (a ++ ","%char :: b) l) < n ->
  splitRounds n commaRegex cur (t ++ behind (a ++ ","%char :: b) l)
  = (cur ++ t) :: l.
Proof.
  induction l as [|u l IH]; intros t n cur Ha Hb Ht Hl Hn.
  - unfold behind in *. cbn [map concat] in *.
    replace n with (length t + S (n - S (length t)))
      by (rewrite app_nil_r in Hn; lia).
    rewrite splitRounds_scan by (apply token_miss; exact Ht).
    reflexivity.
  - inversion Hl as [|u' l' Hu Hl']; subst.
    unfold behind in *. cbn [map concat] in *. fold (behind (a ++ ","%char :: b) l) in *.
    rewrite !length_app in Hn.
    replace n with (length t + S (n - S (length t))) by lia.
    rewrite splitRounds_scan by (apply token_miss; exact Ht).
    rewrite <- app_assoc.
    rewrite (splitRounds_hit _ _ _ _ _ _
               (separator_hit a b u (behind (a ++ ","%char :: b) l) Ha Hb Hu)).
    + f_equal. rewrite IH; auto. rewrite !length_app in *. cbn [length] in Hn.
      lia.
    + destruct a; discriminate.
    + destruct a; discriminate.
Qed.

Lemma split_join a b t l :
  forallb isSpace a = true -> forallb isSpace b = true ->
  tokenish t -> Forall tokenish l ->
  split commaRegex (join (a ++ ","%char :: b) (t :: l)) = t :: l.
Proof.
  intros Ha Hb Ht Hl. rewrite join_behind. unfold split.
  destruct (t ++ behind (a ++ ","%char :: b) l) as [|x s] eqn:E.
  - destruct Ht as [_ (x & t' & -> & _)]. discriminate.
  - rewrite <- E. rewrite split_names; auto.
Qed.

(** *** Trimming *)

Lemma dropSpace_pad pad s :
  forallb isSpace pad = true -> dropSpace (pad ++ s) = dropSpace s.
Proof.
  induction pad as [|x pad IH]; intros H; [reflexivity|].
  cbn [forallb] in H. apply andb_prop in H. destruct H as [Hx H].
  cbn [app dropSpace]. rewrite Hx. apply IH. exact H.
Qed.

Lemma last_shift (A : Type) : forall (l : list A) (u t : A),
  last (u :: l) t = last l u.
Proof.
  induction l as [|v l IH]; intros u t; [reflexivity|].
  change (last (u :: v :: l) t) with (last (v :: l) t).
  rewrite (IH v t), (IH v u). reflexivity.
Qed.

Lemma last_behind sep : forall l t d,
  Forall (fun u => u <> []) l ->
  last (t ++ behind sep l) d = last (last l t) d.
Proof.
  unfold behind. induction l as [|u l IH]; intros t d H.
  - cbn [map concat last]. rewrite app_nil_r. reflexivity.
  - inversion H as [|u' l' Hu Hl]; subst. cbn [map concat].
    replace (t ++ (sep ++ u) ++ concat (map (fun u0 => sep ++ u0) l))
      with ((t ++ sep) ++ (u ++ concat (map (fun u0 => sep ++ u0) l)))
      by (rewrite <- !app_assoc; reflexivity).
    rewrite last_suffix by (destruct u; [congruence|discriminate]).
    rewrite (IH u d Hl), last_shift. reflexivity.
Qed.

Lemma names_trimmed sep t l :
  tokenish t -> Forall tokenish l -> trimmed (t ++ behind sep l).
Proof.
  intros Ht Hl. split.
  - intros x r E. destruct Ht as [_ (x0 & t' & -> & Hx & _)].
    cbn [app] in E. inversion E; subst. exact Hx.
  - intros r x E.
    assert (Hlast : last (t ++ behind sep l) x = x)
      by (rewrite E; apply last_last).
    rewrite last_behind in Hlast
      by (eapply Forall_impl; [|exact Hl];
          intros u [_ (y & u' & -> & _)]; discriminate).
    assert (Hin : tokenish (last l t)).
    { destruct (exists_last (l:=t :: l)) as (l0 & u & E0); [discriminate|].
      assert (E1 : last (t :: l) t = u) by (rewrite E0; apply last_last).
      assert (E2 : last (t :: l) t = last l t) by (destruct l; reflexivity).
      rewrite <- E2, E1.
      assert (Hall : Forall tokenish (t :: l)) by (constructor; assumption).
      rewrite E0 in Hall. apply Forall_app in Hall.
      destruct Hall as [_ Hu]. inversion Hu; assumption. }
    destruct Hin as [_ (x0 & t' & E0 & _ & Hx)].
    assert (D : last (last l t) x = last (last l t) x0)
      by (apply last_default; rewrite E0; discriminate).
    assert (Ex : x = last (last l t) x0)
      by (transitivity (last (last l t) x); [symmetry; exact Hlast|exact D]).
    rewrite Ex. exact Hx.
Qed.

(** *** The Props pattern on a line of names *)

Lemma line_but_last x post : forall line,
  oneLine line = true -> dot x = true -> lineEnds post = true ->
  matchHere [Many dot; Close; One dot] (line ++ x :: post)
  = Some ([line; []; [x]], post).
Proof.
  intros line Hl Hx Hp. unfold oneLine in Hl.
  assert (Hpost : matchHere [Many dot; Close; One dot] post = None).
  { destruct post as [|y post]; [reflexivity|].
    cbn [lineEnds] in Hp. rewrite matchHere_many_cons. unfold dot at 1.
    rewrite Hp. cbn [negb]. rewrite matchHere_close, matchHere_one.
    unfold dot. rewrite Hp. reflexivity. }
  induction line as [|y line IH].
  - cbn [app]. rewrite matchHere_many_cons, Hx, Hpost.
    rewrite matchHere_close, matchHere_one, Hx. reflexivity.
  - cbn [forallb] in Hl. apply andb_prop in Hl. destruct Hl as [Hy Hl].
    cbn [app]. rewrite matchHere_many_cons, Hy, (IH Hl). reflexivity.
Qed.

Lemma group1_word r ps : forall W w,
  length w = length W ->
  group1 false (ofWord W ++ r) (map (fun x => [x]) w ++ ps)
  = group1 false r ps.
Proof.
  induction W as [|c W IH]; intros [|x w] H; try discriminate;
    [reflexivity|].
  cbn [ofWord map app group1]. apply IH. cbn [length] in H. lia.
Qed.

Lemma props_found pre w line x post :
  occursAfter (just LF) (txt "Props") pre = false ->
  toLowerCase w = txt "props" ->
  oneLine line = true -> dot x = true -> lineEnds post = true ->
  exists m,
    exec propsRegex (pre ++ LF :: w ++ line ++ x :: post)
    = Some (Found pre m line post).
Proof.
  intros Hpre Hw Hline Hx Hpost.
  change (txt "props") with (toLowerCase (txt "Props")) in Hw.
  destruct (lower_word _ w Hw) as [Hlen Hsw].
  change propsRegex
    with (One (just LF)
          :: ofWord (txt "Props") ++ [Open; Many dot; Close; One dot]).
  rewrite exec_behind.
  - assert (Hm : matchHere
                   (One (just LF)
                    :: ofWord (txt "Props")
                       ++ [Open; Many dot; Close; One dot])
                   (LF :: w ++ line ++ x :: post)
                 = Some ([LF] :: map (fun y => [y]) w
                                 ++ [[]; line; []; [x]], post)).
    { rewrite matchHere_one. change (just LF LF) with true. cbv iota.
      rewrite (word_hit _ _ w _ Hlen Hsw eq_refl).
      rewrite matchHere_open, (line_but_last x post line Hline Hx Hpost).
      reflexivity. }
    rewrite (exec_here _ _ _ _ Hm). cbn [option_map before after matched
      captured]. rewrite app_nil_r.
    cbn [group1]. rewrite (group1_word _ _ _ w Hlen). cbn [group1].
    rewrite !app_nil_r. eexists. reflexivity.
  - intros p q Hp Hq.
    destruct (matchHere _ (q ++ LF :: w ++ line ++ x :: post))
      as [[ps rest]|] eqn:Hm; [|reflexivity].
    apply clause_inv in Hm; [|reflexivity].
    assert (Hn : ~ In (lower LF) (map lower (txt "Props"))).
    { intros Hin. vm_compute in Hin.
      repeat (destruct Hin as [Hin|Hin]; [discriminate|]). exact Hin. }
    rewrite (no_clause_before _ _ pre LF _ Hpre Hn p q Hp Hq) in Hm.
    discriminate.
Qed.

Lemma oneLine_app a b : oneLine (a ++ b) = oneLine a && oneLine b.
Proof. apply forallb_app. Qed.

Lemma behind_line sep l :
  oneLine sep = true -> Forall (fun u => oneLine u = true) l ->
  oneLine (behind sep l) = true.
Proof.
  intros Hs Hl. unfold behind.
  induction Hl as [|u l Hu Hl IH]; [reflexivity|].
  cbn [map concat]. rewrite !oneLine_app, Hs, Hu, IH. reflexivity.
Qed.

(** X8. A Props line is read back name by name: for the first line that
    starts with the word Props in any case, followed by names separated
    by a comma with blanks around it, the props are these names and the
    whole line is cut out of the description.  The last character of the
    line, a period or not, is dropped before the names are read. *)
Theorem props_line_round_trip (pre w pad a b : str) (names : list str)
  (x : ascii) (post : str) :
  occursAfter (just LF) (txt "Props") pre = false ->
  toLowerCase w = txt "props" ->
  forallb blank pad = true -> forallb blank a = true ->
  forallb blank b = true ->
  names <> [] -> forallb isName names = true ->
  dot x = true -> lineEnds post = true ->
  extractProps
    (pre ++ LF :: w ++ (pad ++ join (a ++ ","%char :: b) names) ++ x :: post)
  = names
  /\ removeProps
       (pre ++ LF :: w ++ (pad ++ join (a ++ ","%char :: b) names)
        ++ x :: post)
     = pre ++ post.
Proof.
  intros Hpre Hw Hpad Ha Hb Hne Hnames Hx Hpost.
  destruct names as [|t l]; [congruence|].
  assert (Hall : Forall (fun u => tokenish u /\ oneLine u = true) (t :: l)).
  { rewrite forallb_forall in Hnames. apply Forall_forall.
    intros u Hu. apply isName_tokenish. apply Hnames. exact Hu. }
  assert (Htok : Forall tokenish (t :: l))
    by (eapply Forall_impl; [|exact Hall]; intros u Hu; apply Hu).
  inversion Htok as [|t' l' Ht Hl]; subst.
  assert (Hline : oneLine (pad ++ join (a ++ ","%char :: b) (t :: l)) = true).
  { rewrite oneLine_app, (blank_line pad Hpad). cbn [andb].
    rewrite join_behind, oneLine_app.
    inversion Hall as [|t' l' [_ Ht1] Hl1]; subst.
    rewrite Ht1. cbn [andb]. apply behind_line.
    - rewrite oneLine_app, (blank_line a Ha).
      change (","%char :: b) with ([","%char] ++ b).
      rewrite oneLine_app, (blank_line b Hb). reflexivity.
    - eapply Forall_impl; [|exact Hl1]. intros u Hu. apply Hu. }
  destruct (props_found pre w _ x post Hpre Hw Hline Hx Hpost) as [m Hm].
  unfold extractProps, removeProps, replaceFirst. rewrite Hm.
  cbn [captured before after expand flat_map app]. split; [|reflexivity].
  assert (Htrim : trim (pad ++ join (a ++ ","%char :: b) (t :: l))
                  = join (a ++ ","%char :: b) (t :: l)).
  { unfold trim. rewrite (dropSpace_pad _ _ (blank_space pad Hpad)).
    apply OutputFacts.trim_id. rewrite join_behind.
    apply names_trimmed; assumption. }
  rewrite Htrim.
  apply split_join; auto using blank_space.
Qed.

Lemma props_line_round_trip_witness :
  extractProps (txt "Fix it." ++ LF :: txt "Props jane, john.")
  = [txt "jane"; txt "john"]
  /\ removeProps (txt "Fix it." ++ LF :: txt "Props jane, john.")
     = txt "Fix it.".
Proof.
  apply (props_line_round_trip (txt "Fix it.") (txt "Props") (txt " ")
           [] (txt " ") [txt "jane"; txt "john"] "."%char []);
    try reflexivity.
  discriminate.
Defined.

End PropsFurther.

(** ** The cleaning of the list of names (src/unnamed/part_001) *)

Module CleanPropsFurther.

Import Chars RegExp JS Changeset Notions Further RegExpFacts
  DescriptionFacts PatternFacts PropsFurther.
Import CleanProps.

(** *** Global replacement of one code unit *)

Lemma one_never_empty c rest ps :
  matchHere [One c] rest = Some (ps, rest) -> False.
Proof.
  intros H. apply matchHere_sound in H. destruct H as [Hf Hr].
  inversion Hf as [|a p r' ps' Hp Hrest]; subst.
  inversion Hrest; subst. cbn [fits] in Hp.
  destruct Hp as (x & -> & _). cbn [concat app] in Hr.
  apply (f_equal (@length ascii)) in Hr. cbn [length] in Hr. lia.
Qed.

Lemma replaceAll_one c t lit :
  (forall f, expand t f = lit) ->
  forall s, replaceAll [One c] t s
            = flat_map (fun x => if c x then lit else [x]) s.
Proof.
  intros Ht. induction s as [|x s IH]; [reflexivity|].
  cbn [flat_map]. destruct (c x) eqn:Hx.
  - assert (Hm : matchHere [One c] (x :: s) = Some ([[x]], s))
      by (rewrite matchHere_one, Hx; reflexivity).
    rewrite (replaceAll_hit _ t _ _ _ Hm) by discriminate.
    rewrite Ht, IH. reflexivity.
  - assert (Hm : matchHere [One c] (x :: s) = None)
      by (rewrite matchHere_one, Hx; reflexivity).
    rewrite (replaceAll_skip _ t _ _ Hm (one_never_empty c)), IH.
    reflexivity.
Qed.

Lemma periods_removed s :
  replaceAll periodRegex [] s = filter notPeriod s.
Proof.
  unfold periodRegex.
  rewrite (replaceAll_one _ [] [] (fun _ => eq_refl)).
  induction s as [|x s IH]; [reflexivity|].
  cbn [flat_map filter]. unfold notPeriod at 1.
  destruct (just "."%char x); cbn [negb app]; rewrite IH; reflexivity.
Qed.

Lemma spaces_to_commas s :
  replaceAll spaceRegex [Lit ","] s = flat_map commaFor s.
Proof.
  unfold spaceRegex.
  apply (replaceAll_one _ [Lit ","] [","%char] (fun _ => eq_refl)).
Qed.

(** *** Splitting a text without white space *)

Lemma spacefree_spans s :
  forallb nonspace s = true ->
  span isSpace s = [] /\ afterSpan isSpace s = s.
Proof.
  destruct s as [|x s]; [split; reflexivity|].
  cbn [forallb]. intros H. apply andb_prop in H. destruct H as [Hx _].
  apply negb_true_iff in Hx. cbn [span afterSpan]. rewrite Hx.
  split; reflexivity.
Qed.

Lemma split_spacefree_rounds : forall n s cur,
  forallb nonspace s = true -> length s < n ->
  splitRounds n ParseLogs.commaRegex cur s = atCommas cur s.
Proof.
  induction n as [|n IH]; intros s cur Hs Hn; [lia|].
  destruct s as [|x s]; [reflexivity|].
  cbn [splitRounds atCommas]. rewrite comma_match.
  destruct (spacefree_spans _ Hs) as [-> ->].
  cbn [forallb] in Hs. apply andb_prop in Hs. destruct Hs as [_ Hs].
  cbn [length] in Hn.
  destruct (just ","%char x).
  - destruct (spacefree_spans _ Hs) as [-> ->].
    cbn [concat app]. rewrite IH by (auto; lia). reflexivity.
  - apply IH; [exact Hs|lia].
Qed.

Lemma split_spacefree s :
  forallb nonspace s = true ->
  split ParseLogs.commaRegex s = atCommas [] s.
Proof.
  intros Hs. destruct s as [|x s]; [reflexivity|].
  unfold split. apply split_spacefree_rounds; [exact Hs|cbn [length]; lia].
Qed.

Lemma atCommas_pieces Q : forall s cur,
  forallb Q cur = true ->
  forallb (fun y => just ","%char y || Q y) s = true ->
  forallb (forallb Q) (atCommas cur s) = true.
Proof.
  induction s as [|x s IH]; intros cur Hc Hs.
  - cbn [atCommas forallb]. rewrite Hc. reflexivity.
  - cbn [forallb] in Hs. apply andb_prop in Hs. destruct Hs as [Hx Hs].
    cbn [atCommas]. destruct (just ","%char x).
    + cbn [forallb]. rewrite Hc, (IH [] eq_refl Hs). reflexivity.
    + cbn [orb] in Hx. apply IH; [|exact Hs].
      rewrite forallb_app, Hc. cbn [forallb]. rewrite Hx. reflexivity.
Qed.

(** *** What the replacements leave *)

Lemma trim_forallb P s : forallb P s = true -> forallb P (trim s) = true.
Proof.
  intros H. destruct (trim_segment s) as (l & r & E).
  rewrite E, !forallb_app in H.
  apply andb_prop in H. destruct H as [_ H].
  apply andb_prop in H. apply H.
Qed.

Lemma filter_forallb (P : ascii -> bool) : forall s,
  forallb P (filter P s) = true.
Proof.
  induction s as [|x s IH]; [reflexivity|].
  cbn [filter]. destruct (P x) eqn:Hx; [|exact IH].
  cbn [forallb]. rewrite Hx, IH. reflexivity.
Qed.

Lemma comma_or_unit y :
  notPeriod y = true -> forallb
    (fun z => nonspace z && (just ","%char z || handleUnit z))
    (commaFor y) = true.
Proof.
  assert (H : everywhere
                (fun y => implb (notPeriod y)
                   (forallb
                      (fun z => nonspace z
                                && (just ","%char z || handleUnit z))
                      (commaFor y))) = true)
    by (vm_compute; reflexivity).
  intros Hy. pose proof (everywhere_spec _ H y) as H1. cbv beta in H1.
  rewrite Hy in H1. exact H1.
Qed.

Lemma commas_units : forall s,
  forallb notPeriod s = true ->
  forallb (fun z => nonspace z && (just ","%char z || handleUnit z))
    (flat_map commaFor s) = true.
Proof.
  induction s as [|y s IH]; intros H; [reflexivity|].
  cbn [forallb] in H. apply andb_prop in H. destruct H as [Hy H].
  cbn [flat_map]. rewrite forallb_app, (comma_or_unit y Hy), (IH H).
  reflexivity.
Qed.

Lemma forallb_both (P Q : ascii -> bool) s :
  forallb (fun z => P z && Q z) s = true ->
  forallb P s = true /\ forallb Q s = true.
Proof.
  induction s as [|y s IH]; intros H; [split; reflexivity|].
  cbn [forallb] in *. apply andb_prop in H. destruct H as [Hy H].
  apply andb_prop in Hy. destruct Hy as [H1 H2].
  destruct (IH H) as [-> ->]. rewrite H1, H2. split; reflexivity.
Qed.

Lemma withoutEmpty_handles : forall l,
  forallb (forallb handleUnit) l = true ->
  forallb isHandle (withoutEmpty l) = true.
Proof.
  unfold withoutEmpty. induction l as [|t l IH]; intros H; [reflexivity|].
  cbn [forallb] in H. apply andb_prop in H. destruct H as [Ht H].
  cbn [filter]. destruct (negb (str_eqb t [])) eqn:Hn; [|exact (IH H)].
  cbn [forallb]. unfold isHandle at 1. rewrite Ht, Hn, (IH H). reflexivity.
Qed.

(** X9. Whatever the text of the Props line, every name that
    [cleanProps] returns is a handle: it is not empty and holds no white
    space, no comma and no period. *)
Theorem cleanProps_gives_handles (props : str) :
  forallb isHandle (cleanProps props) = true.
Proof.
  unfold cleanProps.
  set (v := replaceFirst forPeriodRegex [] (replaceAll forCommaRegex [] props)).
  rewrite periods_removed, spaces_to_commas.
  pose proof (commas_units _ (trim_forallb _ _ (filter_forallb notPeriod v)))
    as Hu.
  apply forallb_both in Hu. destruct Hu as [Hs Hq].
  rewrite (split_spacefree _ Hs).
  apply withoutEmpty_handles. apply atCommas_pieces; [reflexivity|exact Hq].
Qed.

(** *** A line of handles *)

Lemma mentions_suffix W q : forall p,
  startsLower W q = true -> mentions W (p ++ q) = true.
Proof.
  induction p as [|x p IH]; intros H.
  - cbn [app]. destruct q; cbn [mentions]; rewrite H; reflexivity.
  - cbn [app mentions]. rewrite (IH H). apply orb_true_r.
Qed.

Lemma forComma_absent s :
  mentions (txt "for") s = false -> exec forCommaRegex s = None.
Proof.
  intros H. destruct (exec forCommaRegex s) as [f|] eqn:He; [|reflexivity].
  exfalso. destruct (exec_sound _ _ _ He) as [Hs (ps & Hps & _)].
  change forCommaRegex
    with (Open :: ofWord (txt "for")
                  ++ [Many dot; One (just ","%char); Close]) in Hps.
  rewrite matchHere_open in Hps. apply piece_inv in Hps.
  destruct Hps as (ps' & _ & Hps).
  apply word_inv in Hps; [|reflexivity].
  rewrite Hs, (mentions_suffix _ _ _ Hps) in H. discriminate.
Qed.

Lemma forPeriod_absent s :
  mentions (txt "for") s = false -> exec forPeriodRegex s = None.
Proof.
  intros H. destruct (exec forPeriodRegex s) as [f|] eqn:He; [|reflexivity].
  exfalso. destruct (exec_sound _ _ _ He) as [Hs (ps & Hps & _)].
  assert (Hw : startsLower (txt "for") (matched f ++ after f) = true).
  { unfold forPeriodRegex in Hps. rewrite matchHere_open in Hps.
    apply piece_inv in Hps. destruct Hps as (ps' & _ & Hps).
    cbn [word list_ascii_of_string map app] in Hps.
    destruct (matched f ++ after f) as [|x1 [|x2 [|x3 q]]];
      try discriminate.
    - rewrite matchHere_one in Hps.
      destruct (just "f"%char x1); discriminate.
    - rewrite matchHere_one in Hps.
      destruct (just "f"%char x1); [|discriminate].
      cbn [piece] in Hps. rewrite matchHere_one in Hps.
      destruct (just "o"%char x2); discriminate.
    - rewrite matchHere_one in Hps.
      destruct (just_spec "f"%char x1) as [E1|]; [|discriminate].
      destruct (matchHere _ (x2 :: x3 :: q)) as [[ps2 r2]|] eqn:H2;
        [|discriminate].
      rewrite matchHere_one in H2.
      destruct (just_spec "o"%char x2) as [E2|]; [|discriminate].
      destruct (matchHere _ (x3 :: q)) as [[ps3 r3]|] eqn:H3;
        [|discriminate].
      rewrite matchHere_one in H3.
      destruct (just_spec "r"%char x3) as [E3|]; [|discriminate].
      subst. reflexivity. }
  rewrite Hs, (mentions_suffix _ _ _ Hw) in H. discriminate.
Qed.

Lemma replaceAll_none r t s : exec r s = None -> replaceAll r t s = s.
Proof.
  intros H. unfold replaceAll. rewrite replaceRounds_S, H. reflexivity.
Qed.

Lemma filter_keep (P : ascii -> bool) : forall s,
  forallb P s = true -> filter P s = s.
Proof.
  induction s as [|x s IH]; intros H; [reflexivity|].
  cbn [forallb] in H. apply andb_prop in H. destruct H as [Hx H].
  cbn [filter]. rewrite Hx, (IH H). reflexivity.
Qed.

Lemma filter_drop (P : ascii -> bool) : forall s,
  forallb (fun x => negb (P x)) s = true -> filter P s = [].
Proof.
  induction s as [|x s IH]; intros H; [reflexivity|].
  cbn [forallb] in H. apply andb_prop in H. destruct H as [Hx H].
  apply negb_true_iff in Hx. cbn [filter]. rewrite Hx. exact (IH H).
Qed.

Lemma behind_cons sep u l :
  behind sep (u :: l) = sep ++ u ++ behind sep l.
Proof. unfold behind. cbn [map concat]. rewrite <- app_assoc. reflexivity. Qed.

Lemma behind_forallb P sep : forall l,
  forallb P sep = true -> forallb (forallb P) l = true ->
  forallb P (behind sep l) = true.
Proof.
  induction l as [|u l IH]; intros Hs Hl; [reflexivity|].
  cbn [forallb] in Hl. apply andb_prop in Hl. destruct Hl as [Hu Hl].
  rewrite behind_cons, !forallb_app, Hs, Hu, (IH Hs Hl). reflexivity.
Qed.

Lemma handle_units t :
  isHandle t = true -> forallb handleUnit t = true /\ t <> [].
Proof.
  unfold isHandle. intros H. apply andb_prop in H. destruct H as [Hu Hn].
  split; [exact Hu|]. intros ->. discriminate.
Qed.

Lemma units_weaken (P : ascii -> bool) :
  (forall y, handleUnit y = true -> P y = true) ->
  forall l, forallb isHandle l = true -> forallb (forallb P) l = true.
Proof.
  intros HP. induction l as [|t l IH]; intros H; [reflexivity|].
  cbn [forallb] in *. apply andb_prop in H. destruct H as [Ht H].
  rewrite (IH H), andb_true_r. destruct (handle_units t Ht) as [Hu _].
  rewrite forallb_forall in *. intros y Hy. apply HP, Hu, Hy.
Qed.

Lemma unit_nonspace y : handleUnit y = true -> nonspace y = true.
Proof.
  unfold handleUnit. intros H. apply andb_prop in H. destruct H as [H _].
  apply andb_prop in H. apply H.
Qed.

Lemma unit_notComma y : handleUnit y = true -> notComma y = true.
Proof.
  unfold handleUnit. intros H. apply andb_prop in H. destruct H as [H _].
  apply andb_prop in H. apply H.
Qed.

Lemma unit_notPeriod y : handleUnit y = true -> notPeriod y = true.
Proof.
  unfold handleUnit, notPeriod, just. intros H.
  apply andb_prop in H. destruct H as [_ H].
  rewrite Ascii.eqb_sym. exact H.
Qed.

Lemma handle_tokenish t : isHandle t = true -> tokenish t.
Proof.
  intros H. destruct (handle_units t H) as [Hu Hne].
  split.
  - rewrite forallb_forall in *. intros y Hy. apply unit_notComma, Hu, Hy.
  - destruct t as [|x t']; [congruence|]. exists x, t'.
    split; [reflexivity|]. rewrite forallb_forall in Hu. split.
    + apply negb_true_iff. apply unit_nonspace, Hu. left. reflexivity.
    + apply negb_true_iff. apply unit_nonspace, Hu.
      destruct (exists_last (l:=x :: t')) as (l0 & y & E); [discriminate|].
      rewrite E, last_last. rewrite <- E. rewrite E.
      apply in_or_app. right. left. reflexivity.
Qed.

Lemma commaFor_id : forall t,
  forallb nonspace t = true -> flat_map commaFor t = t.
Proof.
  induction t as [|x t IH]; intros H; [reflexivity|].
  cbn [forallb] in H. apply andb_prop in H. destruct H as [Hx H].
  apply negb_true_iff in Hx. cbn [flat_map]. unfold commaFor at 1.
  rewrite Hx, (IH H). reflexivity.
Qed.

Lemma commaFor_behind : forall l,
  forallb (forallb nonspace) l = true ->
  flat_map commaFor (behind (txt ", ") l) = behind (txt ",,") l.
Proof.
  induction l as [|u l IH]; intros H; [reflexivity|].
  cbn [forallb] in H. apply andb_prop in H. destruct H as [Hu H].
  rewrite !behind_cons, !flat_map_app, (commaFor_id u Hu), (IH H).
  reflexivity.
Qed.

Lemma atCommas_scan rest : forall t cur,
  forallb notComma t = true ->
  atCommas cur (t ++ rest) = atCommas (cur ++ t) rest.
Proof.
  induction t as [|x t IH]; intros cur H.
  - cbn [app]. rewrite app_nil_r. reflexivity.
  - cbn [forallb] in H. apply andb_prop in H. destruct H as [Hx H].
    cbn [app atCommas]. rewrite (notComma_just x Hx), (IH _ H).
    rewrite <- app_assoc. reflexivity.
Qed.

Lemma atCommas_comma cur s :
  atCommas cur (","%char :: s) = cur :: atCommas [] s.
Proof. reflexivity. Qed.

Lemma atCommas_behind : forall l t cur,
  forallb notComma t = true -> forallb (forallb notComma) l = true ->
  atCommas cur (t ++ behind (txt ",,") l)
  = (cur ++ t) :: flat_map (fun u => [[]; u]) l.
Proof.
  induction l as [|u l IH]; intros t cur Ht Hl.
  - rewrite (atCommas_scan _ _ _ Ht). reflexivity.
  - cbn [forallb] in Hl. apply andb_prop in Hl. destruct Hl as [Hu Hl].
    rewrite (atCommas_scan _ _ _ Ht), behind_cons.
    change (txt ",," ++ u ++ behind (txt ",,") l)
      with (","%char :: ","%char :: u ++ behind (txt ",,") l).
    rewrite !atCommas_comma, (IH u [] Hu Hl). reflexivity.
Qed.

Lemma withoutEmpty_between : forall l,
  forallb isHandle l = true ->
  withoutEmpty (flat_map (fun u => [[]; u]) l) = l.
Proof.
  unfold withoutEmpty. induction l as [|u l IH]; intros H; [reflexivity|].
  cbn [forallb] in H. apply andb_prop in H. destruct H as [Hu H].
  cbn [flat_map app filter].
  unfold isHandle in Hu. apply andb_prop in Hu. destruct Hu as [_ Hn].
  rewrite Hn. change (str_eqb [] []) with true. cbn [negb].
  rewrite (IH H). reflexivity.
Qed.

(** X10. A line of handles is read back as it was written: for handles
    joined by a comma and a blank and followed by any number of periods,
    in a text that nowhere reads [for] in any case, [cleanProps]
    returns exactly these handles, in their order. *)
Theorem cleanProps_round_trip (names : list str) (stop : str) :
  forallb isHandle names = true ->
  forallb (just "."%char) stop = true ->
  mentions (txt "for") (join (txt ", ") names ++ stop) = false ->
  cleanProps (join (txt ", ") names ++ stop) = names.
Proof.
  intros Hn Hstop Hfor. unfold cleanProps.
  rewrite (replaceAll_none _ _ _ (forComma_absent _ Hfor)).
  unfold replaceFirst at 1. rewrite (forPeriod_absent _ Hfor).
  rewrite periods_removed, filter_app.
  rewrite (filter_drop notPeriod stop)
    by (rewrite forallb_forall in *; intros y Hy; unfold notPeriod;
        rewrite (Hstop y Hy); reflexivity).
  rewrite app_nil_r.
  destruct names as [|t l]; [reflexivity|].
  cbn [forallb] in Hn. apply andb_prop in Hn. destruct Hn as [Ht Hl].
  destruct (handle_units t Ht) as [Hu Hne].
  assert (Hper : forallb notPeriod (join (txt ", ") (t :: l)) = true).
  { rewrite join_behind, forallb_app.
    rewrite forallb_forall in Hu.
    assert (E : forallb notPeriod t = true)
      by (apply forallb_forall; intros y Hy; apply unit_notPeriod, Hu, Hy).
    rewrite E. cbn [andb]. apply behind_forallb; [reflexivity|].
    apply units_weaken; [apply unit_notPeriod|exact Hl]. }
  rewrite (filter_keep _ _ Hper).
  assert (Htok : Forall tokenish l).
  { apply Forall_forall. intros u Hin. apply handle_tokenish.
    rewrite forallb_forall in Hl. apply Hl, Hin. }
  rewrite join_behind.
  rewrite (OutputFacts.trim_id _
             (names_trimmed (txt ", ") t l (handle_tokenish t Ht) Htok)).
  rewrite spaces_to_commas, flat_map_app.
  assert (Hs : forallb nonspace t = true)
    by (rewrite forallb_forall in *; intros y Hy; apply unit_nonspace, Hu, Hy).
  assert (Hc : forallb notComma t = true)
    by (rewrite forallb_forall in *; intros y Hy; apply unit_notComma, Hu, Hy).
  pose proof (units_weaken _ unit_nonspace l Hl) as Hls.
  pose proof (units_weaken _ unit_notComma l Hl) as Hlc.
  rewrite (commaFor_id t Hs), (commaFor_behind l Hls).
  rewrite split_spacefree.
  - rewrite (atCommas_behind l t [] Hc Hlc). cbn [app].
    unfold withoutEmpty. cbn [filter].
    unfold isHandle in Ht. apply andb_prop in Ht. destruct Ht as [_ Ht].
    rewrite Ht. f_equal. apply withoutEmpty_between. exact Hl.
  - rewrite forallb_app, Hs. cbn [andb].
    apply behind_forallb; [reflexivity|exact Hls].
Qed.

Lemma cleanProps_round_trip_witness :
  cleanProps (txt "jane, john, bob.") = [txt "jane"; txt "john"; txt "bob"].
Proof.
  apply (cleanProps_round_trip [txt "jane"; txt "john"; txt "bob"] (txt "."));
    reflexivity.
Defined.

End CleanPropsFurther.

(** ** Code segments *)

Module CodeFurther.

Import Chars RegExp JS Dom Changeset Notions Further ParseLogs.

Lemma node_induction (P : node -> Prop) :
  (forall d, P (Text d)) ->
  (forall nm cs ks, Forall P ks -> P (Element nm cs ks)) ->
  forall n, P n.
Proof.
  intros HT HE. fix IH 1. intros [d|nm cs ks]; [apply HT|].
  apply HE.
  exact ((fix go (l : list node) : Forall P l :=
            match l with
            | [] => Forall_nil P
            | k :: l' => Forall_cons k (IH k) (go l')
            end) ks).
Qed.

Lemma text_element nm cs ks : text (Element nm cs ks) = texts ks.
Proof.
  unfold texts. cbn [text].
  induction ks as [|k ks IH]; [reflexivity|].
  cbn [map concat]. rewrite <- IH. reflexivity.
Qed.

Lemma ticked_element nm cs ks :
  ticked (Element nm cs ks)
  = concat (map (fun k => if named "tt" k then tick k else ticked k) ks).
Proof.
  cbn [ticked].
  induction ks as [|k ks IH]; [reflexivity|].
  cbn [map concat]. rewrite <- IH. reflexivity.
Qed.

Lemma find_element sel nm cs ks :
  find sel (Element nm cs ks)
  = flat_map (fun k => (if sel k then [k] else []) ++ find sel k) ks.
Proof.
  cbn [find].
  induction ks as [|k ks IH]; [reflexivity|].
  cbn [flat_map]. rewrite <- IH, <- app_assoc. reflexivity.
Qed.

Lemma reAddCode_element pf nm cs ks :
  reAddCode pf (Element nm cs ks)
  = Element nm cs
      (flat_map (fun k => if named "tt" k then pf (tick k)
                          else [reAddCode pf k]) ks).
Proof.
  reflexivity.
Qed.

Lemma texts_app l l' : texts (l ++ l') = texts l ++ texts l'.
Proof. unfold texts. rewrite map_app, concat_app. reflexivity. Qed.

(** X11. Code segments get their backticks back: when the fragment
    parser reads the backticked text of every [tt] element below a node
    as that text, the text of the node after the replacement is its text
    with the text of every outermost [tt] element between backticks. *)
Theorem code_between_backticks (parseFragment : str -> list node)
  (n : node) :
  (forall k, In k (find (named "tt") n) ->
             texts (parseFragment (tick k)) = tick k) ->
  text (reAddCode parseFragment n) = ticked n.
Proof.
  induction n as [d|nm cs ks IH] using node_induction; intros H;
    [reflexivity|].
  rewrite reAddCode_element, text_element, ticked_element.
  rewrite find_element in H.
  induction IH as [|k ks Hk Hks IHks]; [reflexivity|].
  cbn [flat_map map concat]. rewrite texts_app. f_equal.
  - destruct (named "tt" k) eqn:Hn.
    + apply H. cbn [flat_map]. rewrite Hn. left. reflexivity.
    + unfold texts. cbn [map concat]. rewrite app_nil_r. apply Hk.
      intros k' Hin. apply H. cbn [flat_map]. rewrite Hn.
      apply in_or_app. left. exact Hin.
  - apply IHks. intros k' Hin. apply H. cbn [flat_map].
    apply in_or_app. right. exact Hin.
Qed.

Lemma code_between_backticks_witness :
  text (reAddCode plainText
          (Element (txt "td") [txt "log"]
             [Text (txt "Use "); Element (txt "tt") [] [Text (txt "wp_die()")];
              Text (txt " here.")]))
  = txt "Use `wp_die()` here.".
Proof.
  apply (code_between_backticks plainText
           (Element (txt "td") [txt "log"]
              [Text (txt "Use ");
               Element (txt "tt") [] [Text (txt "wp_die()")];
               Text (txt " here.")])).
  intros k Hin. unfold plainText, texts. cbn [map concat text].
  apply app_nil_r.
Defined.

(** X12. A node without [tt] element below it is left exactly as it
    is, whatever the fragment parser does. *)
Theorem no_code_no_change (parseFragment : str -> list node) (n : node) :
  find (named "tt") n = [] -> reAddCode parseFragment n = n.
Proof.
  induction n as [d|nm cs ks IH] using node_induction; intros H;
    [reflexivity|].
  rewrite reAddCode_element. f_equal.
  rewrite find_element in H.
  induction IH as [|k ks Hk Hks IHks]; [reflexivity|].
  cbn [flat_map] in H. apply app_eq_nil in H. destruct H as [H1 H2].
  apply app_eq_nil in H1. destruct H1 as [H0 H1].
  cbn [flat_map]. destruct (named "tt" k); [discriminate|].
  rewrite (Hk H1), (IHks H2). reflexivity.
Qed.

Lemma no_code_no_change_witness :
  reAddCode plainText (cell "log" (txt "Fix it.")) = cell "log" (txt "Fix it.").
Proof.
  apply (no_code_no_change plainText (cell "log" (txt "Fix it."))).
  reflexivity.
Defined.

End CodeFurther.

(** ** The run of gatherComponents *)

Module GatherFurther.

Import Chars JS Changeset Notions Further Gather GatherFacts.

Lemma update_nth_error (A : Type) (f : A -> A) : forall l i,
  nth_error (update i f l) i = option_map f (nth_error l i).
Proof.
  induction l as [|x l IH]; intros [|i]; try reflexivity.
  cbn [update nth_error]. apply IH.
Qed.

Lemma Forall2_nth_error (A : Type) (R : A -> A -> Prop) : forall l l',
  length l' = length l ->
  (forall i c c', nth_error l i = Some c -> nth_error l' i = Some c' ->
                  R c c') ->
  Forall2 R l l'.
Proof.
  induction l as [|c l IH]; intros [|c' l'] Hlen H; try discriminate;
    constructor.
  - apply (H 0); reflexivity.
  - apply IH; [cbn [length] in Hlen; lia|].
    intros i x x' Hx Hx'. apply (H (S i)); assumption.
Qed.

Lemma pendingTickets_app j p q :
  pendingTickets j (p ++ q) = pendingTickets j p ++ pendingTickets j q.
Proof. unfold pendingTickets. rewrite filter_app, map_app. reflexivity. Qed.

Lemma pendingTickets_outside j : forall p,
  Forall (fun r => fst r <> j) p -> pendingTickets j p = [].
Proof.
  unfold pendingTickets. induction p as [|r p IH]; intros H; [reflexivity|].
  inversion H as [|r' p' Hr Hp]; subst. cbn [filter].
  destruct (Nat.eqb_spec (fst r) j); [contradiction|]. apply IH. exact Hp.
Qed.

Lemma pendingTickets_requestsOf i j c :
  pendingTickets j (requestsOf i c) = if i =? j then related c else [].
Proof.
  unfold pendingTickets, requestsOf.
  induction (related c) as [|t l IH]; [destruct (i =? j); reflexivity|].
  cbn [map filter fst]. destruct (i =? j); cbn [map snd]; rewrite IH;
    reflexivity.
Qed.

Lemma pendingTickets_requestsFrom : forall l s i c,
  nth_error l i = Some c ->
  pendingTickets (s + i) (requestsFrom s l) = related c.
Proof.
  induction l as [|c0 l IH]; intros s [|i] c H; try discriminate.
  - cbn [nth_error] in H. inversion H; subst c0.
    cbn [requestsFrom]. rewrite pendingTickets_app.
    rewrite pendingTickets_requestsOf, Nat.add_0_r, Nat.eqb_refl.
    rewrite pendingTickets_outside; [apply app_nil_r|].
    eapply Forall_impl; [|apply requestsFrom_range].
    cbv beta. intros r Hr. lia.
  - cbn [nth_error] in H. cbn [requestsFrom]. rewrite pendingTickets_app.
    rewrite pendingTickets_requestsOf.
    destruct (Nat.eqb_spec s (s + S i)); [lia|].
    replace (s + S i) with (S s + i) by lia. apply IH. exact H.
Qed.

Lemma pendingTickets_remove : forall p k i t,
  nth_error p k = Some (i, t) ->
  (forall j, j <> i ->
     pendingTickets j (remove_nth k p) = pendingTickets j p)
  /\ exists A B, pendingTickets i p = A ++ t :: B
                 /\ pendingTickets i (remove_nth k p) = A ++ B.
Proof.
  unfold pendingTickets.
  induction p as [|r p IH]; intros [|k] i t H; try discriminate.
  - cbn [nth_error] in H. inversion H; subst r. cbn [remove_nth]. split.
    + intros j Hj. cbn [filter fst].
      destruct (Nat.eqb_spec i j); [congruence|reflexivity].
    + exists [], (map snd (filter (fun r => fst r =? i) p)).
      cbn [filter fst]. rewrite Nat.eqb_refl. split; reflexivity.
  - cbn [nth_error] in H. destruct (IH k i t H) as [Ho (A & B & E1 & E2)].
    cbn [remove_nth]. split.
    + intros j Hj. cbn [filter]. destruct (fst r =? j); cbn [map];
        rewrite (Ho j Hj); reflexivity.
    + cbn [filter]. destruct (fst r =? i); cbn [map].
      * exists (snd r :: A), B. rewrite E1, E2. split; reflexivity.
      * exists A, B. split; assumption.
Qed.

Lemma requestsFrom_length : forall l s,
  length (requestsFrom s l) = length (flat_map related l).
Proof.
  induction l as [|c l IH]; intros s; [reflexivity|].
  cbn [requestsFrom flat_map]. rewrite !length_app, IH.
  unfold requestsOf. rewrite length_map. reflexivity.
Qed.

Lemma doneCount_le : forall l counts, doneCount l counts <= length l.
Proof.
  induction l as [|c l IH]; intros [|n counts]; cbn [doneCount length];
    try lia.
  specialize (IH counts). destruct (length (related c) <=? n); lia.
Qed.

Lemma doneCount_full : forall l counts,
  length l <= doneCount l counts ->
  forall i, i < length l -> relatedCount l i <= nth i counts 0.
Proof.
  induction l as [|c l IH]; intros [|n counts] H i Hi;
    cbn [doneCount length] in *; try lia.
  pose proof (doneCount_le l counts) as Hle.
  destruct (Nat.leb_spec (length (related c)) n) as [Hc|Hc]; [|lia].
  destruct i as [|i]; [exact Hc|].
  unfold relatedCount. cbn [nth_error nth].
  apply (IH counts); lia.
Qed.

Lemma pendingOf_head r p : 1 <= pendingOf (fst r) (r :: p).
Proof.
  unfold pendingOf. cbn [filter]. rewrite Nat.eqb_refl. cbn [length]. lia.
Qed.

(** With consistent counters, [gatherCallback] was called if and only if
    no request is in flight. *)
Lemma consistent_gathered st :
  consistent st -> (gathered st = true <-> pending st = []).
Proof.
  intros Hc. split; [|apply consistent_done; exact Hc].
  intros Hg. destruct Hc as [Hcount Hbound Hbal Htal Hflag].
  rewrite Hflag in Hg. apply Nat.leb_le in Hg. rewrite Htal in Hg.
  destruct (pending st) as [|r p] eqn:Ep; [reflexivity|exfalso].
  inversion Hbound as [|r' p' Hr _]; subst.
  pose proof (doneCount_full _ _ Hg (fst r) Hr) as Hfull.
  pose proof (Hbal (fst r) Hr) as Hb.
  pose proof (pendingOf_head r p). lia.
Qed.

Section Network.

Variable request : str -> response.
Variable componentCell : str -> str.

Local Abbreviation receive := (receive request componentCell).
Local Abbreviation deliver := (deliver request componentCell).
Local Abbreviation run := (run request componentCell).
Local Abbreviation gained := (gained request componentCell).
Local Abbreviation tracks := (tracks request componentCell).

Lemma run_steps : forall schedule st st',
  run schedule st = Some st' -> steps request componentCell st st'.
Proof.
  induction schedule as [|k schedule IH]; intros st st' H.
  - cbn [Gather.run] in H. inversion H; subst. apply Stay.
  - cbn [Gather.run] in H.
    destruct (deliver k st) as [st1|] eqn:Hd; [|discriminate].
    eapply Move; [apply (Arrive _ _ k); exact Hd|].
    apply IH. exact H.
Qed.

Lemma run_consistent : forall schedule st st',
  consistent st -> run schedule st = Some st' -> consistent st'.
Proof.
  intros schedule st st' Hc H.
  eapply steps_consistent; [apply (run_steps schedule); exact H|exact Hc].
Qed.

Lemma run_pending : forall schedule st st',
  run schedule st = Some st' ->
  length (pending st') + length schedule = length (pending st).
Proof.
  induction schedule as [|k schedule IH]; intros st st' H.
  - cbn [Gather.run] in H. inversion H; subst. cbn [length]. lia.
  - cbn [Gather.run] in H.
    destruct (deliver k st) as [st1|] eqn:Hd; [|discriminate].
    pose proof (deliver_pending _ _ _ _ _ Hd).
    pose proof (IH _ _ H). cbn [length]. lia.
Qed.

Lemma gained_app A B : gained (A ++ B) = gained A ++ gained B.
Proof. unfold Further.gained. apply flat_map_app. Qed.

Lemma start_tracks l : tracks l (start l).
Proof.
  split; [reflexivity|]. cbn [start changesets pending].
  intros i c c' Hc Hc'. rewrite Hc in Hc'. inversion Hc'; subst c'.
  split; [repeat split|]. split; [exists []; symmetry; apply app_nil_r|].
  pose proof (pendingTickets_requestsFrom l 0 i c Hc) as E.
  cbn [plus] in E. rewrite E. apply Permutation_refl.
Qed.

Lemma deliver_tracks l k st st' :
  tracks l st -> deliver k st = Some st' -> tracks l st'.
Proof.
  intros [Hlen Hinv] Hd. apply deliver_inv in Hd.
  destruct Hd as (i & ticket & Hk & ->).
  destruct (pendingTickets_remove _ _ _ _ Hk) as [Hother (A & B & E1 & E2)].
  split; cbn [changesets pending].
  - rewrite receive_length. exact Hlen.
  - intros j c c' Hc Hc'. rewrite receive_changesets in Hc'.
    destruct (Nat.eq_dec j i) as [->|Hj].
    + rewrite E2.
      destruct (accepted (request (ticketPath ++ ticket))) as [body|] eqn:Ea.
      * rewrite update_nth_error in Hc'.
        destruct (nth_error (changesets st) i) as [c0|] eqn:Hc0;
          [|discriminate].
        cbn [option_map] in Hc'. inversion Hc'; subst c'.
        destruct (Hinv i c c0 Hc Hc0) as [Hsame [[more Hmore] Hperm]].
        split; [exact Hsame|]. cbn [pushComponent component].
        split; [exists (more ++ [trim (componentCell body)]);
                rewrite Hmore, <- app_assoc; reflexivity|].
        rewrite E1, gained_app in Hperm.
        unfold Further.gained in Hperm at 2. cbn [flat_map] in Hperm.
        rewrite Ea in Hperm. cbn [app] in Hperm.
        fold (gained B) in Hperm.
        eapply Permutation_trans; [|exact Hperm].
        rewrite gained_app, <- app_assoc. apply Permutation_app_head.
        cbn [app]. apply Permutation_middle.
      * destruct (Hinv i c c' Hc Hc') as [Hsame [Hmore Hperm]].
        split; [exact Hsame|]. split; [exact Hmore|].
        rewrite E1, gained_app in Hperm.
        unfold Further.gained in Hperm at 2. cbn [flat_map] in Hperm.
        rewrite Ea in Hperm. cbn [app] in Hperm.
        fold (gained B) in Hperm.
        rewrite gained_app. exact Hperm.
    + rewrite (Hother j Hj). apply Hinv; [exact Hc|].
      destruct (accepted (request (ticketPath ++ ticket))); [|exact Hc'].
      rewrite update_nth_error_other in Hc' by congruence. exact Hc'.
Qed.

Lemma run_tracks l : forall schedule st st',
  tracks l st -> run schedule st = Some st' -> tracks l st'.
Proof.
  induction schedule as [|k schedule IH]; intros st st' Ht H.
  - cbn [Gather.run] in H. inversion H; subst. exact Ht.
  - cbn [Gather.run] in H.
    destruct (deliver k st) as [st1|] eqn:Hd; [|discriminate].
    apply (IH st1 st'); [|exact H].
    eapply deliver_tracks; eassumption.
Qed.

(** X13. [gatherCallback] is called when the last answer has arrived and
    not before: in the state that any order of answers leads to, the
    callback has been called exactly when as many answers have arrived
    as the changesets have related tickets, which is when no request is
    in flight. *)
Theorem callback_after_last_answer (schedule : list nat)
  (l : list changeset) (st : state) :
  gatherComponents request componentCell schedule l = Some st ->
  length (pending st) + length schedule = length (flat_map related l)
  /\ (gathered st = true <-> pending st = [])
  /\ (gathered st = true
      <-> length schedule = length (flat_map related l)).
Proof.
  unfold gatherComponents. intros H.
  pose proof (run_pending _ _ _ H) as Hp.
  cbn [start pending] in Hp. rewrite requestsFrom_length in Hp.
  pose proof (consistent_gathered st
                (run_consistent _ _ _ (start_consistent l) H)) as Hg.
  split; [exact Hp|]. split; [exact Hg|].
  rewrite Hg. split; intros E.
  - rewrite E in Hp. cbn [length] in Hp. lia.
  - destruct (pending st); [reflexivity|cbn [length] in Hp; lia].
Qed.


(** X15. When every request has been answered, the components of every
    changeset are the ones it had plus the trimmed component cell of
    every related ticket whose page was fetched with status 200, one for
    each such ticket; the order among them is the order of arrival. *)
Theorem components_of_a_complete_run (schedule : list nat)
  (l : list changeset) (st : state) :
  gatherComponents request componentCell schedule l = Some st ->
  pending st = [] ->
  Forall2 (fun c c' => Permutation (component c')
                         (component c ++ gained (related c)))
    l (changesets st).
Proof.
  unfold gatherComponents. intros H Hp.
  destruct (run_tracks l _ _ _ (start_tracks l) H) as [Hlen Hinv].
  apply Forall2_nth_error; [exact Hlen|].
  intros i c c' Hc Hc'. destruct (Hinv i c c' Hc Hc') as [_ [_ Hperm]].
  rewrite Hp in Hperm. cbn in Hperm. rewrite app_nil_r in Hperm.
  exact Hperm.
Qed.

End Network.

Lemma callback_after_last_answer_witness :
  exists st,
    gatherComponents onlyTicket8 wholeBody [0; 0] [forTicket7; forTicket8]
    = Some st
    /\ (gathered st = true <-> 2 = 2).
Proof.
  eexists. split; [vm_compute; reflexivity|].
  apply (callback_after_last_answer onlyTicket8 wholeBody [0; 0]
           [forTicket7; forTicket8]).
  vm_compute. reflexivity.
Defined.


Lemma components_of_a_complete_run_witness :
  exists st,
    gatherComponents onlyTicket8 wholeBody [1; 0] [forTicket7; forTicket8]
    = Some st
    /\ Forall2 (fun c c' =>
                  Permutation (component c')
                    (component c
                     ++ gained onlyTicket8 wholeBody (related c)))
         [forTicket7; forTicket8] (changesets st).
Proof.
  eexists. split; [vm_compute; reflexivity|].
  apply (components_of_a_complete_run onlyTicket8 wholeBody [1; 0]
           [forTicket7; forTicket8]); vm_compute; reflexivity.
Defined.

End GatherFurther.

(** ** The report as a whole *)

Module OutputFurther.

Import Chars JS Changeset Notions Further Output OutputFacts.

Lemma categorizeAll_unfiled : forall l pre,
  Forall (fun c => inherited (keyOf c) = false) pre ->
  categorizeAll (bucketsOf pre) l
  = if existsb unfiled l then None else Some (bucketsOf (pre ++ l)).
Proof.
  induction l as [|item l IH]; intros pre Hpre.
  - cbn [categorizeAll existsb]. rewrite app_nil_r. reflexivity.
  - cbn [categorizeAll existsb]. rewrite categorize_bucketsOf.
    unfold unfiled at 1. destruct (inherited (keyOf item)) eqn:Hi.
    + destruct (existsb (str_eqb (keyOf item)) (map keyOf pre)) eqn:He;
        [exfalso|reflexivity].
      apply existsb_str in He. apply in_map_iff in He.
      destruct He as (c & Hk & Hin).
      rewrite Forall_forall in Hpre. specialize (Hpre c Hin).
      congruence.
    + cbn [andb orb]. rewrite IH.
      * rewrite <- app_assoc. reflexivity.
      * apply Forall_app. split; [exact Hpre|]. constructor; [exact Hi|].
        constructor.
Qed.

(** X16. [buildOutput] ends with a TypeError, printing nothing, exactly
    when the key of some changeset, its components joined by commas, is a
    name that every object inherits, such as [constructor]; with every
    other log it returns its report. *)
Theorem buildOutput_fails_iff_unfiled
  (localeCompare : str -> str -> comparison) (changesets : list changeset) :
  buildOutput localeCompare changesets = None
  <-> existsb unfiled changesets = true.
Proof.
  rewrite buildOutput_sections.
  change (categorizeAll [] changesets)
    with (categorizeAll (bucketsOf []) changesets).
  rewrite categorizeAll_unfiled by constructor. cbn [app].
  destruct (existsb unfiled changesets); [split; reflexivity|].
  rewrite sections_wellFilled.
  - split; discriminate.
  - eapply Permutation_Forall;
      [apply Permutation_sym, enumerate_perm|apply bucketsOf_wellFilled].
Qed.

Lemma thanks_snoc l x :
  thanks (l ++ [x])
  = txt "Thanks to @"
    ++ join (txt ", @") (filter (fun y => negb (str_eqb y x)) l)
    ++ txt ", and @" ++ x ++ txt " for their contributions!".
Proof.
  unfold thanks, last. rewrite map_app. cbn [map]. rewrite last_last.
  cbn [without printed]. rewrite filter_app. cbn [filter].
  rewrite str_eqb_refl. cbn [negb]. rewrite app_nil_r. reflexivity.
Qed.

(** X17. The credit line names the last contributor of the sorted list
    after [, and @] and the others before it, joined by [, @]; a name
    equal to the last one does not appear among the others. *)
Theorem credit_line_format (localeCompare : str -> str -> comparison)
  (changesets : list changeset) (out : output) (l : list str) (x : str) :
  buildOutput localeCompare changesets = Some out ->
  creditList localeCompare changesets = Some (l ++ [x]) ->
  propsOutput out
  = txt "Thanks to @"
    ++ join (txt ", @") (filter (fun y => negb (str_eqb y x)) l)
    ++ txt ", and @" ++ x ++ txt " for their contributions!".
Proof.
  unfold buildOutput, creditList.
  destruct (report localeCompare changesets) as [[t p]|]; [|discriminate].
  cbn [option_map snd]. intros Ho Hc. inversion Ho; subst out.
  inversion Hc; subst p. cbn [propsOutput]. apply thanks_snoc.
Qed.

Lemma credit_line_format_witness :
  exists out,
    buildOutput codeUnitCompare [bobAliceBob] = Some out
    /\ propsOutput out
       = txt "Thanks to @alice, @bob, and @Bob for their contributions!".
Proof.
  eexists. split; [vm_compute; reflexivity|].
  apply (credit_line_format codeUnitCompare [bobAliceBob] _
           [txt "alice"; txt "bob"] (txt "Bob"));
    vm_compute; reflexivity.
Defined.




End OutputFurther.

(** ** The three stages in a row *)

Module PipelineFurther.

Import Chars RegExp JS Dom Changeset Notions Further ParseLogs Gather
  Output.


(** X18. A log of fewer than two rows goes through the three stages
    without a request: no changeset is built, [gatherCallback] is called
    at once, and the report is an empty change list with the credit line
    [Thanks to @, and @undefined for their contributions!]. *)
Theorem short_log_report (parseFragment : str -> list node)
  (request : str -> response) (componentCell : str -> str)
  (localeCompare : str -> str -> comparison) (logEntries : list node) :
  length logEntries < 2 ->
  exists st,
    gatherComponents request componentCell []
      (buildChangesets parseFragment logEntries) = Some st
    /\ pending st = [] /\ gathered st = true
    /\ buildOutput localeCompare (changesets st)
       = Some (mkOutput []
                 (txt "Thanks to @, and @undefined for their contributions!")).
Proof.
  intros H.
  assert (E : buildChangesets parseFragment logEntries = []).
  { destruct logEntries as [|a [|b rest]]; [reflexivity|reflexivity|].
    cbn [length] in H. lia. }
  rewrite E. exists (start []). repeat split; reflexivity.
Qed.

Lemma short_log_report_witness :
  exists st,
    gatherComponents onlyTicket8 wholeBody []
      (buildChangesets plainText [row [cell "rev" (txt "@1")]]) = Some st
    /\ pending st = [] /\ gathered st = true
    /\ buildOutput codeUnitCompare (changesets st)
       = Some (mkOutput []
                 (txt "Thanks to @, and @undefined for their contributions!")).
Proof.
  apply (short_log_report plainText onlyTicket8 wholeBody codeUnitCompare
           [row [cell "rev" (txt "@1")]]).
  cbn [length]. lia.
Defined.



End PipelineFurther.

(** ** A message without clauses *)

Module MessageFurther.

Import Chars RegExp JS Dom Changeset Notions Further RegExpFacts
  DescriptionFacts ParseLogs PatternFacts.

Lemma clause_exec_none seps W tail s :
  forallb letter W = true ->
  occursAfter seps W s = false ->
  exec (One seps :: ofWord W ++ tail) s = None.
Proof.
  intros Hl H.
  destruct (exec _ s) as [f|] eqn:He; [|reflexivity].
  exfalso. destruct (exec_sound _ _ _ He) as [Hs (ps & Hps & _)].
  apply clause_inv in Hps; [|exact Hl].
  rewrite Hs in H. rewrite (occursAfter_suffix seps W _ _ Hps) in H.
  discriminate.
Qed.

Lemma repeat_snoc (A : Type) (x : A) : forall k,
  repeat x k ++ [x] = x :: repeat x k.
Proof.
  induction k as [|k IH]; [reflexivity|].
  cbn [repeat app]. rewrite IH. reflexivity.
Qed.

Lemma cap_keeps : forall s k,
  k <= 2 -> tripleFree (repeat LF k ++ s) -> capNewlines k s = s.
Proof.
  induction s as [|x s IH]; intros k Hk Hfree; [reflexivity|].
  cbn [capNewlines]. destruct (Ascii.eqb_spec x LF) as [->|Hx].
  - destruct (Nat.ltb_spec k 2) as [Hlt|Hge].
    + rewrite (IH (S k)); [reflexivity|lia|].
      cbn [repeat]. rewrite <- repeat_snoc, <- app_assoc. exact Hfree.
    + exfalso. assert (k = 2) by lia. subst k.
      apply (Hfree [] s). reflexivity.
  - rewrite (IH 0); [reflexivity|lia|].
    cbn [repeat app]. intros pre post E.
    apply (Hfree (repeat LF k ++ x :: pre) post).
    rewrite E, <- app_assoc. reflexivity.
Qed.

(** X20. A message without clause comes through unchanged: when the
    text of the log cell has no Fixes clause, no See clause and no Props
    clause, has no three newlines in a row and no white space at either
    end, it is the description of the changeset, and the changeset has no
    props. *)
Theorem plain_message_kept (parseFragment : str -> list node)
  (meta log : node) :
  occursAfter fixesSeparator (txt "Fixes") (logText parseFragment log)
  = false ->
  occursAfter (just LF) (txt "See") (logText parseFragment log) = false ->
  occursAfter (just LF) (txt "Props") (logText parseFragment log) = false ->
  tripleFree (logText parseFragment log) ->
  trimmed (logText parseFragment log) ->
  description (changesetOf parseFragment meta log)
  = logText parseFragment log
  /\ props (changesetOf parseFragment meta log) = [].
Proof.
  intros Hf Hs Hp Hfree Htrim.
  cbn [changesetOf description props]. fold (logText parseFragment log).
  set (t := logText parseFragment log) in *.
  assert (E1 : stripFixes t = t).
  { unfold stripFixes.
    change fixesRegex
      with (One fixesSeparator
            :: ofWord (txt "Fixes") ++ [Open; Many dot; Close]).
    apply clause_absent; [reflexivity|exact Hf]. }
  assert (E2 : stripSee t = t).
  { unfold stripSee.
    change seeRegex
      with (One (just LF) :: ofWord (txt "See") ++ [Open; Many dot; Close]).
    apply clause_absent; [reflexivity|exact Hs]. }
  assert (E3 : exec propsRegex t = None).
  { change propsRegex
      with (One (just LF)
            :: ofWord (txt "Props") ++ [Open; Many dot; Close; One dot]).
    apply clause_exec_none; [reflexivity|exact Hp]. }
  rewrite E1, E2. unfold removeProps, extractProps, replaceFirst.
  rewrite E3. split; [|reflexivity].
  rewrite collapse_cap, (cap_keeps t 0) by (auto; exact Hfree).
  apply OutputFacts.trim_id. exact Htrim.
Qed.

Lemma plain_message_kept_witness :
  description (changesetOf plainText (row [cell "rev" (txt "@1")])
                 (row [cell "log" (txt "Fixes the seesaw.")]))
  = txt "Fixes the seesaw."
  /\ props (changesetOf plainText (row [cell "rev" (txt "@1")])
              (row [cell "log" (txt "Fixes the seesaw.")])) = [].
Proof.
  apply (plain_message_kept plainText (row [cell "rev" (txt "@1")])
           (row [cell "log" (txt "Fixes the seesaw.")]));
    try reflexivity.
  - exact (collapse_tripleFree (txt "Fixes the seesaw.")).
  - exact (trim_trimmed (txt "Fixes the seesaw.")).
Defined.

End MessageFurther.

(** ** The Props line in the revision that cleans the names
    (src/unnamed/part_001) *)

Module LaterRevisionFurther.

Import Chars RegExp JS Changeset Notions Further RegExpFacts
  DescriptionFacts PatternFacts PropsFurther CleanPropsFurther.
Import CleanProps.

Lemma matchHere_opt_cons c r x s :
  matchHere (Opt c :: r) (x :: s)
  = if c x
    then orElse (piece [x] (matchHere r s)) (piece [] (matchHere r (x :: s)))
    else piece [] (matchHere r (x :: s)).
Proof. reflexivity. Qed.

(** A greedy star takes the whole span when the rest of the pattern
    matches behind it. *)
Lemma many_greedy c r : forall s ps rest,
  matchHere r (afterSpan c s) = Some (ps, rest) ->
  matchHere (Many c :: r) s = Some (span c s :: ps, rest).
Proof.
  induction s as [|x s IH]; intros ps rest H.
  - rewrite matchHere_many_nil. cbn [afterSpan] in H. rewrite H.
    reflexivity.
  - rewrite matchHere_many_cons. cbn [span afterSpan] in *.
    destruct (c x).
    + rewrite (IH _ _ H). reflexivity.
    + rewrite H. reflexivity.
Qed.

Lemma startsLower_more W : forall s t,
  startsLower W s = true -> startsLower W (s ++ t) = true.
Proof.
  induction W as [|c W IH]; intros s t H; [reflexivity|].
  destruct s as [|x s]; [discriminate|].
  cbn [startsLower app] in *. apply andb_prop in H. destruct H as [Hx H].
  rewrite Hx, (IH _ t H). reflexivity.
Qed.

Lemma mentions_prefix W t : forall pre,
  mentions W (pre ++ t) = false -> mentions W pre = false.
Proof.
  intros pre H. destruct (mentions W pre) eqn:E; [|reflexivity].
  rewrite <- H. symmetry. clear H.
  induction pre as [|x pre IH].
  - cbn [mentions] in E. rewrite orb_false_r in E.
    destruct W; [|discriminate]. destruct t; reflexivity.
  - cbn [mentions app] in *. apply orb_prop in E. destruct E as [E|E].
    + pose proof (startsLower_more W (x :: pre) t E) as E'.
      cbn [app] in E'. rewrite E'. reflexivity.
    + rewrite (IH E). apply orb_true_r.
Qed.

(** The word does not start inside the text before it. *)
Ltac decide_letters :=
  repeat match goal with
         | |- context [Ascii.eqb (lower ?x) ?c] =>
             is_var x; destruct (Ascii.eqb (lower x) c)
         end;
  reflexivity.

Lemma no_straddle_Props pre w rest :
  mentions (txt "Props") pre = false ->
  toLowerCase w = txt "props" ->
  forall p q, pre = p ++ q -> q <> [] ->
              startsLower (txt "Props") (q ++ w ++ rest) = false.
Proof.
  intros Hm Hw p q -> Hq.
  destruct w as [|w1 [|w2 [|w3 [|w4 [|w5 [|w6 w]]]]]]; try discriminate.
  cbn [toLowerCase map] in Hw. injection Hw as E1 E2 E3 E4 E5.
  destruct q as [|q1 [|q2 [|q3 [|q4 [|q5 q]]]]]; [congruence| | | | |].
  - cbn [startsLower txt list_ascii_of_string app].
    rewrite ?E1, ?E2, ?E3, ?E4, ?E5. decide_letters.
  - cbn [startsLower txt list_ascii_of_string app].
    rewrite ?E1, ?E2, ?E3, ?E4, ?E5. decide_letters.
  - cbn [startsLower txt list_ascii_of_string app].
    rewrite ?E1, ?E2, ?E3, ?E4, ?E5. decide_letters.
  - cbn [startsLower txt list_ascii_of_string app].
    rewrite ?E1, ?E2, ?E3, ?E4, ?E5. decide_letters.
  - destruct (startsLower (txt "Props")
                ((q1 :: q2 :: q3 :: q4 :: q5 :: q) ++ [w1; w2; w3; w4; w5]
                 ++ rest)) eqn:E; [exfalso|reflexivity].
    assert (Hq5 : startsLower (txt "Props") (q1 :: q2 :: q3 :: q4 :: q5 :: q)
                  = true) by exact E.
    rewrite (mentions_suffix _ _ p Hq5) in Hm. discriminate.
Qed.

Lemma no_straddle_for pre w rest :
  mentions (txt "for") pre = false ->
  toLowerCase w = txt "for" ->
  forall p q, pre = p ++ q -> q <> [] ->
              startsLower (txt "for") (q ++ w ++ rest) = false.
Proof.
  intros Hm Hw p q -> Hq.
  destruct w as [|w1 [|w2 [|w3 [|w4 w]]]]; try discriminate.
  cbn [toLowerCase map] in Hw. injection Hw as E1 E2 E3.
  destruct q as [|q1 [|q2 [|q3 q]]]; [congruence| | |].
  - cbn [startsLower txt list_ascii_of_string app].
    rewrite ?E1, ?E2, ?E3. decide_letters.
  - cbn [startsLower txt list_ascii_of_string app].
    rewrite ?E1, ?E2, ?E3. decide_letters.
  - destruct (startsLower (txt "for")
                ((q1 :: q2 :: q3 :: q) ++ [w1; w2; w3] ++ rest)) eqn:E;
      [exfalso|reflexivity].
    assert (Hq3 : startsLower (txt "for") (q1 :: q2 :: q3 :: q) = true)
      by exact E.
    rewrite (mentions_suffix _ _ p Hq3) in Hm. discriminate.
Qed.

(** *** The Props pattern of the later revision *)

Lemma space_not_colon x : isSpace x = true -> just ":"%char x = false.
Proof.
  intros H. destruct (just_spec ":"%char x) as [E|]; [|reflexivity].
  subst x. vm_compute in H. discriminate.
Qed.

Lemma terminator_not_period x :
  isLineTerminator x = true -> just "."%char x = false.
Proof.
  intros H. destruct (just_spec "."%char x) as [E|]; [|reflexivity].
  subst x. vm_compute in H. discriminate.
Qed.

Lemma names_to_end_of_line y line post :
  oneLine (y :: line) = true -> lineEnds post = true ->
  matchHere [Open; Many dot; Close; Opt (just "."%char)]
    (y :: line ++ post)
  = Some ([[]; y :: line; []; []], post).
Proof.
  intros Hl Hp. rewrite matchHere_open.
  destruct (span_line (y :: line) post Hl Hp) as [Hs Ha].
  cbn [app] in Hs, Ha.
  rewrite (many_greedy dot _ (y :: line ++ post) [[]; []] post).
  - rewrite Hs. reflexivity.
  - rewrite Ha, matchHere_close. destruct post as [|z post]; [reflexivity|].
    cbn [lineEnds] in Hp. rewrite matchHere_opt_cons.
    rewrite (terminator_not_period z Hp). reflexivity.
Qed.

Lemma after_the_word colon s1 ws y line post :
  colon = [] \/ colon = [":"%char] ->
  isSpace s1 = true -> forallb isSpace ws = true -> isSpace y = false ->
  oneLine (y :: line) = true -> lineEnds post = true ->
  matchHere [Opt (just ":"%char); One isSpace; Many isSpace;
             Open; Many dot; Close; Opt (just "."%char)]
    (colon ++ s1 :: ws ++ y :: line ++ post)
  = Some ([colon; [s1]; ws; []; y :: line; []; []], post).
Proof.
  intros Hc Hs1 Hws Hy Hl Hp.
  assert (Hr : match y :: line ++ post with
               | [] => true | z :: _ => negb (isSpace z) end = true)
    by (rewrite Hy; reflexivity).
  destruct (span_app isSpace ws (y :: line ++ post) Hws Hr) as [Hs Ha].
  assert (B : matchHere [One isSpace; Many isSpace;
                         Open; Many dot; Close; Opt (just "."%char)]
                (s1 :: ws ++ y :: line ++ post)
              = Some ([[s1]; ws; []; y :: line; []; []], post)).
  { rewrite matchHere_one, Hs1.
    rewrite (many_greedy isSpace _ (ws ++ y :: line ++ post)
               [[]; y :: line; []; []] post).
    - rewrite Hs. reflexivity.
    - rewrite Ha. apply names_to_end_of_line; assumption. }
  destruct Hc as [->| ->].
  - cbn [app]. rewrite matchHere_opt_cons, (space_not_colon s1 Hs1), B.
    reflexivity.
  - cbn [app]. rewrite matchHere_opt_cons.
    change (just ":"%char ":"%char) with true. cbv iota. rewrite B.
    reflexivity.
Qed.

(** X21. In the revision that cleans the names, the first occurrence
    of the word Props in any case, with or without a colon and followed
    by white space, starts the clause wherever it stands: the names are
    the rest of its line, cleaned, and the clause is cut out of the
    description up to the end of that line. *)
Theorem later_props_line (pre w colon : str) (s1 : ascii) (ws : str)
  (y : ascii) (line post : str) :
  mentions (txt "Props") pre = false ->
  toLowerCase w = txt "props" ->
  colon = [] \/ colon = [":"%char] ->
  isSpace s1 = true -> forallb isSpace ws = true -> isSpace y = false ->
  oneLine (y :: line) = true -> lineEnds post = true ->
  extractProps (pre ++ w ++ colon ++ s1 :: ws ++ y :: line ++ post)
  = cleanProps (y :: line)
  /\ removeProps (pre ++ w ++ colon ++ s1 :: ws ++ y :: line ++ post)
     = pre ++ post.
Proof.
  intros Hm Hw Hc Hs1 Hws Hy Hl Hp.
  pose proof Hw as Hw'.
  change (txt "props") with (toLowerCase (txt "Props")) in Hw'.
  destruct (lower_word _ w Hw') as [Hlen Hsw].
  assert (He : exists m,
    exec propsRegex (pre ++ w ++ colon ++ s1 :: ws ++ y :: line ++ post)
    = Some (Found pre m (y :: line) post)).
  { change propsRegex
      with (ofWord (txt "Props")
            ++ [Opt (just ":"%char); One isSpace; Many isSpace;
                Open; Many dot; Close; Opt (just "."%char)]).
    rewrite exec_behind.
    - assert (M : matchHere
                    (ofWord (txt "Props")
                     ++ [Opt (just ":"%char); One isSpace; Many isSpace;
                         Open; Many dot; Close; Opt (just "."%char)])
                    (w ++ colon ++ s1 :: ws ++ y :: line ++ post)
                  = Some (map (fun x => [x]) w
                          ++ [colon; [s1]; ws; []; y :: line; []; []],
                          post)).
      { rewrite (word_hit _ _ w _ Hlen Hsw eq_refl).
        rewrite (after_the_word colon s1 ws y line post Hc Hs1 Hws Hy Hl Hp).
        reflexivity. }
      rewrite (exec_here _ _ _ _ M).
      cbn [option_map before after matched captured].
      rewrite app_nil_r, (group1_word _ _ _ w Hlen). cbn [group1].
      rewrite !app_nil_r. eexists. reflexivity.
    - intros p q Hpq Hq.
      destruct (matchHere _ (q ++ w ++ colon ++ s1 :: ws ++ y :: line ++ post))
        as [[ps rest]|] eqn:E; [|reflexivity].
      apply word_inv in E; [|reflexivity].
      rewrite (no_straddle_Props pre w _ Hm Hw p q Hpq Hq) in E.
      discriminate. }
  destruct He as [m He].
  unfold extractProps, removeProps, replaceFirst. rewrite He.
  split; reflexivity.
Qed.

Lemma later_props_line_witness :
  extractProps (txt "Fix it. " ++ txt "props" ++ txt ":" ++ " "%char :: []
                ++ "j"%char :: txt "ane, john." ++ LF :: txt "More.")
  = cleanProps (txt "jane, john.")
  /\ removeProps (txt "Fix it. " ++ txt "props" ++ txt ":" ++ " "%char :: []
                  ++ "j"%char :: txt "ane, john." ++ LF :: txt "More.")
     = txt "Fix it. " ++ LF :: txt "More.".
Proof.
  apply (later_props_line (txt "Fix it. ") (txt "props") (txt ":") " "%char
           [] "j"%char (txt "ane, john.") (LF :: txt "More."));
    try reflexivity.
  right. reflexivity.
Defined.

(** *** From the word for to the last comma *)

Lemma comma_free_miss : forall tail,
  forallb notComma tail = true ->
  matchHere [Many dot; One (just ","%char); Close] tail = None.
Proof.
  induction tail as [|x tail IH]; intros H; [reflexivity|].
  cbn [forallb] in H. apply andb_prop in H. destruct H as [Hx H].
  rewrite matchHere_many_cons, (IH H), matchHere_one, (notComma_just x Hx).
  destruct (dot x); reflexivity.
Qed.

Lemma up_to_last_comma tail : forall mid,
  oneLine mid = true -> forallb notComma tail = true ->
  matchHere [Many dot; One (just ","%char); Close] (mid ++ ","%char :: tail)
  = Some ([mid; [","%char]; []], tail).
Proof.
  intros mid Hm Ht. unfold oneLine in Hm.
  induction mid as [|x mid IH].
  - cbn [app]. rewrite matchHere_many_cons, (comma_free_miss tail Ht).
    change (dot ","%char) with true. cbv iota.
    rewrite matchHere_one. reflexivity.
  - cbn [forallb] in Hm. apply andb_prop in Hm. destruct Hm as [Hx Hm].
    cbn [app]. rewrite matchHere_many_cons, Hx, (IH Hm). reflexivity.
Qed.

Lemma forComma_never_empty rest ps :
  matchHere forCommaRegex rest = Some (ps, rest) -> False.
Proof.
  intros H. apply matchHere_sound in H. destruct H as [Hf Hr].
  unfold forCommaRegex in Hf. cbn [wordi list_ascii_of_string map app] in Hf.
  inversion Hf as [|a0 p0 r0 ps0 _ Hf0]; subst.
  inversion Hf0 as [|a1 p1 r1 ps1 Hp1 _]; subst.
  cbn [fits] in Hp1. destruct Hp1 as (x & -> & _).
  cbn [concat] in Hr. apply (f_equal (@length ascii)) in Hr.
  rewrite !length_app in Hr. cbn [length] in Hr. lia.
Qed.

Lemma forComma_has_comma s ps rest :
  matchHere forCommaRegex s = Some (ps, rest) -> In ","%char (concat ps).
Proof.
  intros H. apply matchHere_sound in H. destruct H as [Hf _].
  unfold forCommaRegex in Hf. cbn [wordi list_ascii_of_string map app] in Hf.
  inversion Hf as [|a0 p0 r0 ps0 _ Hf0]; subst.
  inversion Hf0 as [|a1 p1 r1 ps1 _ Hf1]; subst.
  inversion Hf1 as [|a2 p2 r2 ps2 _ Hf2]; subst.
  inversion Hf2 as [|a3 p3 r3 ps3 _ Hf3]; subst.
  inversion Hf3 as [|a4 p4 r4 ps4 _ Hf4]; subst.
  inversion Hf4 as [|a5 p5 r5 ps5 Hp5 _]; subst.
  cbn [fits] in Hp5. destruct Hp5 as (x & -> & Hx).
  destruct (just_spec ","%char x) as [E|]; [|discriminate]. subst x.
  cbn [concat]. do 5 (apply in_or_app; right).
  apply in_or_app. left. left. reflexivity.
Qed.

Lemma forComma_comma_free tail :
  forallb notComma tail = true -> exec forCommaRegex tail = None.
Proof.
  intros H. destruct (exec forCommaRegex tail) as [f|] eqn:He;
    [exfalso|reflexivity].
  destruct (exec_sound _ _ _ He) as [Hs (ps & Hps & Hm & _)].
  apply forComma_has_comma in Hps. rewrite <- Hm in Hps.
  rewrite forallb_forall in H.
  assert (Hin : In ","%char tail)
    by (rewrite Hs; apply in_or_app; right; apply in_or_app; left;
        exact Hps).
  specialize (H _ Hin). discriminate.
Qed.

Lemma replaceAll_behind r t s : forall pre,
  (forall rest ps, matchHere r rest = Some (ps, rest) -> False) ->
  (forall p q, pre = p ++ q -> q <> [] -> matchHere r (q ++ s) = None) ->
  replaceAll r t (pre ++ s) = pre ++ replaceAll r t s.
Proof.
  intros pre Hne. induction pre as [|x pre IH]; intros H; [reflexivity|].
  cbn [app]. rewrite replaceAll_skip.
  - rewrite IH; [reflexivity|].
    intros p q -> Hq. apply (H (x :: p) q); [reflexivity|exact Hq].
  - apply (H [] (x :: pre)); [reflexivity|discriminate].
  - exact Hne.
Qed.

Lemma for_to_last_comma pre w mid tail :
  mentions (txt "for") pre = false ->
  toLowerCase w = txt "for" ->
  oneLine mid = true -> forallb notComma tail = true ->
  replaceAll forCommaRegex [] (pre ++ w ++ mid ++ ","%char :: tail)
  = pre ++ tail.
Proof.
  intros Hm Hw Hmid Htail.
  pose proof Hw as Hw'.
  change (txt "for") with (toLowerCase (txt "for")) in Hw'.
  destruct (lower_word _ w Hw') as [Hlen Hsw].
  rewrite replaceAll_behind.
  - assert (M : matchHere forCommaRegex (w ++ mid ++ ","%char :: tail)
                = Some ([] :: map (fun x => [x]) w
                            ++ [mid; [","%char]; []], tail)).
    { change forCommaRegex
        with (Open :: ofWord (txt "for")
                      ++ [Many dot; One (just ","%char); Close]).
      rewrite matchHere_open, (word_hit _ _ w _ Hlen Hsw eq_refl).
      rewrite (up_to_last_comma tail mid Hmid Htail). reflexivity. }
    rewrite (replaceAll_hit _ [] _ _ _ M).
    + cbn [expand flat_map app].
      rewrite (replaceAll_none _ _ _ (forComma_comma_free tail Htail)).
      reflexivity.
    + destruct w; [discriminate|]. discriminate.
  - apply forComma_never_empty.
  - intros p q Hpq Hq.
    destruct (matchHere forCommaRegex (q ++ w ++ mid ++ ","%char :: tail))
      as [[ps rest]|] eqn:E; [|reflexivity].
    change forCommaRegex
      with (Open :: ofWord (txt "for")
                    ++ [Many dot; One (just ","%char); Close]) in E.
    rewrite matchHere_open in E. apply piece_inv in E.
    destruct E as (ps' & _ & E). apply word_inv in E; [|reflexivity].
    rewrite (no_straddle_for pre w _ Hm Hw p q Hpq Hq) in E. discriminate.
Qed.

(** X22. [cleanProps] drops whatever stands between the first [for], in
    any case, and the last comma of the line, names included: the result
    is that of the line without this stretch. *)
Theorem for_to_last_comma_dropped (pre w mid tail : str) :
  mentions (txt "for") (pre ++ tail) = false ->
  toLowerCase w = txt "for" ->
  oneLine mid = true -> forallb notComma tail = true ->
  cleanProps (pre ++ w ++ mid ++ ","%char :: tail)
  = cleanProps (pre ++ tail).
Proof.
  intros Hm Hw Hmid Htail. unfold cleanProps.
  rewrite (for_to_last_comma pre w mid tail
             (mentions_prefix _ _ _ Hm) Hw Hmid Htail).
  rewrite (replaceAll_none _ _ _ (forComma_absent _ Hm)). reflexivity.
Qed.

Lemma for_to_last_comma_dropped_witness :
  cleanProps (txt "jane, john " ++ txt "for" ++ txt " testing, bob"
              ++ ","%char :: txt " carol.")
  = [txt "jane"; txt "john"; txt "carol"].
Proof.
  etransitivity.
  - apply (for_to_last_comma_dropped (txt "jane, john ") (txt "for")
             (txt " testing, bob") (txt " carol.")); reflexivity.
  - vm_compute. reflexivity.
Defined.

End LaterRevisionFurther.
